(** * mercator: range-volatility features

    A shallow embedding of [src/mercator_data/volatility.py] and the
    properties its specification states about it.

    The program is a composition of pandas and numpy calls, so the embedding
    has two layers: the library operations the source calls ([np.log],
    [Series.div], [Series.rolling_sum], [pd.sort_values], [pd.groupby_apply],
    ...) with the behaviour of pandas 2.x (the version the ingestion step is
    written for), and the four functions of the source written over these,
    line by line.

    Numbers.  A cell of dtype float64 is an exact real or one of the three
    special values of IEEE arithmetic, so that logarithms of non-positive
    numbers and divisions by zero can be followed through the program.
    Rounding, overflow and the sign of zero are not modelled: finite
    arithmetic is arithmetic on [R].

    Tables.  A frame is its column labels and its labelled rows; column labels
    are unique; the date column holds dates, the Ticker column strings, the
    price columns numbers, any of them possibly missing.  A cell of another
    type raises [TypeError] where the program reads it.

    Sorting.  [sort_values] is called with its default algorithm, which sorts
    but is not stable; the algorithm is a parameter of the embedding.

    The window is a natural number: pandas rejects a negative one before it
    computes anything. *)

From Stdlib Require Import Reals Lra Lia ZArith.
From stdpp Require Import gmap strings list sorting.

(** ** float64 values *)

Inductive f64 : Type :=
  | Fin (x : R)
  | PInf
  | NInf
  | NaN.

Definition finite_val (v : f64) : option R :=
  match v with Fin x => Some x | _ => None end.

Definition is_nan (v : f64) : bool :=
  match v with NaN => true | _ => false end.

Definition Rsum (l : list R) : R := foldr Rplus 0%R l.

Module F.
(** IEEE division, [x / y]. *)
Definition div (a b : f64) : f64 :=
  match a, b with
  | NaN, _ | _, NaN => NaN
  | Fin x, Fin y =>
      if Req_dec_T y 0 then
        (if Rlt_dec 0 x then PInf else if Rlt_dec x 0 then NInf else NaN)
      else Fin (x / y)
  | Fin _, _ => Fin 0
  | PInf, Fin y => if Rlt_dec y 0 then NInf else PInf
  | NInf, Fin y => if Rlt_dec y 0 then PInf else NInf
  | _, _ => NaN
  end.

Definition mul (a b : f64) : f64 :=
  match a, b with
  | NaN, _ | _, NaN => NaN
  | Fin x, Fin y => Fin (x * y)
  | Fin x, PInf | PInf, Fin x =>
      if Rlt_dec 0 x then PInf else if Rlt_dec x 0 then NInf else NaN
  | Fin x, NInf | NInf, Fin x =>
      if Rlt_dec 0 x then NInf else if Rlt_dec x 0 then PInf else NaN
  | PInf, PInf | NInf, NInf => PInf
  | PInf, NInf | NInf, PInf => NInf
  end.

Definition sub (a b : f64) : f64 :=
  match a, b with
  | NaN, _ | _, NaN => NaN
  | Fin x, Fin y => Fin (x - y)
  | Fin _, PInf => NInf
  | Fin _, NInf => PInf
  | PInf, PInf | NInf, NInf => NaN
  | PInf, _ => PInf
  | NInf, _ => NInf
  end.

(** [x ** 2]. *)
Definition sqr (a : f64) : f64 :=
  match a with
  | Fin x => Fin (x ^ 2)
  | PInf | NInf => PInf
  | NaN => NaN
  end.

(** [x ** 0.5], numpy's [power]: the root of a negative number is NaN. *)
Definition pow_half (a : f64) : f64 :=
  match a with
  | Fin x => if Rlt_dec x 0 then NaN else Fin (sqrt x)
  | PInf | NInf => PInf
  | NaN => NaN
  end.

(** [max(x, lo)] as [clip(lower=lo)] computes it: NaN stays NaN. *)
Definition clip_lower (lo : R) (a : f64) : f64 :=
  match a with
  | Fin x => if Rle_dec lo x then Fin x else Fin lo
  | PInf => PInf
  | NInf => Fin lo
  | NaN => NaN
  end.
End F.

Module np.
(** [np.log]: the logarithm of zero is minus infinity, that of a negative
    number is NaN; both only emit a warning. *)
Definition log (a : f64) : f64 :=
  match a with
  | Fin x =>
      if Rlt_dec 0 x then Fin (ln x)
      else if Req_dec_T x 0 then NInf else NaN
  | PInf => PInf
  | NInf | NaN => NaN
  end.
End np.

(** ** pandas Series of dtype float64

    A Series is the list of its values in index order.  Binary operations
    align the operands on their index; the operands of the source always
    share the index of one frame, and for two default indexes of different
    lengths the labels missing on one side give NaN. *)

Module Series.
Fixpoint align (op : f64 → f64 → f64) (xs ys : list f64) : list f64 :=
  match xs with
  | [] => op NaN <$> ys
  | x :: xs' =>
      match ys with
      | [] => op x NaN :: align op xs' []
      | y :: ys' => op x y :: align op xs' ys'
      end
  end.

Definition div : list f64 → list f64 → list f64 := align F.div.
Definition sub : list f64 → list f64 → list f64 := align F.sub.

Definition apply (f : f64 → f64) (xs : list f64) : list f64 := f <$> xs.

(** [c * xs] for a scalar [c]. *)
Definition rmul (c : f64) (xs : list f64) : list f64 := F.mul c <$> xs.

(** [xs ** 2] and [xs.pow(0.5)]. *)
Definition sqr (xs : list f64) : list f64 := F.sqr <$> xs.
Definition pow_half (xs : list f64) : list f64 := F.pow_half <$> xs.

Definition clip (lower : R) (xs : list f64) : list f64 :=
  F.clip_lower lower <$> xs.

(** [xs.diff()]: the first element has no predecessor. *)
Definition diff (xs : list f64) : list f64 :=
  match xs with
  | [] => []
  | _ :: tl => NaN :: zip_with F.sub tl xs
  end.

(** The trailing window of [w] observations ending at position [i]:
    positions [max 0 (i+1-w) .. i]. *)
Definition window {A} (w i : nat) (xs : list A) : list A :=
  take (i + 1 - (i + 1 - w)) (drop (i + 1 - w) xs).

(** [xs.rolling(w).sum()], with the default [min_periods = w].  The
    observations of a window are its finite values (pandas turns the
    infinities into NaN before it sums, and skips NaN); the sum is defined
    when there are at least [min_periods] of them. *)
Definition rolling_sum (w : nat) (xs : list f64) : list f64 :=
  (λ i, let obs := omap finite_val (window w i xs) in
        if decide (w ≤ length obs) then Fin (Rsum obs) else NaN)
    <$> seq 0 (length xs).
End Series.

(** ** The source: [volatility.py] *)

Definition parkinson_vol (high low : list f64) (window : nat) : list f64 :=
  let rng := Series.apply np.log (Series.div high low) in
  let coef := F.div (Fin 1) (F.mul (Fin 4) (np.log (Fin 2))) in
  Series.pow_half (Series.rolling_sum window (Series.rmul coef (Series.sqr rng))).

Definition garman_klass_vol (open_ high low close : list f64) (window : nat)
  : list f64 :=
  let log_hl := Series.apply np.log (Series.div high low) in
  let log_co := Series.apply np.log (Series.div close open_) in
  let var :=
    Series.sub (Series.rmul (Fin 0.5) (Series.sqr log_hl))
               (Series.rmul (F.sub (F.mul (Fin 2) (np.log (Fin 2))) (Fin 1))
                            (Series.sqr log_co)) in
  let var := Series.rolling_sum window var in
  Series.pow_half (Series.clip 0 var).

Definition log_returns (close : list f64) : list f64 :=
  Series.diff (Series.apply np.log close).

(** ** Errors

    The two exceptions the program can raise: a column that is not in the
    frame, and an operation applied to a cell of the wrong type. *)

Inductive error : Type :=
  | KeyError (key : string)
  | TypeError.

Inductive result (A : Type) : Type :=
  | Ok (a : A)
  | Err (e : error).
Arguments Ok {A} a.
Arguments Err {A} e.

Global Instance result_ret : MRet result := λ A a, Ok a.
Global Instance result_bind : MBind result := λ A B k m,
  match m with Ok a => k a | Err e => Err e end.
Global Instance result_fmap : FMap result := λ A B g m,
  match m with Ok a => Ok (g a) | Err e => Err e end.

(** [mapM] that stops at the first error, as a Python loop does. *)
Fixpoint traverse {A B} (k : A → result B) (l : list A) : result (list B) :=
  match l with
  | [] => Ok []
  | a :: l' => b ← k a; bs ← traverse k l'; Ok (b :: bs)
  end.

(** ** Stable and unstable sorting

    [sort_values] is called without [kind], so numpy's default "quicksort" is
    used.  numpy documents what that algorithm guarantees: the keys come out
    in ascending order; which of two equal keys comes first is not fixed (only
    kind="stable" and kind="mergesort" fix it).  The embedding therefore takes
    the algorithm as a parameter with exactly that contract. *)

Class Argsort : Type := {
  argsort : list Z → list nat;
  argsort_perm : ∀ l, argsort l ≡ₚ seq 0 (length l);
  argsort_sorted : ∀ l, Sorted Z.le (omap (l !!.) (argsort l));
}.

(** Insertion sort of (key, position) pairs under a comparison [cmp].  With
    [Z.leb] equal keys keep their order; with [Z.ltb] they are reversed. *)
Fixpoint insert_by (cmp : Z → Z → bool) (x : Z * nat) (l : list (Z * nat))
  : list (Z * nat) :=
  match l with
  | [] => [x]
  | y :: l' => if cmp x.1 y.1 then x :: y :: l' else y :: insert_by cmp x l'
  end.

Definition isort_by (cmp : Z → Z → bool) (l : list (Z * nat)) : list (Z * nat) :=
  foldr (insert_by cmp) [] l.

Definition argsort_by (cmp : Z → Z → bool) (l : list Z) : list nat :=
  (isort_by cmp (zip l (seq 0 (length l)))).*2.

(** The first occurrence of every element, in order ([pd.unique]). *)
Fixpoint unique `{EqDecision A} (l : list A) : list A :=
  match l with
  | [] => []
  | x :: l' => x :: filter (λ y, y ≠ x) (unique l')
  end.

(** ** pandas DataFrame *)

Inductive value : Type :=
  | VNum (x : f64)
  | VTime (t : Z)
  | VStr (s : string)
  | VNone.

Module pd.
(** A row carries its index label and its cells by column name; a frame is
    its column labels, in order, and its rows, in order.  Column labels are
    unique.  A missing cell is a missing value. *)
Record Row : Type := { label : nat; cells : gmap string value }.
Record DataFrame : Type := { columns : list string; rows : list Row }.

Definition index (df : DataFrame) : list nat := label <$> rows df.

Definition cell (c : string) (r : Row) : value := default VNone (cells r !! c).

(** [df[c]] *)
Definition getitem (df : DataFrame) (c : string) : result (list value) :=
  if decide (c ∈ columns df) then Ok (cell c <$> rows df) else Err (KeyError c).

(** The values of a float64 column; arithmetic on anything else raises. *)
Definition to_f64 (v : value) : result f64 :=
  match v with
  | VNum x => Ok x
  | VNone => Ok NaN
  | _ => Err TypeError
  end.
Definition as_float : list value → result (list f64) := traverse to_f64.

(** The values of a datetime column ([None] is NaT) and of a column of
    strings; the embedding covers frames whose date and Ticker columns have
    these types, as the ingestion step produces them. *)
Definition to_time (v : value) : result (option Z) :=
  match v with
  | VTime t => Ok (Some t)
  | VNone => Ok None
  | _ => Err TypeError
  end.
Definition to_str (v : value) : result (option string) :=
  match v with
  | VStr s => Ok (Some s)
  | VNone => Ok None
  | _ => Err TypeError
  end.

(** [df[c] = xs] for a Series [xs] on the index of [df]: an existing column
    is overwritten in place, a new one is appended; a label the Series does
    not have gets NaN.  The number of rows never changes. *)
Definition setitem (df : DataFrame) (c : string) (xs : list f64) : DataFrame :=
  {| columns := if decide (c ∈ columns df) then columns df else columns df ++ [c];
     rows := imap (λ i r, {| label := label r;
                             cells := <[c := VNum (default NaN (xs !! i))]> (cells r) |})
                  (rows df) |}.

(** [df.take(indexer)] *)
Definition take (indexer : list nat) (df : DataFrame) : DataFrame :=
  {| columns := columns df; rows := omap (rows df !!.) indexer |}.

(** pandas' [nargsort] with [na_position="last"]: the positions of the
    keys that are present, in the order the sorting algorithm gives, then
    the positions of the missing keys. *)
Definition positions (P : option Z → Prop) `{∀ k, Decision (P k)}
    (keys : list (option Z)) : list nat :=
  filter (λ i, P (mjoin (keys !! i))) (seq 0 (length keys)).

Definition present (keys : list (option Z)) : list Z := omap (λ k, k) keys.

Definition nargsort `{Argsort} (keys : list (option Z)) : list nat :=
  let non_nan_idx := positions (λ k, k ≠ None) keys in
  let nan_idx := positions (λ k, k = None) keys in
  omap (non_nan_idx !!.) (argsort (present keys)) ++ nan_idx.

(** [df.sort_values(by)] *)
Definition sort_values `{Argsort} (df : DataFrame) (by_ : string) : result DataFrame :=
  k ← getitem df by_;
  keys ← traverse to_time k;
  Ok (take (nargsort keys) df).

(** [df.copy()] *)
Definition copy (df : DataFrame) : DataFrame := df.

(** [pd.concat] of frames with the same columns. *)
Definition concat (values : list DataFrame) : DataFrame :=
  {| columns := from_option columns [] (head values);
     rows := values ≫= rows |}.

(** [df.reindex(ax)]: the rows of [df] in the order of the labels [ax]; a
    label [df] does not have gives a row of missing values. *)
Definition reindex (df : DataFrame) (ax : list nat) : DataFrame :=
  if decide (index df = ax) then df
  else {| columns := columns df;
          rows := (λ l, default {| label := l; cells := ∅ |}
                          (List.find (λ r, bool_decide (label r = l)) (rows df)))
                  <$> ax |}.

(** How [groupby(...).apply] assembles the frames [values] that the
    function returned for the groups.  [ax] is the index of the rows that
    belong to some group, in their original order.  Without any group the
    result is an empty frame with the columns of [df]; when some result is
    not indexed like its group ([not_indexed_same]) the results are
    concatenated in the order of the groups; otherwise the concatenation is
    put back in the original row order. *)
Definition wrap_applied_output (df : DataFrame) (ax : list nat)
    (values : list DataFrame) (not_indexed_same : bool) : DataFrame :=
  match values with
  | [] => {| columns := columns df; rows := [] |}
  | _ =>
      let result := concat values in
      if not_indexed_same then result
      else if bool_decide (¬ NoDup ax ∧ index result ≠ ax) then
        {| columns := columns result;
           rows := unique ax ≫= λ l, filter (λ r, label r = l) (rows result) |}
      else reindex result ax
  end.

(** [df.groupby(by, group_keys=False).apply(f)], with the defaults
    [sort=True] and [dropna=True]: the groups are the distinct keys in
    ascending order, rows with a missing key belong to no group; each group
    is a frame with the columns of [df] and the group's rows in their
    original order; [f] is applied to the groups in order, the first
    exception ends the call. *)
Definition group_frames (df : DataFrame) (keys : list (option string))
  : list DataFrame :=
  let group_keys := merge_sort String.le (unique (omap (λ k, k) keys)) in
  (λ g, {| columns := columns df;
           rows := (filter (λ p, p.1 = Some g) (zip keys (rows df))).*2 |})
    <$> group_keys.

Definition python_apply_general (df : DataFrame) (keys : list (option string))
    (values : list DataFrame) : DataFrame :=
  let mutated := bool_decide (index <$> values ≠ index <$> group_frames df keys) in
  let ax := label <$> (filter (λ p, p.1 ≠ None) (zip keys (rows df))).*2 in
  wrap_applied_output df ax values mutated.

Definition groupby_apply (df : DataFrame) (by_ : string)
    (f : DataFrame → result DataFrame) : result DataFrame :=
  k ← getitem df by_;
  keys ← traverse to_str k;
  values ← traverse f (group_frames df keys);
  Ok (python_apply_general df keys values).
End pd.

(** ** The source: [add_range_vol_features]

    First as a function from tables to tables. *)

Section features.
Context `{Argsort}.

Definition _by_ticker (window : nat) (x : pd.DataFrame) : result pd.DataFrame :=
  x ← pd.copy <$> pd.sort_values x "date";
  close ← pd.getitem x "Close";
  close ← pd.as_float close;
  let x := pd.setitem x "ret_log_1d" (log_returns close) in
  high ← pd.getitem x "High";
  low ← pd.getitem x "Low";
  high ← pd.as_float high;
  low ← pd.as_float low;
  let x := pd.setitem x "vol_pk" (parkinson_vol high low window) in
  open_ ← pd.getitem x "Open";
  high ← pd.getitem x "High";
  low ← pd.getitem x "Low";
  close ← pd.getitem x "Close";
  open_ ← pd.as_float open_;
  high ← pd.as_float high;
  low ← pd.as_float low;
  close ← pd.as_float close;
  let x := pd.setitem x "vol_gk" (garman_klass_vol open_ high low close window) in
  Ok x.

Definition add_range_vol_features (df : pd.DataFrame) (window : nat)
  : result pd.DataFrame :=
  let out := pd.groupby_apply df "Ticker" (_by_ticker window) in
  out.
End features.

(** ** The source again, on frames as objects

    In Python a frame is an object: [x[c] = xs] changes the frame [x] refers
    to, for every holder of a reference to it, while [sort_values], [copy]
    and [apply] build new frames.  Here the program is written once more over
    a store of frames, with references for the variables of the source, to
    state what the call does to frames that exist before it. *)

Module obj.
Notation ref := nat (only parsing).
Notation store := (list pd.DataFrame) (only parsing).
Definition ST (A : Type) : Type := store → store * result A.

Definition ret {A} (a : A) : ST A := λ σ, (σ, Ok a).
Definition bind {A B} (m : ST A) (k : A → ST B) : ST B :=
  λ σ, match m σ with
       | (σ', Ok a) => k a σ'
       | (σ', Err e) => (σ', Err e)
       end.
Definition lift {A} (m : result A) : ST A := λ σ, (σ, m).

Global Instance ST_ret : MRet ST := @ret.
Global Instance ST_bind : MBind ST := λ A B k m, bind m k.

(** Allocation, reading and overwriting of a frame object. *)
Definition new (df : pd.DataFrame) : ST ref := λ σ, (σ ++ [df], Ok (length σ)).
Definition get (x : ref) : ST pd.DataFrame :=
  λ σ, (σ, Ok (default {| pd.columns := []; pd.rows := [] |} (σ !! x))).
Definition put (x : ref) (df : pd.DataFrame) : ST unit :=
  λ σ, (<[x := df]> σ, Ok ()).

Definition getitem (x : ref) (c : string) : ST (list value) :=
  df ← get x; lift (pd.getitem df c).

(** [x[c] = xs] changes the object in place. *)
Definition setitem (x : ref) (c : string) (xs : list f64) : ST unit :=
  df ← get x; put x (pd.setitem df c xs).

(** [x.sort_values(by)] and [x.copy()] return new objects. *)
Definition sort_values `{Argsort} (x : ref) (by_ : string) : ST ref :=
  df ← get x; s ← lift (pd.sort_values df by_); new s.
Definition copy (x : ref) : ST ref := df ← get x; new (pd.copy df).

Fixpoint for_each {A B} (k : A → ST B) (l : list A) : ST (list B) :=
  match l with
  | [] => ret []
  | a :: l' => b ← k a; bs ← for_each k l'; ret (b :: bs)
  end.

(** [groupby(...).apply(f)] hands [f] a new frame for every group and
    returns a new frame. *)
Definition groupby_apply (df : ref) (by_ : string) (f : ref → ST ref) : ST ref :=
  d ← get df;
  k ← lift (pd.getitem d by_);
  keys ← lift (traverse pd.to_str k);
  values ← for_each (λ g, x ← new g; y ← f x; get y)
                     (pd.group_frames d keys);
  new (pd.python_apply_general d keys values).

Section features.
Context `{Argsort}.

Definition _by_ticker (window : nat) (x : ref) : ST ref :=
  s ← sort_values x "date";
  x ← copy s;
  close ← getitem x "Close";
  close ← lift (pd.as_float close);
  _ ← setitem x "ret_log_1d" (log_returns close);
  high ← getitem x "High";
  low ← getitem x "Low";
  high ← lift (pd.as_float high);
  low ← lift (pd.as_float low);
  _ ← setitem x "vol_pk" (parkinson_vol high low window);
  open_ ← getitem x "Open";
  high ← getitem x "High";
  low ← getitem x "Low";
  close ← getitem x "Close";
  open_ ← lift (pd.as_float open_);
  high ← lift (pd.as_float high);
  low ← lift (pd.as_float low);
  close ← lift (pd.as_float close);
  _ ← setitem x "vol_gk" (garman_klass_vol open_ high low close window);
  ret x.

Definition add_range_vol_features (df : ref) (window : nat) : ST ref :=
  out ← groupby_apply df "Ticker" (_by_ticker window);
  ret out.
End features.
End obj.

(** * The ingestion step: [ingest.py]

    The functions of [src/mercator_data/ingest.py] that prepare the inputs of
    [add_range_vol_features], each from the point where its download or its
    file is read: what [pd.read_html], [pd.read_csv] and the reshaping of the
    [yfinance] answer return is the argument of the embedding. *)

(** ** Python strings

    The methods of [str] and [re] the ingestion step calls.  A string is the
    sequence of its characters; the embedding covers text of the ASCII range,
    as ticker symbols are, where the whitespace characters are 9 to 13 and 28
    to 32 and [upper] changes the letters a to z. *)

Module py.
Import Stdlib.Strings.Ascii.

Definition isspace (c : ascii) : bool :=
  let n := nat_of_ascii c in
  (9 <=? n) && (n <=? 13) || (28 <=? n) && (n <=? 32).

Fixpoint lstrip (s : string) : string :=
  match s with
  | EmptyString => EmptyString
  | String c s' => if isspace c then lstrip s' else s
  end.

Fixpoint rstrip (s : string) : string :=
  match s with
  | EmptyString => EmptyString
  | String c s' =>
      match rstrip s' with
      | EmptyString => if isspace c then EmptyString else String c EmptyString
      | t => String c t
      end
  end.

(** [s.strip()] *)
Definition strip (s : string) : string := rstrip (lstrip s).

Definition upper_char (c : ascii) : ascii :=
  let n := nat_of_ascii c in
  if (97 <=? n) && (n <=? 122) then ascii_of_nat (n - 32) else c.

(** [s.upper()] *)
Fixpoint upper (s : string) : string :=
  match s with
  | EmptyString => EmptyString
  | String c s' => String (upper_char c) (upper s')
  end.

(** [re.sub(r"\.", "-", s)]: every dot becomes a dash. *)
Fixpoint sub_dot (s : string) : string :=
  match s with
  | EmptyString => EmptyString
  | String c s' => String (if decide (c = "."%char) then "-"%char else c) (sub_dot s')
  end.

(** [list(dict.fromkeys(l))]: the first occurrence of every element. *)
Definition fromkeys (l : list string) : list string := unique l.
End py.

(** ** More of pandas *)

(** How Python writes a number and a timestamp; the text of a string is the
    string, and a missing cell of a column of text is NaN, written "nan". *)
Class Repr : Type := {
  float_str : f64 → string;
  time_str : Z → string;
}.

Module pandas.
(** [xs.astype(str)] *)
Definition astype_str `{Repr} (xs : list value) : list string :=
  (λ v, match v with
        | VStr s => s
        | VNone => "nan"
        | VNum x => float_str x
        | VTime t => time_str t
        end) <$> xs.

(** [xs.str.replace(r"\.", "-", regex=True)] and [xs.str.strip()] *)
Definition str_replace_dot (xs : list string) : list string := py.sub_dot <$> xs.
Definition str_strip (xs : list string) : list string := py.strip <$> xs.

(** [df[cols]] for a list [cols] of labels that [df] has. *)
Definition getitem_list (df : pd.DataFrame) (cols : list string) : pd.DataFrame :=
  {| pd.columns := cols;
     pd.rows := (λ r, {| pd.label := pd.label r;
                         pd.cells := filter (λ kv, kv.1 ∈ cols) (pd.cells r) |})
                <$> pd.rows df |}.

(** The order of the keys of a sort: ascending, a missing key after every
    other ([na_position="last"]). *)
Definition na_last {K} (le : K → K → bool) (a b : option K) : bool :=
  match a, b with
  | Some x, Some y => le x y
  | _, None => true
  | None, Some _ => false
  end.

(** The order of a sort by a column of strings, then by a column of dates. *)
Definition key_le (a b : option string * option Z) : bool :=
  if decide (a.1 = b.1) then na_last Z.leb a.2 b.2 else na_last String.leb a.1 b.1.

(** pandas' [lexsort_indexer]: the positions in the order of a stable sort
    by the keys ([np.lexsort]). *)
Fixpoint insert_stable {K} (le : K → K → bool) (x : K * nat) (l : list (K * nat))
  : list (K * nat) :=
  match l with
  | [] => [x]
  | y :: l' => if le x.1 y.1 then x :: y :: l' else y :: insert_stable le x l'
  end.

Definition lexsort_indexer (keys : list (option string * option Z)) : list nat :=
  (foldr (insert_stable key_le) [] (zip keys (seq 0 (length keys)))).*2.

(** [df.sort_values([by1, by2])] for a column [by1] of strings and a column
    [by2] of dates. *)
Definition sort_values_by (df : pd.DataFrame) (by1 by2 : string)
  : result pd.DataFrame :=
  k1 ← pd.getitem df by1;
  k2 ← pd.getitem df by2;
  k1 ← traverse pd.to_str k1;
  k2 ← traverse pd.to_time k2;
  Ok (pd.take (lexsort_indexer (zip k1 k2)) df).

(** [df.reset_index(drop=True)] *)
Definition reset_index (df : pd.DataFrame) : pd.DataFrame :=
  {| pd.columns := pd.columns df;
     pd.rows := imap (λ i r, {| pd.label := i; pd.cells := pd.cells r |})
                     (pd.rows df) |}.
End pandas.

(** ** The source: [ingest.py] *)

(** What a function of the ingestion step does: it returns, or it raises an
    exception of the frame operations or an [IndexError]. *)
Inductive exception : Type :=
  | Raised (e : error)
  | IndexError.

Inductive outcome (A : Type) : Type :=
  | Return (a : A)
  | Raise (e : exception).
Arguments Return {A} a.
Arguments Raise {A} e.

Section ingest.
Context `{Repr}.

(** [tables] is what [pd.read_html(SLICKCHARTS_URL)] returned. *)
Definition get_nasdaq100_tickers_from_slickcharts (tables : list pd.DataFrame)
  : outcome (list string) :=
  match tables with
  | [] => Raise IndexError
  | df :: _ =>
      match pd.getitem df "Symbol" with
      | Err e => Raise (Raised e)
      | Ok symbol =>
          let tickers :=
            pandas.str_strip (pandas.str_replace_dot (pandas.astype_str symbol)) in
          let tickers :=
            filter (λ t, t ≠ "" ∧ py.upper t ≠ "N/A") (py.fromkeys tickers) in
          Return tickers
      end
  end.

End ingest.

(** The columns [download_ohlcv] keeps, in their order. *)
Definition keep : list string :=
  ["date"; "Ticker"; "Open"; "High"; "Low"; "Close"; "Adj Close"; "Volume"].

(** The end of [download_ohlcv], from the choice of the columns on: [df] is
    the frame of renamed columns and converted dates that the function has
    built from the answer of [yfinance]. *)
Definition download_ohlcv (df : pd.DataFrame) : result pd.DataFrame :=
  let cols := filter (λ c, c ∈ pd.columns df) keep in
  df ← pandas.sort_values_by (pandas.getitem_list df cols) "Ticker" "date";
  Ok (pandas.reset_index df).

(** * The vocabulary of the properties *)

(** ** Series *)

(** The per-day terms of the specification. *)
Definition parkinson_term (h l : R) : R := (1 / (4 * ln 2) * ln (h / l) ^ 2)%R.

Definition garman_klass_term (o h l c : R) : R :=
  (0.5 * ln (h / l) ^ 2 - (2 * ln 2 - 1) * ln (c / o) ^ 2)%R.

Definition garman_klass_terms (open_ high low close : list R) : list R :=
  zip_with (λ oh lc, garman_klass_term oh.1 oh.2 lc.1 lc.2)
           (zip open_ high) (zip low close).

Definition positive (xs : list R) : Prop := Forall (λ x, 0 < x)%R xs.

(** ** Tables *)

(** The date of a row as [sort_values] reads it, its instrument, and a price
    as the estimators read it. *)
Definition date_key (r : pd.Row) : option Z :=
  match pd.cell "date" r with VTime t => Some t | _ => None end.

Definition ticker (r : pd.Row) : option string :=
  match pd.cell "Ticker" r with VStr s => Some s | _ => None end.

Definition price (c : string) (r : pd.Row) : f64 :=
  match pd.cell c r with VNum x => x | _ => NaN end.

(** The columns the program reads, in the order it first reads them, and
    the columns it writes. *)
Definition required : list string := ["Ticker"; "date"; "Close"; "High"; "Low"; "Open"].

Definition derived : list string := ["ret_log_1d"; "vol_pk"; "vol_gk"].

(** The rows of the data model: a date or nothing in [date], a string or
    nothing in [Ticker], numbers or nothing in the four price columns. *)
Definition typed_row (r : pd.Row) : Prop :=
  pd.to_time (pd.cell "date" r) = Ok (date_key r) ∧
  pd.to_str (pd.cell "Ticker" r) = Ok (ticker r) ∧
  ∀ c, c ∈ ["Open"; "High"; "Low"; "Close"] →
       pd.to_f64 (pd.cell c r) = Ok (price c r).

Definition well_typed (df : pd.DataFrame) : Prop := Forall typed_row (pd.rows df).

(** A decidable check of [typed_row]. *)
Definition typed_rowb (r : pd.Row) : bool :=
  match pd.cell "date" r with VTime _ | VNone => true | _ => false end &&
  match pd.cell "Ticker" r with VStr _ | VNone => true | _ => false end &&
  forallb (λ c, match pd.cell c r with VNum _ | VNone => true | _ => false end)
          ["Open"; "High"; "Low"; "Close"].

(** Ascending order on optional keys, a missing key after every other. *)
Definition date_le (a b : option Z) : Prop :=
  match a, b with
  | Some x, Some y => (x ≤ y)%Z
  | _, None => True
  | None, Some _ => False
  end.

(** The same order, strict on the dates that are present. *)
Definition date_lt (a b : option Z) : Prop :=
  match a, b with
  | Some x, Some y => (x < y)%Z
  | _, None => True
  | None, Some _ => False
  end.

(** The part of [typed_row] that [_by_ticker] reads. *)
Definition typed_prices (r : pd.Row) : Prop :=
  pd.to_time (pd.cell "date" r) = Ok (date_key r) ∧
  ∀ c, c ∈ ["Open"; "High"; "Low"; "Close"] →
       pd.to_f64 (pd.cell c r) = Ok (price c r).

(** Two row sequences that agree on labels and on all cells outside the
    columns [D]. *)
Definition same_upto (D : list string) (rs rs' : list pd.Row) : Prop :=
  Forall2 (λ r r', pd.label r' = pd.label r ∧
                   ∀ c, c ∉ D → pd.cells r' !! c = pd.cells r !! c) rs rs'.

(** The rows of one instrument, the rows that have an instrument, the
    instruments in the order [groupby] visits them, and the frame [apply]
    hands to the function for an instrument. *)
Definition partition (t : string) (rs : list pd.Row) : list pd.Row :=
  filter (λ r, ticker r = Some t) rs.

Definition with_ticker (rs : list pd.Row) : list pd.Row :=
  filter (λ r, ticker r ≠ None) rs.

Definition group_keys (df : pd.DataFrame) : list string :=
  merge_sort String.le (unique (omap ticker (pd.rows df))).

Definition group (df : pd.DataFrame) (t : string) : pd.DataFrame :=
  {| pd.columns := pd.columns df; pd.rows := partition t (pd.rows df) |}.

(** What [_by_ticker] returns when it returns, and what
    [add_range_vol_features] returns when it returns. *)
Section result.
Context `{Argsort}.

Definition sorted_by_date (x : pd.DataFrame) : pd.DataFrame :=
  pd.take (pd.nargsort (date_key <$> pd.rows x)) x.

Definition by_ticker_result (window : nat) (x : pd.DataFrame) : pd.DataFrame :=
  let s := sorted_by_date x in
  let col c := price c <$> pd.rows s in
  pd.setitem
    (pd.setitem
       (pd.setitem s "ret_log_1d" (log_returns (col "Close")))
       "vol_pk" (parkinson_vol (col "High") (col "Low") window))
    "vol_gk" (garman_klass_vol (col "Open") (col "High") (col "Low")
                               (col "Close") window).

Definition results (window : nat) (df : pd.DataFrame) : list pd.DataFrame :=
  (λ t, by_ticker_result window (group df t)) <$> group_keys df.

Definition mutated (window : nat) (df : pd.DataFrame) : bool :=
  bool_decide (pd.index <$> results window df ≠
               pd.index <$> (group df <$> group_keys df)).

Definition features_result (window : nat) (df : pd.DataFrame) : pd.DataFrame :=
  pd.wrap_applied_output df (pd.label <$> with_ticker (pd.rows df))
                         (results window df) (mutated window df).
End result.

(** The first column [_by_ticker] reads and does not find. *)
Definition first_missing (df : pd.DataFrame) : option string :=
  List.find (λ c, bool_decide (c ∉ pd.columns df))
            ["date"; "Close"; "High"; "Low"; "Open"].

(** A run on objects agrees with a run on values: the same exception, or a
    reference to the value. *)
Definition agree (σ : obj.store) (res : result obj.ref) (val : result pd.DataFrame)
  : Prop :=
  match res, val with
  | Ok r, Ok y => σ !! r = Some y
  | Err e, Err e' => e = e'
  | _, _ => False
  end.

(** ** Example tables *)

Definition bar (l : nat) (d : value) (t : value) (o h lo c : value) : pd.Row :=
  {| pd.label := l;
     pd.cells := list_to_map [("date", d); ("Ticker", t); ("Open", o);
                              ("High", h); ("Low", lo); ("Close", c)] |}.

Definition ohlc : list string := ["date"; "Ticker"; "Open"; "High"; "Low"; "Close"].

Definition flat (l : nat) (d : Z) (t : string) : pd.Row :=
  bar l (VTime d) (VStr t) (VNum (Fin 100)) (VNum (Fin 100)) (VNum (Fin 100))
      (VNum (Fin 100)).

(** Two bars of one instrument on the same date. *)
Definition tied : pd.DataFrame :=
  {| pd.columns := ohlc; pd.rows := [flat 0 1 "AAA"; flat 1 1 "AAA"] |}.

(** Two instruments, the later one in the alphabet first, one bar each. *)
Definition two_instruments : pd.DataFrame :=
  {| pd.columns := ohlc; pd.rows := [flat 0 1 "BBB"; flat 1 1 "AAA"] |}.

(** Two instruments, the bars of "BBB" out of date order. *)
Definition unsorted : pd.DataFrame :=
  {| pd.columns := ohlc;
     pd.rows := [flat 0 2 "BBB"; flat 1 1 "AAA"; flat 2 1 "BBB"] |}.

(** A bar whose instrument is missing. *)
Definition anonymous : pd.DataFrame :=
  {| pd.columns := ohlc;
     pd.rows := [bar 0 (VTime 1) VNone (VNum (Fin 100)) (VNum (Fin 100))
                     (VNum (Fin 100)) (VNum (Fin 100))] |}.


(** A table that comes with a column named [ret_log_1d]. *)
Definition rerun : pd.DataFrame :=
  {| pd.columns := ohlc ++ ["ret_log_1d"];
     pd.rows := [{| pd.label := 0;
                    pd.cells := <["ret_log_1d" := VNum (Fin 7)]>
                                  (pd.cells (flat 0 1 "AAA")) |}] |}.

(** ** The ingestion step *)

(** The characters of a string, and the dot. *)
Fixpoint chars (s : string) : list Stdlib.Strings.Ascii.ascii :=
  match s with
  | EmptyString => []
  | String c s' => c :: chars s'
  end.

Definition dot : Stdlib.Strings.Ascii.ascii := Stdlib.Strings.Ascii.ascii_of_nat 46.

(** What [get_nasdaq100_tickers_from_slickcharts] keeps of a cleaned symbol. *)
Definition kept (t : string) : Prop := t ≠ "" ∧ py.upper t ≠ "N/A".

(** The key [download_ohlcv] sorts a row by. *)
Definition sort_key (r : pd.Row) : option string * option Z := (ticker r, date_key r).

(** A frame with one column of symbols, and a way of writing numbers and
    dates, to instantiate the properties on. *)
Definition symbols_table (col : string) (symbols : list value) : pd.DataFrame :=
  {| pd.columns := [col];
     pd.rows := imap (λ i v, {| pd.label := i; pd.cells := {[col := v]} |}) symbols |}.

Definition plain : Repr := {| float_str := λ _, "0.0"; time_str := λ _, "1970-01-01" |}.

(** What [download_ohlcv] makes of the table [unsorted]. *)
Definition ingested : pd.DataFrame :=
  {| pd.columns := ohlc;
     pd.rows := [flat 0 1 "AAA"; flat 1 1 "BBB"; flat 2 2 "BBB"] |}.

(** * Properties *)

(** ** Two sorting algorithms that meet the contract *)

Section insertion_sort.
Variable cmp : Z → Z → bool.
Hypothesis cmp_le : ∀ x y, if cmp x y then (x ≤ y)%Z else (y ≤ x)%Z.

Lemma insert_by_perm x l : insert_by cmp x l ≡ₚ x :: l.
Proof.
  induction l as [|y l IH]; simpl; [done|].
  destruct (cmp x.1 y.1); [done|].
  rewrite IH. apply perm_swap.
Qed.

Lemma isort_by_perm l : isort_by cmp l ≡ₚ l.
Proof.
  induction l as [|x l IH]; simpl; [done|].
  by rewrite insert_by_perm, IH.
Qed.

Lemma insert_by_sorted x l :
  Sorted Z.le l.*1 → Sorted Z.le (insert_by cmp x l).*1.
Proof.
  induction l as [|y l IH]; simpl; intros Hs.
  - repeat constructor.
  - pose proof (cmp_le x.1 y.1) as Hc.
    destruct (cmp x.1 y.1); simpl.
    + constructor; [done|]. by constructor.
    + apply Sorted_inv in Hs as [Hs Hhd].
      constructor; [by apply IH|].
      destruct l as [|z l]; simpl in *.
      * by constructor.
      * destruct (cmp x.1 z.1); simpl; constructor; [done|].
        by apply HdRel_inv in Hhd.
Qed.

Lemma isort_by_sorted l : Sorted Z.le (isort_by cmp l).*1.
Proof.
  induction l as [|x l IH]; simpl; [constructor|].
  by apply insert_by_sorted.
Qed.

Lemma argsort_by_perm l : argsort_by cmp l ≡ₚ seq 0 (length l).
Proof.
  unfold argsort_by. rewrite isort_by_perm.
  rewrite snd_zip; [done|]. by rewrite length_seq.
Qed.

Lemma lookup_keys_of_pairs (l : list Z) (ps : list (Z * nat)) :
  Forall (λ p, l !! p.2 = Some p.1) ps → omap (l !!.) ps.*2 = ps.*1.
Proof.
  induction 1 as [|p ps Hp _ IH]; csimpl; [done|].
  by rewrite Hp, IH.
Qed.

Lemma zip_seq_lookup (l : list Z) :
  Forall (λ p, l !! p.2 = Some p.1) (zip l (seq 0 (length l))).
Proof.
  apply Forall_forall. intros [k i] Hin.
  apply list_elem_of_lookup in Hin as [j Hj].
  apply lookup_zip_with_Some in Hj as (k' & i' & [= <- <-] & Hk & Hi).
  apply lookup_seq in Hi as [-> _]. done.
Qed.

Lemma argsort_by_sorted l : Sorted Z.le (omap (l !!.) (argsort_by cmp l)).
Proof.
  unfold argsort_by. rewrite lookup_keys_of_pairs.
  - apply isort_by_sorted.
  - rewrite isort_by_perm. apply zip_seq_lookup.
Qed.

Definition argsort_by_Argsort : Argsort :=
  {| argsort := argsort_by cmp;
     argsort_perm := argsort_by_perm;
     argsort_sorted := argsort_by_sorted |}.
End insertion_sort.

(** A stable algorithm (kind="stable") ... *)
Definition stable_sort : Argsort.
Proof.
  refine (argsort_by_Argsort Z.leb _).
  intros x y. destruct (Z.leb_spec x y); lia.
Defined.

(** ... and one that is not, and still sorts. *)
Definition unstable_sort : Argsort.
Proof.
  refine (argsort_by_Argsort Z.ltb _).
  intros x y. destruct (Z.ltb_spec x y); lia.
Defined.

(** ** Arithmetic on finite values *)

Lemma ln2_pos : (0 < ln 2)%R.
Proof. pose proof ln_lt_2. lra. Qed.

Lemma log_Fin x : (0 < x)%R → np.log (Fin x) = Fin (ln x).
Proof. intros Hx. unfold np.log. by destruct (Rlt_dec 0 x). Qed.

Lemma div_Fin x y : y ≠ 0%R → F.div (Fin x) (Fin y) = Fin (x / y).
Proof. intros Hy. unfold F.div. by destruct (Req_dec_T y 0). Qed.

Lemma pow_half_Fin x : (0 <= x)%R → F.pow_half (Fin x) = Fin (sqrt x).
Proof. intros Hx. unfold F.pow_half. destruct (Rlt_dec x 0); [lra|done]. Qed.

Lemma clip_lower_Fin lo x : F.clip_lower lo (Fin x) = Fin (Rmax x lo).
Proof.
  unfold F.clip_lower, Rmax.
  destruct (Rle_dec lo x), (Rle_dec x lo); try done; f_equal; lra.
Qed.

Lemma parkinson_coef :
  F.div (Fin 1) (F.mul (Fin 4) (np.log (Fin 2))) = Fin (1 / (4 * ln 2)).
Proof.
  rewrite log_Fin by lra. simpl. apply div_Fin. pose proof ln2_pos. lra.
Qed.

Lemma garman_klass_coef :
  F.sub (F.mul (Fin 2) (np.log (Fin 2))) (Fin 1) = Fin (2 * ln 2 - 1).
Proof. by rewrite log_Fin by lra. Qed.

Lemma Rsum_nonneg l : Forall (λ x, 0 <= x)%R l → (0 <= Rsum l)%R.
Proof. induction 1; simpl; lra. Qed.

(** ** Series *)

Lemma align_length op xs ys :
  length (Series.align op xs ys) = length xs `max` length ys.
Proof.
  revert ys. induction xs as [|x xs IH]; intros ys; simpl.
  - by rewrite length_fmap.
  - destruct ys; simpl; rewrite IH; simpl; lia.
Qed.

Lemma omap_finite_Fin (xs : list R) : omap finite_val (Fin <$> xs) = xs.
Proof. induction xs; csimpl; [done|]. by f_equal. Qed.

Lemma window_fmap {A B} (f : A → B) w i (xs : list A) :
  Series.window w i (f <$> xs) = f <$> Series.window w i xs.
Proof. unfold Series.window. by rewrite fmap_take, fmap_drop. Qed.

Lemma window_length {A} w i (xs : list A) :
  i < length xs → length (Series.window w i xs) = w `min` (i + 1).
Proof. intros. unfold Series.window. rewrite length_take, length_drop. lia. Qed.

Lemma window_full {A} w i (xs : list A) :
  w ≤ i + 1 → Series.window w i xs = take w (drop (i + 1 - w) xs).
Proof. intros. unfold Series.window. f_equal. lia. Qed.

Lemma rolling_sum_length w xs : length (Series.rolling_sum w xs) = length xs.
Proof. unfold Series.rolling_sum. by rewrite length_fmap, length_seq. Qed.

Lemma rolling_sum_lookup w xs i :
  i < length xs →
  Series.rolling_sum w xs !! i =
    Some (let obs := omap finite_val (Series.window w i xs) in
          if decide (w ≤ length obs) then Fin (Rsum obs) else NaN).
Proof.
  intros Hi. unfold Series.rolling_sum.
  rewrite list_lookup_fmap, lookup_seq_lt by done. done.
Qed.

(** On finite data the rolling sum is the sum of the last [w] terms once
    [w] terms exist, and NaN before. *)
Lemma rolling_sum_Fin w (ts : list R) i :
  i < length ts →
  Series.rolling_sum w (Fin <$> ts) !! i =
    Some (if decide (w ≤ i + 1) then Fin (Rsum (take w (drop (i + 1 - w) ts)))
          else NaN).
Proof.
  intros Hi. rewrite rolling_sum_lookup by by rewrite length_fmap.
  cbv zeta. rewrite window_fmap, omap_finite_Fin, window_length by done.
  destruct (decide (w ≤ i + 1)) as [Hw|Hw].
  - rewrite decide_True by lia. by rewrite window_full.
  - rewrite decide_False by lia. done.
Qed.

(** The observations of a window are at most [w]; a value that is not
    finite leaves fewer. *)
Lemma omap_finite_length xs : length (omap finite_val xs) ≤ length xs.
Proof. induction xs as [|[] xs IH]; csimpl; lia. Qed.

Lemma omap_finite_short xs :
  Exists (λ x, finite_val x = None) xs → length (omap finite_val xs) < length xs.
Proof.
  induction 1 as [x xs Hx|x xs _ IH]; csimpl.
  - rewrite Hx. pose proof (omap_finite_length xs). lia.
  - destruct (finite_val x); simpl; lia.
Qed.

Lemma rolling_sum_not_finite w xs i j x :
  0 < w → i < length xs → xs !! j = Some x → finite_val x = None →
  j ≤ i < j + w → Series.rolling_sum w xs !! i = Some NaN.
Proof.
  intros Hw Hi Hj Hx Hij. rewrite rolling_sum_lookup by done. cbv zeta.
  rewrite decide_False; [done|].
  pose proof (window_length w i xs Hi) as Hlen.
  assert (Exists (λ x, finite_val x = None) (Series.window w i xs)) as Hex.
  { apply Exists_exists. exists x. split; [|done].
    apply list_elem_of_lookup. exists (j - (i + 1 - w)).
    unfold Series.window. rewrite lookup_take_lt by lia.
    rewrite lookup_drop. rewrite <- Hj. f_equal. lia. }
  apply omap_finite_short in Hex. lia.
Qed.

Lemma rolling_sum_early w xs i :
  i < length xs → i + 1 < w → Series.rolling_sum w xs !! i = Some NaN.
Proof.
  intros Hi Hw. rewrite rolling_sum_lookup by done. cbv zeta.
  rewrite decide_False; [done|].
  pose proof (omap_finite_length (Series.window w i xs)).
  rewrite window_length in * by done. lia.
Qed.


Lemma align_lookup op xs ys i x y :
  xs !! i = Some x → ys !! i = Some y →
  Series.align op xs ys !! i = Some (op x y).
Proof.
  revert ys i. induction xs as [|x' xs IH]; intros [|y' ys] [|i] ??;
    simplify_eq/=; eauto.
Qed.

(** ** The three estimators on positive prices *)

Lemma positive_lookup xs i x : positive xs → xs !! i = Some x → (0 < x)%R.
Proof. intros Hxs Hi. by eapply (Forall_lookup_1 _ xs i x) in Hxs. Qed.

Lemma log_ratio_Fin a b :
  (0 < a)%R → (0 < b)%R → np.log (F.div (Fin a) (Fin b)) = Fin (ln (a / b)).
Proof.
  intros Ha Hb. rewrite div_Fin by lra. apply log_Fin.
  by apply Rdiv_lt_0_compat.
Qed.

Lemma parkinson_terms_Fin (high low : list R) :
  length high = length low → positive high → positive low →
  Series.rmul (Fin (1 / (4 * ln 2)))
    (Series.sqr (Series.apply np.log (Series.div (Fin <$> high) (Fin <$> low))))
  = Fin <$> zip_with parkinson_term high low.
Proof.
  intros Hlen Hh Hl.
  apply (list_eq_same_length _ _ (length high)).
  - by rewrite length_fmap, length_zip_with, <- Hlen, Nat.min_id.
  - unfold Series.rmul, Series.sqr, Series.apply, Series.div.
    rewrite !length_fmap, align_length, !length_fmap. lia.
  - intros i x y Hi Hx Hy.
    destruct (lookup_lt_is_Some_2 high i) as [h Hhi]; [done|].
    destruct (lookup_lt_is_Some_2 low i) as [l Hli]; [lia|].
    unfold Series.rmul, Series.sqr, Series.apply, Series.div in Hx.
    rewrite !list_lookup_fmap in Hx.
    erewrite align_lookup in Hx by (rewrite list_lookup_fmap; by erewrite ?Hhi, ?Hli).
    rewrite list_lookup_fmap, lookup_zip_with, Hhi, Hli in Hy.
    cbn [fmap option_fmap option_map] in Hx.
    rewrite log_ratio_Fin in Hx by eauto using positive_lookup.
    by simplify_eq/=.
Qed.



Lemma garman_klass_terms_Fin (open_ high low close : list R) :
  length high = length open_ → length low = length open_ →
  length close = length open_ →
  positive open_ → positive high → positive low → positive close →
  Series.sub
    (Series.rmul (Fin 0.5)
       (Series.sqr (Series.apply np.log (Series.div (Fin <$> high) (Fin <$> low)))))
    (Series.rmul (Fin (2 * ln 2 - 1))
       (Series.sqr (Series.apply np.log (Series.div (Fin <$> close) (Fin <$> open_)))))
  = Fin <$> garman_klass_terms open_ high low close.
Proof.
  intros Hh Hl Hc Po Ph Pl Pc.
  apply (list_eq_same_length _ _ (length open_)).
  - unfold garman_klass_terms. rewrite length_fmap, !length_zip_with. lia.
  - unfold Series.sub, Series.rmul, Series.sqr, Series.apply, Series.div.
    rewrite !align_length, !length_fmap, !align_length, !length_fmap. lia.
  - intros i x y Hi Hx Hy.
    destruct (lookup_lt_is_Some_2 open_ i) as [o Hoi]; [done|].
    destruct (lookup_lt_is_Some_2 high i) as [h Hhi]; [lia|].
    destruct (lookup_lt_is_Some_2 low i) as [l Hli]; [lia|].
    destruct (lookup_lt_is_Some_2 close i) as [c Hci]; [lia|].
    unfold Series.sub, Series.rmul, Series.sqr, Series.apply, Series.div in Hx.
    erewrite align_lookup in Hx; cycle 1.
    { rewrite !list_lookup_fmap. erewrite align_lookup;
        [done|by rewrite list_lookup_fmap, ?Hhi|by rewrite list_lookup_fmap, ?Hli]. }
    { rewrite !list_lookup_fmap. erewrite align_lookup;
        [done|by rewrite list_lookup_fmap, ?Hci|by rewrite list_lookup_fmap, ?Hoi]. }
    unfold garman_klass_terms in Hy.
    rewrite list_lookup_fmap, lookup_zip_with, !lookup_zip_with in Hy.
    rewrite Hoi, Hhi, Hli, Hci in Hy.
    rewrite !log_ratio_Fin in Hx by eauto using positive_lookup.
    by simplify_eq/=.
Qed.





(** ** Log returns *)

Lemma diff_length xs : length (Series.diff xs) = length xs.
Proof.
  destruct xs as [|x xs]; simpl; [done|].
  rewrite length_zip_with. simpl. lia.
Qed.

Lemma diff_lookup_0 xs : xs ≠ [] → Series.diff xs !! 0 = Some NaN.
Proof. by destruct xs. Qed.

Lemma diff_lookup_S xs i a b :
  xs !! i = Some a → xs !! S i = Some b →
  Series.diff xs !! S i = Some (F.sub b a).
Proof.
  destruct xs as [|x xs]; [done|]. simpl. intros Ha Hb.
  rewrite lookup_zip_with. by rewrite Hb, Ha.
Qed.

Lemma log_returns_length close : length (log_returns close) = length close.
Proof. unfold log_returns, Series.apply. by rewrite diff_length, length_fmap. Qed.

Lemma log_returns_0 close : close ≠ [] → log_returns close !! 0 = Some NaN.
Proof.
  intros. apply diff_lookup_0. unfold Series.apply. by destruct close.
Qed.

Lemma log_returns_S close i a b :
  close !! i = Some a → close !! S i = Some b →
  log_returns close !! S i = Some (F.sub (np.log b) (np.log a)).
Proof.
  intros Ha Hb. apply diff_lookup_S; unfold Series.apply;
    rewrite list_lookup_fmap; by rewrite ?Ha, ?Hb.
Qed.

(** C3.  On positive closing prices [log_returns] has the length of its
    input, element 0 is NaN and element [i >= 1] is
    [ln close[i] - ln close[i-1]]; on a constant series every element from 1
    on is 0; on a series of length 0 or 1 every element is NaN. *)
Theorem log_returns_spec (close : list R) :
  positive close →
  let out := log_returns (Fin <$> close) in
  length out = length close ∧
  (close ≠ [] → out !! 0 = Some NaN) ∧
  (∀ i a b, close !! i = Some a → close !! S i = Some b →
     out !! S i = Some (Fin (ln b - ln a))) ∧
  (∀ c, Forall (λ x, x = c) close →
     ∀ i, 1 ≤ i < length close → out !! i = Some (Fin 0)) ∧
  (length close ≤ 1 → Forall (λ v, v = NaN) out).
Proof.
  intros Hpos out.
  assert (∀ i a b, close !! i = Some a → close !! S i = Some b →
            out !! S i = Some (Fin (ln b - ln a))) as Hstep.
  { intros i a b Ha Hb. unfold out.
    erewrite log_returns_S by (rewrite list_lookup_fmap; by erewrite ?Ha, ?Hb).
    rewrite !log_Fin by eauto using positive_lookup. done. }
  assert (close ≠ [] → out !! 0 = Some NaN) as Hzero.
  { intros. apply log_returns_0. by destruct close. }
  split_and!; [|done|done| |].
  - unfold out. by rewrite log_returns_length, length_fmap.
  - intros c Hc [|i] [? Hi]; [lia|].
    destruct (lookup_lt_is_Some_2 close i) as [a Ha]; [lia|].
    destruct (lookup_lt_is_Some_2 close (S i)) as [b Hb]; [lia|].
    rewrite (Hstep i a b) by done.
    assert (a = c) as -> by by eapply (Forall_lookup_1 (λ x, x = c) close i).
    assert (b = c) as -> by by eapply (Forall_lookup_1 (λ x, x = c) close (S i)).
    do 2 f_equal. lra.
  - intros Hlen. destruct close as [|c [|c' close]]; simpl in *; [| |lia].
    + constructor.
    + repeat constructor.
Qed.

Lemma log_returns_spec_witness :
  log_returns (Fin <$> [100; 110]%R) !! 1 = Some (Fin (ln 110 - ln 100)).
Proof.
  assert (positive [100; 110]%R) as Hpos by (repeat constructor; lra).
  exact (proj1 (proj2 (proj2 (log_returns_spec [100; 110]%R Hpos)))
           0 100%R 110%R eq_refl eq_refl).
Defined.

(** ** The error monad *)

Lemma traverse_Ok {A B} (k : A → result B) l bs :
  traverse k l = Ok bs ↔ Forall2 (λ a b, k a = Ok b) l bs.
Proof.
  revert bs. induction l as [|a l IH]; intros bs; simpl.
  - split.
    + intros [= <-]. constructor.
    + by inversion 1.
  - unfold mbind, result_bind. destruct (k a) as [b|e] eqn:Ha.
    + destruct (traverse k l) as [bs'|e] eqn:Hl.
      * split.
        -- intros [= <-]. constructor; [done|]. by apply IH.
        -- inversion 1 as [|???? Hb Hbs]; simplify_eq.
           apply IH in Hbs. congruence.
      * split; [done|]. inversion 1 as [|???? Hb Hbs]; simplify_eq.
        apply IH in Hbs. congruence.
    + split; [done|]. inversion 1; congruence.
Qed.

Lemma traverse_fmap_Ok {A B C} (k : B → result C) (g : A → B) (h : A → C) l :
  Forall (λ a, k (g a) = Ok (h a)) l → traverse k (g <$> l) = Ok (h <$> l).
Proof.
  induction 1 as [|a l Ha _ IH]; csimpl; [done|].
  unfold mbind, result_bind. by rewrite Ha, IH.
Qed.

(** ** Frames: columns and cells *)

Lemma getitem_Ok df c vs :
  pd.getitem df c = Ok vs ↔ c ∈ pd.columns df ∧ vs = pd.cell c <$> pd.rows df.
Proof. unfold pd.getitem. case_decide; naive_solver. Qed.

Lemma setitem_columns df c xs c' :
  c' ∈ pd.columns (pd.setitem df c xs) ↔ (c' ∈ pd.columns df ∨ c' = c).
Proof.
  simpl. case_decide; [naive_solver|].
  rewrite elem_of_app, list_elem_of_singleton. done.
Qed.

Lemma setitem_length df c xs :
  length (pd.rows (pd.setitem df c xs)) = length (pd.rows df).
Proof. simpl. apply length_imap. Qed.

Lemma setitem_cell_ne df c xs c' :
  c ≠ c' → pd.cell c' <$> pd.rows (pd.setitem df c xs) = pd.cell c' <$> pd.rows df.
Proof.
  intros Hne. simpl. rewrite fmap_imap.
  rewrite (imap_ext _ (λ _, pd.cell c')); [apply imap_const|].
  intros i r _. unfold pd.cell. simpl. by rewrite lookup_insert_ne.
Qed.

Lemma getitem_setitem_ne df c xs c' :
  c ≠ c' → pd.getitem (pd.setitem df c xs) c' = pd.getitem df c'.
Proof.
  intros Hne. unfold pd.getitem.
  rewrite setitem_cell_ne by done.
  destruct (decide (c' ∈ pd.columns df)) as [Hin|Hin].
  - rewrite decide_True; [done|]. apply setitem_columns. by left.
  - rewrite decide_False; [done|]. rewrite setitem_columns. naive_solver.
Qed.

Lemma same_upto_trans D rs1 rs2 rs3 :
  same_upto D rs1 rs2 → same_upto D rs2 rs3 → same_upto D rs1 rs3.
Proof.
  unfold same_upto. intros H12. revert rs3.
  induction H12 as [|r1 r2 rs1 rs2 [Hl Hc] _ IH]; intros rs3 H23;
    inversion H23 as [|?? ?? [Hl' Hc'] H23']; simplify_eq; constructor.
  - split; [congruence|]. intros c Hc0. by rewrite Hc', Hc.
  - by apply IH.
Qed.

Lemma setitem_same_upto D df c xs :
  c ∈ D → same_upto D (pd.rows df) (pd.rows (pd.setitem df c xs)).
Proof.
  intros Hc. apply Forall2_same_length_lookup. split.
  - by rewrite setitem_length.
  - intros i r r' Hr Hr'. simpl in Hr'.
    rewrite list_lookup_imap, Hr in Hr'. simplify_eq/=. split; [done|].
    intros c' Hc'. apply lookup_insert_ne. by intros ->.
Qed.

Lemma same_upto_labels D rs rs' :
  same_upto D rs rs' → pd.label <$> rs' = pd.label <$> rs.
Proof. induction 1 as [|???? [? _]]; csimpl; congruence. Qed.

Lemma same_upto_cell D rs rs' c :
  c ∉ D → same_upto D rs rs' → pd.cell c <$> rs' = pd.cell c <$> rs.
Proof.
  intros Hc. induction 1 as [|r r' ?? [_ Hcells]]; csimpl; [done|].
  unfold pd.cell at 1 3. rewrite Hcells by done. congruence.
Qed.

(** ** [nargsort]: a sorting permutation with the missing keys last *)

Lemma omap_lookup_seq {A} (l : list A) : omap (l !!.) (seq 0 (length l)) = l.
Proof.
  induction l as [|x l IH] using rev_ind; [done|].
  rewrite length_app, seq_app, omap_app. simpl.
  rewrite lookup_app_r, Nat.sub_diag by done. simpl. f_equal.
  rewrite <- IH at 2. apply list_omap_ext, Forall_Forall2_diag, Forall_forall.
  intros i Hi%elem_of_seq. apply lookup_app_l. lia.
Qed.

Lemma omap_lookup_perm {A} (l : list A) (idx : list nat) :
  idx ≡ₚ seq 0 (length l) → omap (l !!.) idx ≡ₚ l.
Proof. intros ->. by rewrite omap_lookup_seq. Qed.

Lemma filter_ext_Forall {A} (P1 P2 : A → Prop)
    `{!∀ x, Decision (P1 x), !∀ x, Decision (P2 x)} (l : list A) :
  Forall (λ x, P1 x ↔ P2 x) l → filter P1 l = filter P2 l.
Proof.
  induction 1 as [|x l Hx _ IH]; [done|].
  rewrite !filter_cons, IH. apply decide_ext. done.
Qed.

Section positions.
Context (P : option Z → Prop) `{∀ k, Decision (P k)}.

Lemma positions_snoc keys k :
  pd.positions P (keys ++ [k]) =
    pd.positions P keys ++ (if decide (P k) then [length keys] else []).
Proof.
  unfold pd.positions. rewrite length_app, seq_app, filter_app. f_equal.
  - apply filter_ext_Forall, Forall_forall. intros i Hi%elem_of_seq.
    rewrite lookup_app_l by lia. done.
  - simpl. rewrite filter_cons, filter_nil.
    rewrite lookup_app_r, Nat.sub_diag by done. done.
Qed.

Lemma positions_lookup keys :
  Forall (λ i, ∃ k, keys !! i = Some k ∧ P k) (pd.positions P keys).
Proof.
  apply Forall_forall. intros i [HP Hi%elem_of_seq]%list_elem_of_filter.
  destruct (lookup_lt_is_Some_2 keys i) as [k Hk]; [lia|].
  rewrite Hk in HP. eauto.
Qed.
End positions.

Lemma present_snoc keys k :
  pd.present (keys ++ [k]) = pd.present keys ++ from_option (λ z, [z]) [] k.
Proof. unfold pd.present. rewrite omap_app. by destruct k. Qed.

Lemma positions_present keys :
  Forall2 (λ i z, keys !! i = Some (Some z))
          (pd.positions (λ k, k ≠ None) keys) (pd.present keys).
Proof.
  induction keys as [|k keys IH] using rev_ind; [constructor|].
  rewrite positions_snoc, present_snoc. apply Forall2_app.
  - eapply Forall2_impl; [done|]. intros i z Hi. by apply lookup_app_l_Some.
  - destruct k as [z|]; simpl.
    + repeat constructor. by rewrite lookup_app_r, Nat.sub_diag.
    + constructor.
Qed.

Section nargsort.
Context `{Argsort}.

Lemma nargsort_perm keys : pd.nargsort keys ≡ₚ seq 0 (length keys).
Proof.
  unfold pd.nargsort. cbv zeta.
  rewrite omap_lookup_perm.
  - rewrite Permutation_app_comm. apply filter_app_complement.
  - rewrite argsort_perm. f_equiv. f_equal. symmetry.
    eapply Forall2_length, positions_present.
Qed.

Lemma nargsort_keys keys :
  omap (keys !!.) (pd.nargsort keys) =
    (Some <$> omap (pd.present keys !!.) (argsort (pd.present keys)))
    ++ replicate (length (pd.positions (λ k, k = None) keys)) None.
Proof.
  unfold pd.nargsort. cbv zeta. rewrite omap_app. f_equal.
  - generalize (argsort (pd.present keys)). intros idx.
    induction idx as [|j idx IH]; csimpl; [done|].
    destruct (pd.positions (λ k, k ≠ None) keys !! j) as [i|] eqn:Hj; csimpl.
    + destruct (Forall2_lookup_l _ _ _ _ _ (positions_present keys) Hj)
        as (z & Hz & Hi).
      rewrite Hi, Hz. csimpl. by f_equal.
    + apply lookup_ge_None in Hj.
      rewrite (Forall2_length _ _ _ (positions_present keys)) in Hj.
      by rewrite (lookup_ge_None_2 (pd.present keys)) by done.
  - pose proof (positions_lookup (λ k, k = None) keys) as HF.
    induction HF as [|i idx (k & Hi & ->) _ IH]; csimpl; [done|].
    rewrite Hi. by f_equal.
Qed.


End nargsort.

(** ** One instrument: [_by_ticker] *)

Section by_ticker.
Context `{Argsort}.

Lemma to_time_Ok v k : pd.to_time v = Ok k →
  k = match v with VTime t => Some t | _ => None end.
Proof. destruct v; naive_solver. Qed.

Lemma to_str_Ok v k : pd.to_str v = Ok k →
  k = match v with VStr s => Some s | _ => None end.
Proof. destruct v; naive_solver. Qed.

Lemma to_f64_Ok v x : pd.to_f64 v = Ok x →
  x = match v with VNum x => x | _ => NaN end.
Proof. destruct v; naive_solver. Qed.

Lemma traverse_fmap_inv {A B C} (k : B → result C) (g : A → B) (h : A → C) l cs :
  (∀ a c, k (g a) = Ok c → c = h a) →
  traverse k (g <$> l) = Ok cs → cs = h <$> l.
Proof.
  intros Hk. revert cs. induction l as [|a l IH]; intros cs; csimpl.
  - by intros [= <-].
  - unfold mbind, result_bind.
    destruct (k (g a)) as [c|] eqn:Ha; [|done].
    destruct (traverse k (g <$> l)) as [cs'|] eqn:Hl; [|done].
    intros [= <-]. f_equal; eauto.
Qed.

Lemma date_keys_Ok rs keys :
  traverse pd.to_time (pd.cell "date" <$> rs) = Ok keys → keys = date_key <$> rs.
Proof. apply traverse_fmap_inv. intros r k. apply to_time_Ok. Qed.

Lemma tickers_Ok rs keys :
  traverse pd.to_str (pd.cell "Ticker" <$> rs) = Ok keys → keys = ticker <$> rs.
Proof. apply traverse_fmap_inv. intros r k. apply to_str_Ok. Qed.

Lemma prices_Ok c rs xs :
  pd.as_float (pd.cell c <$> rs) = Ok xs → xs = price c <$> rs.
Proof. apply traverse_fmap_inv. intros r k. apply to_f64_Ok. Qed.

Lemma sort_values_Ok x s :
  pd.sort_values x "date" = Ok s → s = sorted_by_date x.
Proof.
  unfold pd.sort_values, mbind, result_bind.
  destruct (pd.getitem x "date") as [k|] eqn:Hk; [|done].
  apply getitem_Ok in Hk as [_ ->].
  destruct (traverse _ _) as [keys|] eqn:Hkeys; [|done].
  apply date_keys_Ok in Hkeys as ->. by intros [= <-].
Qed.

Ltac step H :=
  match type of H with
  | (match ?m with Ok _ => _ | Err _ => _ end) = Ok _ =>
      let E := fresh "E" in destruct m eqn:E; [|discriminate H]
  end.

Lemma by_ticker_Ok window x y :
  _by_ticker window x = Ok y → y = by_ticker_result window x.
Proof.
  unfold _by_ticker, mbind, result_bind, fmap, result_fmap. intros Hy.
  destruct (pd.sort_values x "date") as [s|] eqn:Hs; [|done].
  apply sort_values_Ok in Hs as ->. unfold pd.copy in Hy.
  repeat first [rewrite getitem_setitem_ne in Hy by done | step Hy].
  repeat match goal with
         | E : pd.getitem _ _ = Ok _ |- _ => apply getitem_Ok in E as [_ ->]
         | E : Ok _ = Ok ?a |- _ => is_var a; injection E as <-
         | E : pd.as_float _ = Ok _ |- _ => apply prices_Ok in E as ->
         end.
  done.
Qed.
End by_ticker.

Section by_ticker_typed.
Context `{Argsort}.

Lemma take_rows_subseteq idx x : pd.rows (pd.take idx x) ⊆ pd.rows x.
Proof.
  intros r (i & _ & Hi)%list_elem_of_omap. by eapply list_elem_of_lookup_2.
Qed.

Lemma sorted_by_date_typed x : well_typed x → well_typed (sorted_by_date x).
Proof.
  unfold well_typed. rewrite !Forall_forall. intros Hx r Hr.
  by apply Hx, (take_rows_subseteq _ _ _ Hr).
Qed.

Lemma sort_values_typed x :
  well_typed x →
  pd.sort_values x "date" =
    if decide ("date" ∈ pd.columns x) then Ok (sorted_by_date x)
    else Err (KeyError "date").
Proof.
  intros Hx. unfold pd.sort_values, pd.getitem.
  case_decide; [|done]. cbn [mbind result_bind].
  rewrite (traverse_fmap_Ok _ _ date_key); [done|].
  eapply Forall_impl; [done|]. by intros r [? _].
Qed.

Lemma as_float_typed c rs :
  Forall typed_row rs → c ∈ ["Open"; "High"; "Low"; "Close"] →
  pd.as_float (pd.cell c <$> rs) = Ok (price c <$> rs).
Proof.
  intros Hrs Hc. apply traverse_fmap_Ok.
  eapply Forall_impl; [done|]. intros r (_ & _ & Hr). by apply Hr.
Qed.

Local Ltac run :=
  cbn [fmap result_fmap mbind result_bind pd.copy List.find].
Lemma getitem_sorted x c :
  pd.getitem (sorted_by_date x) c =
    if decide (c ∈ pd.columns x) then Ok (pd.cell c <$> pd.rows (sorted_by_date x))
    else Err (KeyError c).
Proof. done. Qed.

Local Ltac column x c :=
  rewrite (getitem_sorted x c);
  destruct (decide (c ∈ pd.columns x)) as [?|?]; run;
  [rewrite (bool_decide_eq_false_2 (c ∉ _)) by naive_solver; run
  |by rewrite bool_decide_eq_true_2].

(** On well-typed rows [_by_ticker] fails exactly when a column it reads
    is missing, with the [KeyError] of the first one it reads. *)
Lemma by_ticker_run window x :
  well_typed x →
  _by_ticker window x =
    match List.find (λ c, bool_decide (c ∉ pd.columns x))
                    ["date"; "Close"; "High"; "Low"; "Open"] with
    | Some c => Err (KeyError c)
    | None => Ok (by_ticker_result window x)
    end.
Proof.
  intros Hx. pose proof (sorted_by_date_typed x Hx) as Hs.
  unfold _by_ticker, pd.copy. rewrite sort_values_typed by done.
  destruct (decide ("date" ∈ pd.columns x)) as [Hd|Hd]; run;
    [|by rewrite bool_decide_eq_true_2].
  rewrite (bool_decide_eq_false_2 ("date" ∉ _)) by naive_solver. run.
  column x "Close".
  rewrite as_float_typed by (done || set_solver). run.
  rewrite !getitem_setitem_ne by done.
  column x "High". column x "Low".
  rewrite !as_float_typed by (done || set_solver). run.
  rewrite !getitem_setitem_ne by done.
  column x "Open".
  rewrite !getitem_sorted, !decide_True by done. run.
  by rewrite !as_float_typed by (done || set_solver).
Qed.
End by_ticker_typed.

(** ** Partitions by instrument *)

Lemma elem_of_unique `{EqDecision A} (l : list A) x : x ∈ unique l ↔ x ∈ l.
Proof.
  induction l as [|y l IH]; simpl; [done|].
  rewrite !elem_of_cons, list_elem_of_filter, IH.
  destruct (decide (x = y)); naive_solver.
Qed.

Lemma NoDup_unique `{EqDecision A} (l : list A) : NoDup (unique l).
Proof.
  induction l as [|y l IH]; simpl; constructor.
  - rewrite list_elem_of_filter. naive_solver.
  - by apply NoDup_filter.
Qed.

Lemma zip_with_ticker rs :
  (filter (λ p, p.1 ≠ None) (zip (ticker <$> rs) rs)).*2 = with_ticker rs.
Proof.
  unfold with_ticker. induction rs as [|r rs IH]; [done|]. csimpl.
  rewrite !filter_cons. simpl. case_decide; csimpl; by rewrite IH.
Qed.

Lemma zip_partition g rs :
  (filter (λ p, p.1 = Some g) (zip (ticker <$> rs) rs)).*2 = partition g rs.
Proof.
  unfold partition. induction rs as [|r rs IH]; [done|]. csimpl.
  rewrite !filter_cons. simpl. case_decide; csimpl; by rewrite IH.
Qed.

Lemma group_keys_elem df t :
  t ∈ group_keys df ↔ ∃ r, r ∈ pd.rows df ∧ ticker r = Some t.
Proof.
  unfold group_keys. rewrite merge_sort_Permutation, elem_of_unique.
  apply list_elem_of_omap.
Qed.

Lemma group_keys_NoDup df : NoDup (group_keys df).
Proof. unfold group_keys. rewrite merge_sort_Permutation. apply NoDup_unique. Qed.

Lemma group_keys_sorted df : StronglySorted String.le (group_keys df).
Proof. apply StronglySorted_merge_sort; apply _. Qed.

Lemma groupby_apply_ticker df f :
  pd.groupby_apply df "Ticker" f =
    if decide ("Ticker" ∈ pd.columns df) then
      _ ← traverse pd.to_str (pd.cell "Ticker" <$> pd.rows df);
      values ← traverse f (group df <$> group_keys df);
      Ok (pd.wrap_applied_output df (pd.label <$> with_ticker (pd.rows df)) values
            (bool_decide (pd.index <$> values ≠ pd.index <$> (group df <$> group_keys df))))
    else Err (KeyError "Ticker").
Proof.
  unfold pd.groupby_apply, pd.python_apply_general, pd.group_frames, pd.getitem.
  case_decide; [|done].
  cbn [mbind result_bind].
  destruct (traverse pd.to_str _) as [keys|] eqn:Hkeys; [|done].
  apply tickers_Ok in Hkeys as ->. cbn [mbind result_bind].
  assert (omap (λ k, k) (ticker <$> pd.rows df) = omap ticker (pd.rows df)) as ->.
  { induction (pd.rows df) as [|r rs IH]; csimpl; [done|]. by rewrite IH. }
  rewrite zip_with_ticker.
  fold (group_keys df).
  set (g' := λ g, {| pd.columns := pd.columns df; pd.rows := _ |}).
  rewrite (list_fmap_ext g' (group df) (group_keys df)); [done|].
  intros _ g _. unfold g', group. by rewrite zip_partition.
Qed.

(** ** The result of [add_range_vol_features] *)

Section features_result.
Context `{Argsort}.

Lemma traverse_by_ticker_Ok window (gs vs : list pd.DataFrame) :
  traverse (_by_ticker window) gs = Ok vs → vs = by_ticker_result window <$> gs.
Proof.
  intros HF%traverse_Ok. induction HF as [|g v gs vs Hv _ IH]; csimpl; [done|].
  apply by_ticker_Ok in Hv. by subst.
Qed.

Lemma features_Ok df window out :
  add_range_vol_features df window = Ok out →
  "Ticker" ∈ pd.columns df ∧ out = features_result window df.
Proof.
  unfold add_range_vol_features. rewrite groupby_apply_ticker.
  case_decide; [|done]. unfold mbind, result_bind.
  destruct (traverse pd.to_str _); [|done].
  destruct (traverse (_by_ticker window) _) as [vs|] eqn:Hvs; [|done].
  apply traverse_by_ticker_Ok in Hvs as ->. intros [= <-]. split; [done|].
  unfold features_result, mutated, results. by rewrite <- !list_fmap_compose.
Qed.

Lemma group_typed df t : well_typed df → well_typed (group df t).
Proof.
  unfold well_typed. rewrite !Forall_forall. intros Hdf r.
  intros [_ Hr]%list_elem_of_filter. by apply Hdf.
Qed.

Lemma traverse_by_ticker_typed window df ts :
  well_typed df →
  traverse (_by_ticker window) (group df <$> ts) =
    match ts, first_missing df with
    | _ :: _, Some c => Err (KeyError c)
    | _, _ => Ok ((λ t, by_ticker_result window (group df t)) <$> ts)
    end.
Proof.
  intros Hdf. induction ts as [|t ts IH]; [done|]. csimpl.
  rewrite by_ticker_run by by apply group_typed.
  fold (first_missing (group df t)).
  change (first_missing (group df t)) with (first_missing df).
  destruct (first_missing df) as [c|]; [done|].
  cbn [mbind result_bind]. rewrite IH. by destruct ts.
Qed.

(** On a well-typed table the call fails exactly when Ticker is missing,
    or when there is a group and a column [_by_ticker] reads is missing. *)
Lemma features_run df window :
  well_typed df →
  add_range_vol_features df window =
    if decide ("Ticker" ∈ pd.columns df) then
      match group_keys df, first_missing df with
      | _ :: _, Some c => Err (KeyError c)
      | _, _ => Ok (features_result window df)
      end
    else Err (KeyError "Ticker").
Proof.
  intros Hdf. unfold add_range_vol_features. rewrite groupby_apply_ticker.
  case_decide; [|done].
  rewrite (traverse_fmap_Ok _ _ ticker); cycle 1.
  { eapply Forall_impl; [done|]. by intros r (_ & ? & _). }
  cbn [mbind result_bind]. rewrite traverse_by_ticker_typed by done.
  destruct (group_keys df) as [|t ts] eqn:Hts.
  - unfold features_result, mutated, results. by rewrite Hts.
  - destruct (first_missing df); [done|].
    cbn [mbind result_bind]. unfold features_result, mutated, results.
    by rewrite Hts.
Qed.

(** With all the required columns the call returns. *)
Lemma features_total df window :
  well_typed df → required ⊆ pd.columns df →
  add_range_vol_features df window = Ok (features_result window df).
Proof.
  intros Hty Hreq. rewrite features_run by done.
  rewrite decide_True by (apply Hreq; set_solver).
  assert (first_missing df = None) as ->; [|by destruct (group_keys df)].
  unfold first_missing. cbn [List.find].
  rewrite !bool_decide_eq_false_2; [done|..];
    intros Hc; apply Hc, Hreq; set_solver.
Qed.
End features_result.

(** ** What [_by_ticker] does to the rows of a group *)

Section by_ticker_rows.
Context `{Argsort}.

Lemma sorted_by_date_perm x : pd.rows (sorted_by_date x) ≡ₚ pd.rows x.
Proof.
  unfold sorted_by_date, pd.take. simpl. apply omap_lookup_perm.
  by rewrite nargsort_perm, length_fmap.
Qed.


Lemma by_ticker_result_rows window x :
  same_upto derived (pd.rows (sorted_by_date x))
                    (pd.rows (by_ticker_result window x)).
Proof.
  unfold by_ticker_result. cbv zeta.
  eapply same_upto_trans; [|apply setitem_same_upto; set_solver].
  eapply same_upto_trans; [|apply setitem_same_upto; set_solver].
  apply setitem_same_upto. set_solver.
Qed.

Lemma by_ticker_result_index window x :
  pd.index (by_ticker_result window x) = pd.index (sorted_by_date x).
Proof. apply (same_upto_labels derived), by_ticker_result_rows. Qed.

Lemma by_ticker_result_index_perm window x :
  pd.index (by_ticker_result window x) ≡ₚ pd.index x.
Proof.
  rewrite by_ticker_result_index. unfold pd.index.
  by rewrite sorted_by_date_perm.
Qed.

Lemma same_upto_date_key rs rs' :
  same_upto derived rs rs' → date_key <$> rs' = date_key <$> rs.
Proof.
  intros Hs. unfold date_key.
  rewrite !(list_fmap_compose (pd.cell "date")
              (λ v, match v with VTime t => Some t | _ => None end)).
  f_equal. eapply same_upto_cell; [|done]. set_solver.
Qed.


(** Every row of the result comes from a row of the group: same label, same
    cells outside the derived columns. *)
Lemma by_ticker_result_origin window x r' :
  r' ∈ pd.rows (by_ticker_result window x) →
  ∃ r, r ∈ pd.rows x ∧ pd.label r' = pd.label r ∧
       ∀ c, c ∉ derived → pd.cells r' !! c = pd.cells r !! c.
Proof.
  intros (i & Hi)%list_elem_of_lookup.
  destruct (Forall2_lookup_r _ _ _ _ _ (by_ticker_result_rows window x) Hi)
    as (r & Hr & Hl & Hc).
  exists r. split; [|done].
  rewrite <- sorted_by_date_perm. by eapply list_elem_of_lookup_2.
Qed.

Lemma origin_ticker r r' :
  (∀ c, c ∉ derived → pd.cells r' !! c = pd.cells r !! c) → ticker r' = ticker r.
Proof. intros Hc. unfold ticker, pd.cell. rewrite Hc; [done|set_solver]. Qed.

Lemma by_ticker_result_ticker window df t r' :
  r' ∈ pd.rows (by_ticker_result window (group df t)) → ticker r' = Some t.
Proof.
  intros (r & Hr & _ & Hc)%by_ticker_result_origin.
  rewrite (origin_ticker r r') by done.
  by apply list_elem_of_filter in Hr as [? _].
Qed.
End by_ticker_rows.

(** ** Grouping preserves the rows *)

Lemma bind_nil_const {A B} (ks : list A) : ks ≫= (λ _, @nil B) = [].
Proof. induction ks; [done|]. by rewrite bind_cons. Qed.

Lemma bind_ext_in {A B} (f g : A → list B) (ks : list A) :
  (∀ k, k ∈ ks → f k = g k) → ks ≫= f = ks ≫= g.
Proof.
  intros Hfg. by apply Forall_bind_ext, Forall_forall.
Qed.

(** The groups of a list by an optional key: every element with a key is in
    exactly one group. *)
Lemma bind_filter_perm {A K} `{EqDecision K} (key : A → option K)
    (ks : list K) (rs : list A) :
  NoDup ks → (∀ r k, r ∈ rs → key r = Some k → k ∈ ks) →
  ks ≫= (λ k, filter (λ r, key r = Some k) rs) ≡ₚ filter (λ r, key r ≠ None) rs.
Proof.
  intros Hks. induction rs as [|r rs IH]; intros Hcover.
  { rewrite (bind_ext_in _ (λ _, [])) by done. by rewrite bind_nil_const. }
  assert (ks ≫= (λ k, filter (λ r, key r = Some k) rs)
          ≡ₚ filter (λ r, key r ≠ None) rs) as IH'.
  { apply IH. intros r' k Hr'. apply Hcover. by right. }
  destruct (key r) as [k0|] eqn:Hr.
  - rewrite (filter_cons_True (λ r, key r ≠ None)) by by rewrite Hr.
    rewrite <- IH'.
    destruct (list_elem_of_split ks k0) as (ks1 & ks2 & ->).
    { eapply Hcover; [by left|done]. }
    apply NoDup_app in Hks as (_ & Hk1 & [Hk2 _]%NoDup_cons).
    rewrite !bind_app, !bind_cons.
    rewrite (filter_cons_True (λ r, key r = Some k0)) by done.
    rewrite (bind_ext_in _ (λ k, filter (λ r, key r = Some k) rs) ks1); cycle 1.
    { intros k Hk. apply filter_cons_False. rewrite Hr. intros [= ->].
      by eapply Hk1; [|left]. }
    rewrite (bind_ext_in _ (λ k, filter (λ r, key r = Some k) rs) ks2); cycle 1.
    { intros k Hk. apply filter_cons_False. rewrite Hr. by intros [= ->]. }
    rewrite <- app_comm_cons. symmetry. apply Permutation_middle.
  - rewrite (filter_cons_False (λ r, key r ≠ None)) by (rewrite Hr; naive_solver).
    rewrite <- IH'. apply reflexive_eq. apply bind_ext_in.
    intros k _. apply filter_cons_False. by rewrite Hr.
Qed.

Lemma partition_cover df :
  group_keys df ≫= (λ t, partition t (pd.rows df)) ≡ₚ with_ticker (pd.rows df).
Proof.
  apply (bind_filter_perm ticker); [apply group_keys_NoDup|].
  intros r t Hr Ht. apply group_keys_elem. eauto.
Qed.

Lemma filter_label_perm (ls : list nat) (rs : list pd.Row) :
  NoDup ls → (∀ r, r ∈ rs → pd.label r ∈ ls) →
  ls ≫= (λ l, filter (λ r, pd.label r = l) rs) ≡ₚ rs.
Proof.
  intros Hls Hin.
  rewrite (bind_ext_in _ (λ l, filter (λ r, Some (pd.label r) = Some l) rs)); cycle 1.
  { intros l _. apply list_filter_iff. naive_solver. }
  rewrite (bind_filter_perm (λ r, Some (pd.label r))); [| done |naive_solver].
  apply reflexive_eq. induction rs as [|r rs IH]; [done|].
  rewrite filter_cons_True by done. f_equal. apply IH. intros r' ?. apply Hin. by right.
Qed.

(** ** Putting the groups back together *)

Lemma fmap_bind_list {A B C} (f : B → C) (g : A → list B) (l : list A) :
  f <$> (l ≫= g) = l ≫= (λ a, f <$> g a).
Proof.
  induction l as [|a l IH]; [done|]. by rewrite !bind_cons, fmap_app, IH.
Qed.

Lemma bind_perm_ext {A B} (f g : A → list B) (l : list A) :
  (∀ a, a ∈ l → f a ≡ₚ g a) → l ≫= f ≡ₚ l ≫= g.
Proof.
  induction l as [|a l IH]; intros Hfg; [done|].
  rewrite !bind_cons. f_equiv; [apply Hfg; by left|].
  apply IH. intros a' ?. apply Hfg. by right.
Qed.

Lemma find_label_self (rs : list pd.Row) r :
  NoDup (pd.label <$> rs) → r ∈ rs →
  List.find (λ r', bool_decide (pd.label r' = pd.label r)) rs = Some r.
Proof.
  induction rs as [|r0 rs IH]; csimpl; [by intros _ ?%elem_of_nil|].
  intros [Hr0 Hnd]%NoDup_cons [->|Hr]%elem_of_cons.
  - by rewrite bool_decide_eq_true_2.
  - rewrite bool_decide_eq_false_2; [by apply IH|].
    intros Heq. apply Hr0. rewrite Heq. by apply list_elem_of_fmap_2.
Qed.

Lemma find_label_Some (rs : list pd.Row) l r :
  List.find (λ r', bool_decide (pd.label r' = l)) rs = Some r →
  r ∈ rs ∧ pd.label r = l.
Proof.
  intros [Hin Hl]%find_some. split; [by apply list_elem_of_In|].
  by apply bool_decide_eq_true in Hl.
Qed.

Lemma reindex_index d ax : pd.index (pd.reindex d ax) = ax.
Proof.
  unfold pd.reindex. case_decide; [done|]. unfold pd.index. simpl.
  rewrite <- list_fmap_compose. rewrite <- (list_fmap_id ax) at 2.
  apply list_fmap_ext. intros _ l _. simpl.
  destruct (List.find _ _) as [r|] eqn:Hr; [|done].
  by apply find_label_Some in Hr as [_ ?].
Qed.

Lemma reindex_rows d ax :
  NoDup ax → pd.index d ≡ₚ ax →
  pd.rows (pd.reindex d ax) =
    (λ l, default {| pd.label := l; pd.cells := ∅ |}
            (List.find (λ r, bool_decide (pd.label r = l)) (pd.rows d))) <$> ax
  ∧ pd.rows (pd.reindex d ax) ≡ₚ pd.rows d.
Proof.
  intros Hax Hperm.
  assert (NoDup (pd.label <$> pd.rows d)) as Hnd by by rewrite Hperm.
  assert (∀ ls, ls ⊆ pd.rows d →
            (λ l, default {| pd.label := l; pd.cells := ∅ |}
               (List.find (λ r, bool_decide (pd.label r = l)) (pd.rows d)))
            <$> (pd.label <$> ls) = ls) as Hself.
  { intros ls. induction ls as [|r ls IH]; intros Hsub; [done|]. csimpl.
    rewrite find_label_self by (done || apply Hsub; by left). simpl. f_equal.
    apply IH. intros r' ?. apply Hsub. by right. }
  pose proof (Hself (pd.rows d) (reflexivity _)) as Hrows.
  unfold pd.reindex. case_decide as Hidx; simpl.
  - split; [|done]. unfold pd.index in Hidx. by rewrite <- Hidx, Hrows.
  - split; [done|]. etrans; [|apply reflexive_eq, Hrows].
    apply fmap_Permutation. by symmetry.
Qed.

Section output.
Context `{Argsort} (window : nat) (df : pd.DataFrame).

Lemma results_rows :
  pd.rows (pd.concat (results window df)) =
    group_keys df ≫= (λ t, pd.rows (by_ticker_result window (group df t))).
Proof. unfold pd.concat, results. simpl. by rewrite list_fmap_bind. Qed.

Lemma results_index_perm :
  pd.index (pd.concat (results window df)) ≡ₚ pd.label <$> with_ticker (pd.rows df).
Proof.
  unfold pd.index at 1. rewrite results_rows, fmap_bind_list.
  rewrite <- partition_cover, fmap_bind_list.
  apply bind_perm_ext. intros t _.
  apply (by_ticker_result_index_perm window (group df t)).
Qed.

Lemma no_groups : group_keys df = [] → with_ticker (pd.rows df) = [].
Proof.
  intros Hks. apply Permutation_nil_r.
  by rewrite <- partition_cover, Hks.
Qed.

(** In every case the rows of the output are the rows the groups gave,
    in some order. *)
Lemma features_result_rows_perm :
  pd.rows (features_result window df) ≡ₚ pd.rows (pd.concat (results window df)).
Proof.
  unfold features_result, pd.wrap_applied_output.
  destruct (results window df) as [|v vs] eqn:HV; [done|]. rewrite <- HV.
  destruct (mutated window df); [done|].
  pose proof results_index_perm as Hperm.
  case_bool_decide as Hdup; simpl.
  - apply filter_label_perm; [apply NoDup_unique|].
    intros r Hr. apply elem_of_unique. rewrite <- Hperm.
    by apply list_elem_of_fmap_2.
  - destruct (decide (pd.index (pd.concat (results window df)) =
                      pd.label <$> with_ticker (pd.rows df))) as [Heq|Hne].
    + unfold pd.reindex. by rewrite decide_True.
    + apply reindex_rows; [|done].
      destruct (decide (NoDup (pd.label <$> with_ticker (pd.rows df)))); naive_solver.
Qed.

Lemma features_result_length :
  length (pd.rows (features_result window df)) = length (with_ticker (pd.rows df)).
Proof.
  rewrite features_result_rows_perm.
  rewrite <- (length_fmap pd.label (with_ticker _)), <- results_index_perm.
  unfold pd.index. by rewrite length_fmap.
Qed.

(** Every output row is an input row with its derived cells set. *)
Lemma features_result_origin r' :
  r' ∈ pd.rows (features_result window df) →
  ∃ r, r ∈ pd.rows df ∧ pd.label r' = pd.label r ∧ ticker r' = ticker r ∧
       ticker r ≠ None ∧
       ∀ c, c ∉ derived → pd.cells r' !! c = pd.cells r !! c.
Proof.
  rewrite features_result_rows_perm, results_rows.
  intros (t & Hr' & Ht)%list_elem_of_bind.
  apply by_ticker_result_origin in Hr' as (r & Hr & Hl & Hc).
  apply list_elem_of_filter in Hr as [Hrt Hr].
  exists r. split_and!; try done.
  - by apply origin_ticker.
  - by rewrite Hrt.
Qed.
End output.

(** ** The partitions of the output *)

Lemma filter_bind {A B} (P : B → Prop) `{∀ b, Decision (P b)} (f : A → list B)
    (l : list A) :
  filter P (l ≫= f) = l ≫= (λ a, filter P (f a)).
Proof.
  induction l as [|a l IH]; [done|]. by rewrite !bind_cons, filter_app, IH.
Qed.

Lemma bind_select {A B} `{EqDecision A} (g : A → list B) (t : A) (ks : list A) :
  NoDup ks →
  ks ≫= (λ k, if decide (k = t) then g k else []) =
    if decide (t ∈ ks) then g t else [].
Proof.
  induction 1 as [|k ks Hk _ IH]; [done|]. rewrite bind_cons, IH.
  destruct (decide (k = t)) as [->|Hne].
  - rewrite (decide_True (P := t ∈ t :: ks)) by by left.
    rewrite (decide_False (P := t ∈ ks)) by done.
    by rewrite app_nil_r.
  - simpl. apply decide_ext. rewrite elem_of_cons. naive_solver.
Qed.

Lemma filter_all {A} (P : A → Prop) `{∀ a, Decision (P a)} (l : list A) :
  (∀ a, a ∈ l → P a) → filter P l = l.
Proof.
  induction l as [|a l IH]; intros HP; [done|].
  rewrite filter_cons_True by (apply HP; by left). f_equal.
  apply IH. intros a' ?. apply HP. by right.
Qed.

Lemma filter_none {A} (P : A → Prop) `{∀ a, Decision (P a)} (l : list A) :
  (∀ a, a ∈ l → ¬ P a) → filter P l = [].
Proof.
  induction l as [|a l IH]; intros HP; [done|].
  rewrite filter_cons_False by (apply HP; by left).
  apply IH. intros a' ?. apply HP. by right.
Qed.

Lemma label_inj (rs : list pd.Row) r1 r2 :
  NoDup (pd.label <$> rs) → r1 ∈ rs → r2 ∈ rs → pd.label r1 = pd.label r2 → r1 = r2.
Proof.
  intros Hnd (i & Hi)%list_elem_of_lookup (j & Hj)%list_elem_of_lookup Hl.
  assert (i = j) as ->; [|congruence].
  eapply (NoDup_lookup _ i j (pd.label r1) Hnd); rewrite list_lookup_fmap.
  - by rewrite Hi.
  - by rewrite Hj, Hl.
Qed.

Lemma eq_of_labels (rs A B : list pd.Row) :
  NoDup (pd.label <$> rs) → A ⊆ rs → B ⊆ rs →
  pd.label <$> A = pd.label <$> B → A = B.
Proof.
  intros Hnd. revert B. induction A as [|a A IH]; intros [|b B] HA HB Heq;
    simplify_eq/=; [done|].
  f_equal.
  - eapply label_inj; [done|apply HA; by left|apply HB; by left|done].
  - apply IH; [|intros x ?; apply HB; by right|done].
    intros x ?. apply HA. by right.
Qed.

Lemma partition_labels t (A B : list pd.Row) :
  Forall2 (λ a b, pd.label b = pd.label a ∧ ticker b = ticker a) A B →
  pd.label <$> partition t B = pd.label <$> partition t A.
Proof.
  unfold partition. induction 1 as [|a b A B [Hl Ht] _ IH]; [done|].
  rewrite !filter_cons, Ht. case_decide; csimpl; by rewrite ?Hl, IH.
Qed.

Lemma partition_with_ticker t rs : partition t (with_ticker rs) = partition t rs.
Proof.
  unfold partition, with_ticker. rewrite list_filter_filter.
  apply list_filter_iff. intros r. split; [naive_solver|].
  intros Hr. split; [done|]. by rewrite Hr.
Qed.

Lemma fmap_eq_inv {A B} (f g : A → B) (l : list A) x :
  f <$> l = g <$> l → x ∈ l → f x = g x.
Proof.
  intros Heq (i & Hi)%list_elem_of_lookup.
  apply (f_equal (.!! i)) in Heq. rewrite !list_lookup_fmap, Hi in Heq.
  by simplify_eq/=.
Qed.

Lemma fmap_ne_inv {A B} `{EqDecision B} (f g : A → B) (l : list A) :
  f <$> l ≠ g <$> l → ∃ x, x ∈ l ∧ f x ≠ g x.
Proof.
  induction l as [|a l IH]; csimpl; [done|]. intros Hne.
  destruct (decide (f a = g a)) as [Heq|?]; [|exists a; split; [by left|done]].
  destruct IH as (x & ? & ?); [congruence|]. exists x. split; [by right|done].
Qed.

Section output_partitions.
Context `{Argsort} (window : nat) (df : pd.DataFrame).

Lemma concat_partition t :
  partition t (pd.rows (pd.concat (results window df))) =
    if decide (t ∈ group_keys df)
    then pd.rows (by_ticker_result window (group df t)) else [].
Proof.
  rewrite results_rows. unfold partition at 1. rewrite filter_bind.
  rewrite <- (bind_select (λ t, pd.rows (by_ticker_result window (group df t))))
    by apply group_keys_NoDup.
  apply bind_ext_in. intros k _. case_decide as Hk.
  - subst k. apply filter_all. intros r. apply by_ticker_result_ticker.
  - apply filter_none. intros r Hr%by_ticker_result_ticker. congruence.
Qed.

Lemma mutated_rows :
  mutated window df = true →
  pd.rows (features_result window df) = pd.rows (pd.concat (results window df)).
Proof.
  intros Hm. unfold features_result, pd.wrap_applied_output. rewrite Hm.
  by destruct (results window df).
Qed.

Lemma not_mutated_group t :
  mutated window df = false → t ∈ group_keys df →
  pd.index (by_ticker_result window (group df t)) = pd.index (group df t).
Proof.
  unfold mutated, results. intros Hm%bool_decide_eq_false Ht.
  apply dec_stable in Hm. rewrite <- !list_fmap_compose in Hm.
  by apply (fmap_eq_inv _ _ _ t) in Hm.
Qed.

Lemma with_ticker_NoDup :
  NoDup (pd.index df) → NoDup (pd.label <$> with_ticker (pd.rows df)).
Proof.
  intros Hnd. eapply sublist_NoDup; [done|].
  apply fmap_sublist, sublist_filter.
Qed.

Lemma not_mutated_index :
  mutated window df = false → NoDup (pd.index df) →
  pd.index (features_result window df) = pd.label <$> with_ticker (pd.rows df).
Proof.
  intros Hm Hnd. unfold features_result, pd.wrap_applied_output. rewrite Hm.
  destruct (results window df) as [|v vs] eqn:HV.
  - unfold results in HV. apply fmap_nil_inv in HV.
    by rewrite (no_groups df HV).
  - rewrite bool_decide_eq_false_2; [apply reindex_index|].
    intros [Hdup _]. by apply Hdup, with_ticker_NoDup.
Qed.

Lemma output_ticker_in_keys r t :
  r ∈ pd.rows (features_result window df) → ticker r = Some t → t ∈ group_keys df.
Proof.
  intros (r0 & Hr0 & _ & Ht & _)%features_result_origin Hrt.
  apply group_keys_elem. exists r0. split; [done|congruence].
Qed.

(** With unique row labels, the rows of instrument [t] in the output are,
    in order, the rows [_by_ticker] returns for the group of [t]. *)
Lemma features_result_partition t :
  NoDup (pd.index df) → t ∈ group_keys df →
  partition t (pd.rows (features_result window df)) =
    pd.rows (by_ticker_result window (group df t)).
Proof.
  intros Hnd Ht. destruct (mutated window df) eqn:Hm.
  { by rewrite mutated_rows, concat_partition, decide_True. }
  pose proof (not_mutated_index Hm Hnd) as Hidx.
  pose proof (features_result_rows_perm window df) as Hperm.
  assert (NoDup (pd.index (pd.concat (results window df)))) as Hres.
  { rewrite results_index_perm. by apply with_ticker_NoDup. }
  apply (eq_of_labels (pd.rows (pd.concat (results window df)))); [done| | |].
  - intros r [_ Hr]%list_elem_of_filter. by rewrite <- Hperm.
  - intros r Hr. rewrite results_rows. apply list_elem_of_bind. eauto.
  - fold (pd.index (by_ticker_result window (group df t))).
    rewrite (not_mutated_group t Hm Ht). unfold pd.index, group. simpl.
    rewrite <- (partition_with_ticker t (pd.rows df)). apply partition_labels.
    apply Forall2_same_length_lookup. split.
    { pose proof (f_equal length Hidx) as Hlen. unfold pd.index in Hlen.
      by rewrite !length_fmap in Hlen. }
    intros i r o Hr Ho.
    assert (pd.label o = pd.label r) as Hl.
    { apply (f_equal (.!! i)) in Hidx. unfold pd.index in Hidx.
      rewrite !list_lookup_fmap, Hr, Ho in Hidx. by simplify_eq/=. }
    split; [done|].
    destruct (features_result_origin window df o) as (r0 & Hr0 & Hl0 & Ht0 & _).
    { by eapply list_elem_of_lookup_2. }
    rewrite Ht0. f_equal. eapply (label_inj (pd.rows df)); [done..| |congruence].
    apply list_elem_of_lookup_2 in Hr. by apply list_elem_of_filter in Hr as [_ ?].
Qed.

Lemma features_result_partition_none t :
  t ∉ group_keys df → partition t (pd.rows (features_result window df)) = [].
Proof.
  intros Ht. apply filter_none. intros r Hr Hrt.
  by eapply Ht, output_ticker_in_keys.
Qed.
End output_partitions.

(** ** The program on frame objects *)

Lemma obj_bind_run {A B} (m : obj.ST A) (k : A → obj.ST B) σ :
  (m ≫= k) σ = match m σ with
               | (σ', Ok a) => k a σ'
               | (σ', Err e) => (σ', Err e)
               end.
Proof. done. Qed.

Lemma obj_get_run σ x df :
  σ !! x = Some df → obj.get x σ = (σ, Ok df).
Proof. intros Hx. unfold obj.get. by rewrite Hx. Qed.

Lemma lookup_fresh (σ : obj.store) s y : (σ ++ [s; y]) !! S (length σ) = Some y.
Proof.
  rewrite lookup_app_r by lia. by replace (S (length σ) - length σ) with 1 by lia.
Qed.

Lemma obj_getitem_run σ s y c :
  obj.getitem (S (length σ)) c (σ ++ [s; y]) = (σ ++ [s; y], pd.getitem y c).
Proof.
  unfold obj.getitem.
  by rewrite obj_bind_run, (obj_get_run _ _ y) by apply lookup_fresh.
Qed.

Lemma obj_setitem_run σ s y c xs :
  obj.setitem (S (length σ)) c xs (σ ++ [s; y]) =
    (σ ++ [s; pd.setitem y c xs], Ok ()).
Proof.
  unfold obj.setitem.
  rewrite obj_bind_run, (obj_get_run _ _ y) by apply lookup_fresh.
  cbv beta iota. unfold obj.put. rewrite insert_app_r_alt by lia.
  by replace (S (length σ) - length σ) with 1 by lia.
Qed.

Section obj_by_ticker.
Context `{Argsort}.

Lemma obj_sort_values_run σ x g :
  σ !! x = Some g →
  obj.sort_values x "date" σ =
    match pd.sort_values g "date" with
    | Ok s => (σ ++ [s], Ok (length σ))
    | Err e => (σ, Err e)
    end.
Proof.
  intros Hx. unfold obj.sort_values.
  rewrite obj_bind_run, (obj_get_run _ _ g Hx), obj_bind_run.
  unfold obj.lift at 1. by destruct (pd.sort_values g "date").
Qed.

Lemma obj_copy_run (σ : list pd.DataFrame) s :
  obj.copy (length σ) (σ ++ [s]) = (σ ++ [s; s], Ok (S (length σ))).
Proof.
  unfold obj.copy.
  rewrite obj_bind_run, (obj_get_run _ _ s) by by rewrite lookup_app_r, Nat.sub_diag.
  cbv beta iota. unfold obj.new, pd.copy.
  by rewrite <- app_assoc, length_app, Nat.add_1_r.
Qed.

Local Ltac obj_step :=
  rewrite obj_bind_run;
  first [rewrite obj_getitem_run | rewrite obj_setitem_run | unfold obj.lift at 1];
  cbv beta iota.

Local Ltac val_step :=
  cbn [mbind result_bind];
  match goal with
  | |- context [match ?m with Ok _ => _ | Err _ => _ end] =>
      destruct m as [?|?];
      [|eexists _, _; split; [reflexivity|reflexivity]]
  end.

(** [_by_ticker] on objects adds frames to the store and changes none that
    was there; it ends like [_by_ticker] on the value of its argument. *)
Lemma obj_by_ticker window σ x g :
  σ !! x = Some g →
  ∃ ext r, obj._by_ticker window x σ = (σ ++ ext, r) ∧
           agree (σ ++ ext) r (_by_ticker window g).
Proof.
  intros Hx. unfold obj._by_ticker, _by_ticker, pd.copy.
  rewrite obj_bind_run, (obj_sort_values_run _ _ g Hx).
  unfold fmap, result_fmap.
  destruct (pd.sort_values g "date") as [s|e]; cycle 1.
  { exists [], (Err e). by rewrite app_nil_r. }
  rewrite obj_bind_run, obj_copy_run. cbv beta iota.
  do 2 (obj_step; val_step). obj_step.
  do 4 (obj_step; val_step). obj_step.
  do 8 (obj_step; val_step). obj_step.
  cbn [mbind result_bind].
  eexists _, _. split; [reflexivity|]. apply lookup_fresh.
Qed.
End obj_by_ticker.

Lemma obj_for_each (f : nat → obj.ST nat) (fv : pd.DataFrame → result pd.DataFrame) :
  (∀ σ x g, σ !! x = Some g →
     ∃ ext r, f x σ = (σ ++ ext, r) ∧ agree (σ ++ ext) r (fv g)) →
  ∀ groups σ,
    ∃ ext, obj.for_each (λ g, x ← obj.new g; y ← f x; obj.get y) groups σ =
             (σ ++ ext, traverse fv groups).
Proof.
  intros Hf groups. induction groups as [|g gs IH]; intros σ.
  { exists []. by rewrite app_nil_r. }
  cbn [obj.for_each traverse].
  destruct (Hf (σ ++ [g]) (length σ) g) as (ext & r & Hrun & Hagree).
  { by rewrite lookup_app_r, Nat.sub_diag. }
  assert ((x ← obj.new g; y ← f x; obj.get y) σ =
          ((σ ++ [g]) ++ ext, fv g)) as Hbody.
  { rewrite obj_bind_run. unfold obj.new at 1. cbv beta iota.
    rewrite obj_bind_run, Hrun.
    destruct r as [y|e], (fv g) as [v|e']; simpl in Hagree; try done.
    - by rewrite (obj_get_run _ _ v Hagree).
    - by subst e'. }
  rewrite obj_bind_run, Hbody. cbn [mbind result_bind].
  destruct (fv g) as [v|e].
  - rewrite obj_bind_run. destruct (IH ((σ ++ [g]) ++ ext)) as (ext' & ->).
    exists ([g] ++ ext ++ ext'). rewrite !app_assoc.
    by destruct (traverse fv gs).
  - exists ([g] ++ ext). by rewrite !app_assoc.
Qed.

Section obj_features.
Context `{Argsort}.

Lemma obj_lift_bind_run {A B} (m : result A) (k : A → obj.ST B) σ :
  (obj.lift m ≫= k) σ = match m with Ok a => k a σ | Err e => (σ, Err e) end.
Proof. by destruct m. Qed.

Lemma obj_get_bind_run {B} (k : pd.DataFrame → obj.ST B) σ x df :
  σ !! x = Some df → (obj.get x ≫= k) σ = k df σ.
Proof. intros Hx. by rewrite obj_bind_run, (obj_get_run _ _ df Hx). Qed.

Lemma obj_groupby_apply f fv σ x df :
  (∀ σ x g, σ !! x = Some g →
     ∃ ext r, f x σ = (σ ++ ext, r) ∧ agree (σ ++ ext) r (fv g)) →
  σ !! x = Some df →
  ∃ ext r, obj.groupby_apply x "Ticker" f σ = (σ ++ ext, r) ∧
           agree (σ ++ ext) r (pd.groupby_apply df "Ticker" fv).
Proof.
  intros Hf Hx. unfold obj.groupby_apply, pd.groupby_apply.
  rewrite (obj_get_bind_run _ _ _ df Hx), obj_lift_bind_run.
  destruct (pd.getitem df "Ticker") as [k|e]; cycle 1.
  { exists [], (Err e). by rewrite app_nil_r. }
  rewrite obj_lift_bind_run. cbn [mbind result_bind].
  destruct (traverse pd.to_str k) as [keys|e]; cycle 1.
  { exists [], (Err e). by rewrite app_nil_r. }
  rewrite obj_bind_run. cbn [mbind result_bind].
  destruct (obj_for_each f fv Hf (pd.group_frames df keys) σ) as (ext & ->).
  destruct (traverse fv _) as [values|e]; cycle 1.
  { exists ext, (Err e). by split. }
  unfold obj.new. eexists (ext ++ [_]), _.
  rewrite app_assoc. split; [reflexivity|].
  unfold agree. by rewrite lookup_app_r, Nat.sub_diag.
Qed.

(** The call on objects adds frames to the store, changes none that was
    there, and ends like the call on the value of its argument. *)
Lemma obj_add_range_vol_features window σ x df :
  σ !! x = Some df →
  ∃ ext r, obj.add_range_vol_features x window σ = (σ ++ ext, r) ∧
           agree (σ ++ ext) r (add_range_vol_features df window).
Proof.
  intros Hx. unfold obj.add_range_vol_features, add_range_vol_features.
  destruct (obj_groupby_apply (obj._by_ticker window) (_by_ticker window)
              σ x df (obj_by_ticker window) Hx) as (ext & r & Hrun & Hagree).
  exists ext, r. split; [|done].
  rewrite obj_bind_run, Hrun. by destruct r.
Qed.

Lemma by_ticker_result_columns window x c :
  c ∈ pd.columns x → c ∈ pd.columns (by_ticker_result window x).
Proof.
  intros Hc. unfold by_ticker_result. cbv zeta.
  do 3 (apply setitem_columns; left). done.
Qed.

Lemma features_result_columns window df c :
  c ∈ pd.columns df → c ∈ pd.columns (features_result window df).
Proof.
  intros Hc. unfold features_result, pd.wrap_applied_output, results.
  destruct (group_keys df) as [|t ts]; [done|]. csimpl.
  assert (c ∈ pd.columns (pd.concat
            (by_ticker_result window (group df t)
             :: ((λ t, by_ticker_result window (group df t)) <$> ts)))) as Hres.
  { exact (by_ticker_result_columns window (group df t) c Hc). }
  destruct (mutated window df); [done|].
  case_bool_decide; [done|]. unfold pd.reindex. by case_decide.
Qed.
End obj_features.

Lemma typed_rowb_spec r : typed_rowb r = true → typed_row r.
Proof.
  unfold typed_rowb, typed_row, date_key, ticker, price.
  intros [[Hd Ht]%andb_prop Hp]%andb_prop. split_and!.
  - by destruct (pd.cell "date" r).
  - by destruct (pd.cell "Ticker" r).
  - intros c Hc. cbn [forallb] in Hp.
    repeat apply andb_prop in Hp as [? Hp].
    repeat (apply elem_of_cons in Hc as [->|Hc];
            [by match goal with |- pd.to_f64 ?v = _ => destruct v end|]).
    by apply elem_of_nil in Hc.
Qed.

Lemma well_typed_check df :
  forallb typed_rowb (pd.rows df) = true → well_typed df.
Proof.
  unfold well_typed. induction (pd.rows df) as [|r rs IH]; simpl; [constructor|].
  intros [Hr Hrs]%andb_prop. constructor; [by apply typed_rowb_spec|by apply IH].
Qed.

(** ** C4: date order within the partitions *)


(** With a stable algorithm, as kind="stable" would select, the two bars
    stay in their order: the difference is the algorithm alone. *)
Lemma stable_sort_keeps_ties :
  ∃ out, @add_range_vol_features stable_sort tied 20 = Ok out ∧
         pd.index out = [0; 1].
Proof. eexists. split; [vm_compute; reflexivity|]. by vm_compute. Qed.



(** ** C5: missing columns *)




(** ** C6: the empty table *)

(** C6, as stated, fails: without rows there is no group, [_by_ticker] is
    never called and the three derived columns are never added. *)
Lemma empty_table_not_augmented :
  ∃ out, @add_range_vol_features stable_sort
           {| pd.columns := ohlc ++ ["Volume"]; pd.rows := [] |} 20 = Ok out ∧
         pd.rows out = [] ∧
         ("ret_log_1d" ∉ pd.columns out) ∧ ("vol_pk" ∉ pd.columns out) ∧
         ("vol_gk" ∉ pd.columns out).
Proof.
  eexists. split; [vm_compute; reflexivity|]. simpl. split_and!; [done|set_solver..].
Qed.

(** C6, amended.  On a table without rows that has the Ticker column the
    call does not fail and returns a table without rows with the columns of
    the input. *)
Theorem empty_table `{Argsort} cols window :
  "Ticker" ∈ cols →
  add_range_vol_features {| pd.columns := cols; pd.rows := [] |} window =
    Ok {| pd.columns := cols; pd.rows := [] |}.
Proof.
  intros Ht. rewrite features_run by constructor. simpl.
  by rewrite decide_True.
Qed.

Lemma empty_table_witness :
  @add_range_vol_features stable_sort {| pd.columns := ohlc; pd.rows := [] |} 20 =
    Ok {| pd.columns := ohlc; pd.rows := [] |}.
Proof. apply (@empty_table stable_sort ohlc 20). set_solver. Defined.

(** ** C7: the number of rows *)

(** C7, as stated, fails: [groupby] drops the rows whose key is missing
    (dropna=True is the default). *)
Lemma missing_ticker_row_dropped :
  ∃ out, @add_range_vol_features stable_sort anonymous 20 = Ok out ∧
         length (pd.rows anonymous) = 1 ∧ length (pd.rows out) = 0.
Proof. eexists. split; [vm_compute; reflexivity|]. by vm_compute. Qed.

(** C7, amended.  The rows of the output are as many as the rows of the input
    that have a Ticker; on a well-typed table with the required columns in
    which no Ticker is missing the call returns a table with exactly as many
    rows as the input. *)
Theorem row_count `{Argsort} df window :
  (∀ out, add_range_vol_features df window = Ok out →
          length (pd.rows out) = length (with_ticker (pd.rows df))) ∧
  (well_typed df → required ⊆ pd.columns df →
   (∀ r, r ∈ pd.rows df → ticker r ≠ None) →
   ∃ out, add_range_vol_features df window = Ok out ∧
          length (pd.rows out) = length (pd.rows df)).
Proof.
  split.
  - intros out [_ ->]%features_Ok. apply features_result_length.
  - intros Hty Hreq Hall. exists (features_result window df). split.
    + by apply features_total.
    + rewrite features_result_length. unfold with_ticker.
      by rewrite filter_all.
Qed.

Lemma row_count_witness :
  ∃ out, @add_range_vol_features stable_sort unsorted 20 = Ok out ∧
         length (pd.rows out) = 3.
Proof.
  refine (proj2 (@row_count stable_sort unsorted 20) _ _ _).
  - apply well_typed_check. vm_compute. reflexivity.
  - vm_compute. set_solver.
  - intros r Hr. vm_compute in Hr.
    repeat (apply elem_of_cons in Hr as [->|Hr]; [by vm_compute|]).
    by apply elem_of_nil in Hr.
Defined.

(** ** C8: non-positive prices *)

Lemma log_zero : np.log (Fin 0) = NInf.
Proof.
  unfold np.log. destruct (Rlt_dec 0 0) as [?|_]; [lra|].
  by destruct (Req_dec_T 0 0).
Qed.

Lemma log_not_finite h l :
  l = 0%R ∨ (h / l <= 0)%R → finite_val (np.log (F.div (Fin h) (Fin l))) = None.
Proof.
  intros Hbad. unfold F.div. destruct (Req_dec_T l 0) as [->|Hl].
  - by destruct (Rlt_dec 0 h), (Rlt_dec h 0).
  - destruct Hbad as [?|Hle]; [done|]. unfold np.log.
    destruct (Rlt_dec 0 (h / l)); [lra|]. by destruct (Req_dec_T (h / l) 0).
Qed.

Lemma log_nonpos_not_finite x : (x <= 0)%R → finite_val (np.log (Fin x)) = None.
Proof.
  intros Hx. unfold np.log. destruct (Rlt_dec 0 x); [lra|].
  by destruct (Req_dec_T x 0).
Qed.

Lemma sqr_not_finite v : finite_val v = None → finite_val (F.sqr v) = None.
Proof. by destruct v. Qed.

Lemma mul_pos_not_finite c v :
  (0 < c)%R → finite_val v = None → finite_val (F.mul (Fin c) v) = None.
Proof.
  intros Hc. destruct v; simpl; try done;
    destruct (Rlt_dec 0 c); try done; lra.
Qed.

Lemma sub_not_finite a b :
  finite_val a = None ∨ finite_val b = None → finite_val (F.sub a b) = None.
Proof. destruct a, b; naive_solver. Qed.

Lemma parkinson_vol_length high low window :
  length (parkinson_vol high low window) = length high `max` length low.
Proof.
  unfold parkinson_vol, Series.pow_half, Series.rmul, Series.sqr, Series.apply,
    Series.div. cbv zeta.
  by rewrite length_fmap, rolling_sum_length, !length_fmap, align_length.
Qed.

Lemma garman_klass_vol_length open_ high low close window :
  length (garman_klass_vol open_ high low close window) =
    (length high `max` length low) `max` (length close `max` length open_).
Proof.
  unfold garman_klass_vol, Series.pow_half, Series.clip, Series.sub, Series.rmul,
    Series.sqr, Series.apply, Series.div. cbv zeta.
  by rewrite !length_fmap, rolling_sum_length, align_length, !length_fmap,
    !align_length.
Qed.

(** A day whose high/low ratio has no finite logarithm leaves [parkinson_vol]
    NaN on every window the day falls in. *)
Lemma parkinson_vol_not_finite high low window i j h l :
  high !! j = Some h → low !! j = Some l →
  finite_val (np.log (F.div h l)) = None →
  j ≤ i < j + window → i < length high `max` length low →
  parkinson_vol high low window !! i = Some NaN.
Proof.
  intros Hh Hl Hbad Hij Hi. unfold parkinson_vol, Series.pow_half. cbv zeta.
  rewrite parkinson_coef, list_lookup_fmap.
  erewrite rolling_sum_not_finite; [done|lia| |..|done]; cycle 1.
  - unfold Series.rmul, Series.sqr, Series.apply, Series.div.
    rewrite !list_lookup_fmap. by erewrite align_lookup.
  - simpl. apply mul_pos_not_finite, sqr_not_finite, Hbad.
    pose proof ln2_pos. apply Rdiv_lt_0_compat; lra.
  - unfold Series.rmul, Series.sqr, Series.apply, Series.div.
    by rewrite !length_fmap, align_length.
Qed.

Lemma garman_klass_vol_not_finite open_ high low close window i j o h l c :
  open_ !! j = Some o → high !! j = Some h → low !! j = Some l →
  close !! j = Some c →
  finite_val (np.log (F.div h l)) = None ∨ finite_val (np.log (F.div c o)) = None →
  j ≤ i < j + window →
  i < (length high `max` length low) `max` (length close `max` length open_) →
  garman_klass_vol open_ high low close window !! i = Some NaN.
Proof.
  intros Ho Hh Hl Hc Hbad Hij Hi.
  unfold garman_klass_vol, Series.pow_half, Series.clip. cbv zeta.
  rewrite garman_klass_coef, !list_lookup_fmap.
  erewrite rolling_sum_not_finite; [done|lia| |..|done]; cycle 1.
  - unfold Series.sub, Series.rmul, Series.sqr, Series.apply, Series.div.
    erewrite align_lookup; [done|..]; rewrite !list_lookup_fmap;
      by erewrite align_lookup.
  - simpl. apply sub_not_finite. pose proof ln_lt_2.
    destruct Hbad as [Hbad|Hbad]; [left|right];
      apply mul_pos_not_finite, sqr_not_finite, Hbad; lra.
  - unfold Series.sub, Series.rmul, Series.sqr, Series.apply, Series.div.
    by rewrite !align_length, !length_fmap, !align_length.
Qed.

(** C8, as stated, fails: the logarithm of zero is minus infinity, not NaN,
    and a difference with it stays infinite.  A close of zero after a positive
    close gives a return of minus infinity. *)
Lemma zero_close_gives_infinity :
  log_returns [Fin 1; Fin 0] = [NaN; NInf] ∧ is_nan NInf = false.
Proof.
  split; [|done].
  change (log_returns [Fin 1; Fin 0])
    with [NaN; F.sub (np.log (Fin 0)) (np.log (Fin 1))].
  rewrite log_zero, log_Fin by lra. done.
Qed.

(** C8, amended.  Whatever the prices, nothing is raised and no row is lost:
    the three estimators return a series as long as their input, and on a
    well-typed table with the required columns [add_range_vol_features]
    returns a table with one row for every input row that has a Ticker.  A
    value computed from the logarithm of a non-positive number or from a
    division by zero is not a finite number: NaN or an infinity in
    [ret_log_1d], NaN in [vol_pk] and [vol_gk] on every window that contains
    the day. *)
Theorem garbage_in_nan_out :
  (∀ close, length (log_returns close) = length close) ∧
  (∀ high low window,
     length (parkinson_vol high low window) = length high `max` length low) ∧
  (∀ open_ high low close window,
     length (garman_klass_vol open_ high low close window) =
       (length high `max` length low) `max` (length close `max` length open_)) ∧
  (∀ close i x, close !! i = Some (Fin x) → (x <= 0)%R →
     (∃ v, log_returns close !! i = Some v ∧ finite_val v = None) ∧
     (S i < length close →
      ∃ v, log_returns close !! S i = Some v ∧ finite_val v = None)) ∧
  (∀ high low window i j h l,
     high !! j = Some (Fin h) → low !! j = Some (Fin l) →
     l = 0%R ∨ (h / l <= 0)%R →
     j ≤ i < j + window → i < length high `max` length low →
     parkinson_vol high low window !! i = Some NaN) ∧
  (∀ open_ high low close window i j o h l c,
     open_ !! j = Some (Fin o) → high !! j = Some (Fin h) →
     low !! j = Some (Fin l) → close !! j = Some (Fin c) →
     (l = 0%R ∨ (h / l <= 0)%R) ∨ (o = 0%R ∨ (c / o <= 0)%R) →
     j ≤ i < j + window →
     i < (length high `max` length low) `max` (length close `max` length open_) →
     garman_klass_vol open_ high low close window !! i = Some NaN) ∧
  (∀ (A : Argsort) df window,
     well_typed df → required ⊆ pd.columns df →
     ∃ out, add_range_vol_features df window = Ok out ∧
            length (pd.rows out) = length (with_ticker (pd.rows df))).
Proof.
  split_and!.
  - apply log_returns_length.
  - apply parkinson_vol_length.
  - apply garman_klass_vol_length.
  - intros close i x Hi Hx. split.
    + destruct i as [|k].
      * exists NaN. split; [|done]. apply log_returns_0. by destruct close.
      * destruct (lookup_lt_is_Some_2 close k) as [p Hp].
        { apply lookup_lt_Some in Hi. lia. }
        eexists. split; [by apply (log_returns_S _ _ p (Fin x))|].
        apply sub_not_finite. left. by apply log_nonpos_not_finite.
    + intros Hlen. destruct (lookup_lt_is_Some_2 close (S i)) as [y Hy]; [done|].
      eexists. split; [by apply (log_returns_S _ _ (Fin x) y)|].
      apply sub_not_finite. right. by apply log_nonpos_not_finite.
  - intros high low window i j h l Hh Hl Hbad Hij Hi.
    eapply parkinson_vol_not_finite; [done..|by apply log_not_finite|done|done].
  - intros open_ high low close window i j o h l c Ho Hh Hl Hc Hbad Hij Hi.
    eapply garman_klass_vol_not_finite; [done..| |done|done].
    destruct Hbad; [left|right]; by apply log_not_finite.
  - intros A df window Hty Hreq. exists (features_result window df).
    split; [by apply features_total|apply features_result_length].
Qed.

Lemma garbage_in_nan_out_witness :
  parkinson_vol [Fin 1; Fin 2] [Fin 1; Fin 0] 2 !! 1 = Some NaN.
Proof.
  refine (proj1 (proj2 (proj2 (proj2 (proj2 garbage_in_nan_out))))
            [Fin 1; Fin 2] [Fin 1; Fin 0] 2 1 1 2%R 0%R eq_refl eq_refl _ _ _).
  - by left.
  - lia.
  - simpl. lia.
Defined.

(** ** C9: the input table and the columns passed through *)

(** C9, as stated, fails for a column that is not required and has the name
    of a derived column: it is overwritten. *)
Lemma derived_column_overwritten :
  ∃ out, @add_range_vol_features stable_sort rerun 20 = Ok out ∧
         ("ret_log_1d" ∉ required) ∧
         pd.cell "ret_log_1d" <$> pd.rows rerun = [VNum (Fin 7)] ∧
         pd.cell "ret_log_1d" <$> pd.rows out = [VNum NaN].
Proof.
  eexists. split; [vm_compute; reflexivity|].
  split_and!; [set_solver|by vm_compute..].
Qed.

(** C9, amended.  The call changes no frame that exists before it, the
    input table included: it only adds frames to the store, and ends like
    the function on tables.  Every column of the input is a column of the
    output, and every row of the output has the label of an input row and,
    in every column other than [ret_log_1d], [vol_pk] and [vol_gk], the cell
    of that row. *)
Theorem input_unchanged `{Argsort} (σ : list pd.DataFrame) x df window :
  σ !! x = Some df →
  ∃ ext r,
    obj.add_range_vol_features x window σ = (σ ++ ext, r) ∧
    agree (σ ++ ext) r (add_range_vol_features df window) ∧
    (∀ y d, σ !! y = Some d → (σ ++ ext) !! y = Some d) ∧
    (∀ out, add_range_vol_features df window = Ok out →
       pd.columns df ⊆ pd.columns out ∧
       ∀ r', r' ∈ pd.rows out →
         ∃ r0, r0 ∈ pd.rows df ∧ pd.label r' = pd.label r0 ∧
               ∀ c, c ∉ derived → pd.cells r' !! c = pd.cells r0 !! c).
Proof.
  intros Hx.
  destruct (obj_add_range_vol_features window σ x df Hx) as (ext & r & Hrun & Hagree).
  exists ext, r. split_and!; [done..| |].
  - intros y d Hy. by apply lookup_app_l_Some.
  - intros out [_ ->]%features_Ok. split.
    + intros c. apply features_result_columns.
    + intros r' (r0 & Hr0 & Hl & _ & _ & Hc)%features_result_origin. eauto.
Qed.

Lemma input_unchanged_witness :
  ∃ ext r,
    @obj.add_range_vol_features stable_sort 0 20 [unsorted] = ([unsorted] ++ ext, r) ∧
    ([unsorted] ++ ext) !! 0 = Some unsorted.
Proof.
  destruct (@input_unchanged stable_sort [unsorted] 0 unsorted 20 eq_refl)
    as (ext & r & Hrun & _ & Hkeep & _).
  exists ext, r. split; [exact Hrun|]. exact (Hkeep 0 unsorted eq_refl).
Defined.

(** ** C10: the order of the partitions *)

(** C10, as stated, fails: when no partition is reordered by the date sort,
    [apply] puts the rows back in their original order.  Here "BBB" comes
    before "AAA" in the input and in the output. *)
Lemma partitions_not_in_ticker_order :
  ∃ out, @add_range_vol_features stable_sort two_instruments 20 = Ok out ∧
         pd.cell "Ticker" <$> pd.rows out = [VStr "BBB"; VStr "AAA"].
Proof. eexists. split; [vm_compute; reflexivity|]. by vm_compute. Qed.

(** C10, amended.  On a table with unique row labels: when the date sort
    leaves the rows of every instrument where they are, the output keeps the
    order of the input rows (those that have an instrument); otherwise the
    output is the concatenation of the partitions in ascending order of
    Ticker. *)
Theorem partition_order `{Argsort} df window out :
  NoDup (pd.index df) →
  add_range_vol_features df window = Ok out →
  let unmoved :=
    ∀ t, pd.label <$> partition t (pd.rows out) = pd.label <$> partition t (pd.rows df) in
  (unmoved → pd.index out = pd.label <$> with_ticker (pd.rows df)) ∧
  (¬ unmoved →
     ∃ ts, StronglySorted String.le ts ∧ NoDup ts ∧
           (∀ t, t ∈ ts ↔ ∃ r, r ∈ pd.rows df ∧ ticker r = Some t) ∧
           pd.rows out = ts ≫= (λ t, partition t (pd.rows out))).
Proof.
  intros Hnd [_ ->]%features_Ok unmoved.
  destruct (mutated window df) eqn:Hm.
  - split.
    + intros Hun. exfalso. pose proof Hm as Hm'.
      unfold mutated, results in Hm'. apply bool_decide_eq_true in Hm'.
      rewrite <- !list_fmap_compose in Hm'.
      apply fmap_ne_inv in Hm' as (t & Ht & Hne). apply Hne. simpl.
      specialize (Hun t). rewrite features_result_partition in Hun by done.
      done.
    + intros _. exists (group_keys df). split_and!.
      * apply group_keys_sorted.
      * apply group_keys_NoDup.
      * apply group_keys_elem.
      * rewrite mutated_rows by done. rewrite results_rows at 1.
        apply bind_ext_in. intros t Ht.
        by rewrite concat_partition, decide_True.
  - split; [intros _; by apply not_mutated_index|].
    intros Hun. exfalso. apply Hun. intros t.
    destruct (decide (t ∈ group_keys df)) as [Ht|Ht].
    + rewrite features_result_partition by done.
      apply (not_mutated_group window df t Hm Ht).
    + rewrite features_result_partition_none by done.
      unfold partition. rewrite filter_none; [done|].
      intros r Hr Hrt. apply Ht, group_keys_elem. eauto.
Qed.

Lemma partition_order_witness :
  ∃ out, @add_range_vol_features stable_sort unsorted 20 = Ok out ∧
    ∃ ts, StronglySorted String.le ts ∧ NoDup ts ∧
          (∀ t, t ∈ ts ↔ ∃ r, r ∈ pd.rows unsorted ∧ ticker r = Some t) ∧
          pd.rows out = ts ≫= (λ t, partition t (pd.rows out)).
Proof.
  eexists. split; [vm_compute; reflexivity|].
  refine (proj2 (@partition_order stable_sort unsorted 20 _ _ _) _).
  - vm_compute. repeat constructor; set_solver.
  - vm_compute. reflexivity.
  - intros Hun. specialize (Hun "BBB"). vm_compute in Hun. discriminate Hun.
Defined.

(** * Further properties of the three estimators *)

(** ** Prefixes *)

Lemma window_take {A} w i n (xs : list A) :
  i < n → Series.window w i (take n xs) = Series.window w i xs.
Proof.
  intros Hi. unfold Series.window.
  apply list_eq. intros j.
  destruct (decide (j < i + 1 - (i + 1 - w))) as [Hj|Hj].
  - rewrite !lookup_take_lt by done. rewrite !lookup_drop.
    apply lookup_take_lt. lia.
  - by rewrite !lookup_take_ge by lia.
Qed.

Lemma rolling_sum_take w n xs :
  take n (Series.rolling_sum w xs) = Series.rolling_sum w (take n xs).
Proof.
  unfold Series.rolling_sum. rewrite <- fmap_take, length_take.
  rewrite take_seq.
  apply list_fmap_ext. intros k i [-> Hi]%lookup_seq. simpl.
  rewrite window_take by lia. done.
Qed.

Lemma align_take op n xs ys :
  take n (Series.align op xs ys) = Series.align op (take n xs) (take n ys).
Proof.
  revert n ys. induction xs as [|x xs IH]; intros [|n] ys; simpl.
  - by rewrite take_0.
  - destruct ys; simpl; [done|]. by rewrite fmap_take.
  - by destruct ys.
  - destruct ys as [|y ys]; simpl; f_equal; rewrite IH; by rewrite ?take_nil.
Qed.

Lemma diff_take n xs : take n (Series.diff xs) = Series.diff (take n xs).
Proof.
  destruct xs as [|x xs], n as [|n]; simpl; try done.
  f_equal. revert n x. induction xs as [|y xs IH]; intros [|n] x; simpl; try done.
  f_equal. apply IH.
Qed.

(** X7.  None of the three estimators looks ahead: the first [n] values
    computed on a series are the values computed on its first [n] days,
    whatever the values are. *)
Theorem no_look_ahead n open_ high low close window :
  take n (log_returns close) = log_returns (take n close) ∧
  take n (parkinson_vol high low window) =
    parkinson_vol (take n high) (take n low) window ∧
  take n (garman_klass_vol open_ high low close window) =
    garman_klass_vol (take n open_) (take n high) (take n low) (take n close) window.
Proof.
  unfold log_returns, parkinson_vol, garman_klass_vol, Series.pow_half, Series.clip,
    Series.sub, Series.rmul, Series.sqr, Series.apply, Series.div. cbv zeta.
  split_and!.
  - by rewrite diff_take, fmap_take.
  - by rewrite <- !fmap_take, rolling_sum_take, <- !fmap_take, align_take.
  - by rewrite <- !fmap_take, rolling_sum_take, align_take, <- !fmap_take, !align_take.
Qed.

(** ** Before the first full window *)

Lemma parkinson_vol_early high low window i :
  i + 1 < window → i < length high `max` length low →
  parkinson_vol high low window !! i = Some NaN.
Proof.
  intros Hw Hi. unfold parkinson_vol, Series.pow_half. cbv zeta.
  rewrite list_lookup_fmap, rolling_sum_early; [done| |done].
  unfold Series.rmul, Series.sqr, Series.apply, Series.div.
  by rewrite !length_fmap, align_length.
Qed.

Lemma garman_klass_vol_early open_ high low close window i :
  i + 1 < window →
  i < (length high `max` length low) `max` (length close `max` length open_) →
  garman_klass_vol open_ high low close window !! i = Some NaN.
Proof.
  intros Hw Hi. unfold garman_klass_vol, Series.pow_half, Series.clip. cbv zeta.
  rewrite !list_lookup_fmap, rolling_sum_early; [done| |done].
  unfold Series.sub, Series.rmul, Series.sqr, Series.apply, Series.div.
  by rewrite !align_length, !length_fmap, !align_length.
Qed.

(** X9.  Whatever the prices, the two volatility estimators give NaN on
    every day before the first full window, that is on the days
    [i < window - 1]; a series shorter than the window gives NaN only. *)
Theorem warm_up open_ high low close window i :
  i + 1 < window →
  (i < length high `max` length low →
   parkinson_vol high low window !! i = Some NaN) ∧
  (i < (length high `max` length low) `max` (length close `max` length open_) →
   garman_klass_vol open_ high low close window !! i = Some NaN).
Proof.
  intros Hw. split; intros Hi.
  - by apply parkinson_vol_early.
  - by apply garman_klass_vol_early.
Qed.

Lemma warm_up_witness :
  parkinson_vol [Fin 2; PInf] [Fin 1; Fin 0] 3 !! 1 = Some NaN.
Proof.
  refine (proj1 (warm_up [] [Fin 2; PInf] [Fin 1; Fin 0] [] 3 1 _) _); simpl; lia.
Defined.

(** ** The range of [parkinson_vol] *)

Lemma mul_sqr_values c v :
  (0 <= c)%R → F.mul (Fin c) (F.sqr v) = NaN ∨ F.mul (Fin c) (F.sqr v) = PInf ∨
  ∃ r, F.mul (Fin c) (F.sqr v) = Fin r ∧ (0 <= r)%R.
Proof.
  intros Hc. destruct v as [x| | |]; simpl.
  - right; right. eexists; split; [done|]. apply Rmult_le_pos; [done|]. apply pow2_ge_0.
  - destruct (Rlt_dec 0 c); [by right; left|]. destruct (Rlt_dec c 0); [lra|by left].
  - destruct (Rlt_dec 0 c); [by right; left|]. destruct (Rlt_dec c 0); [lra|by left].
  - by left.
Qed.

Lemma omap_finite_nonneg xs :
  Forall (λ v, ∀ r, v = Fin r → (0 <= r)%R) xs →
  Forall (λ r, 0 <= r)%R (omap finite_val xs).
Proof.
  induction 1 as [|v xs Hv _ IH]; csimpl; [constructor|].
  destruct v; simpl; [constructor; eauto|done..].
Qed.

Lemma rolling_sum_nonneg w xs v :
  Forall (λ v, ∀ r, v = Fin r → (0 <= r)%R) xs →
  v ∈ Series.rolling_sum w xs → v = NaN ∨ ∃ r, v = Fin r ∧ (0 <= r)%R.
Proof.
  intros Hxs. unfold Series.rolling_sum. intros (i & -> & _)%list_elem_of_fmap.
  cbv zeta. case_decide; [right|by left]. eexists. split; [done|].
  apply Rsum_nonneg, omap_finite_nonneg.
  unfold Series.window. by apply Forall_take, Forall_drop.
Qed.

(** X10.  Whatever the prices, a value of [parkinson_vol] is NaN or a
    non-negative number: never an infinity, never negative. *)
Theorem parkinson_vol_values high low window v :
  v ∈ parkinson_vol high low window → v = NaN ∨ ∃ r, v = Fin r ∧ (0 <= r)%R.
Proof.
  unfold parkinson_vol, Series.pow_half. cbv zeta. rewrite parkinson_coef.
  intros (u & -> & Hu)%list_elem_of_fmap.
  apply rolling_sum_nonneg in Hu as [->|(r & -> & Hr)].
  - by left.
  - right. rewrite pow_half_Fin by done. eexists. split; [done|]. apply sqrt_pos.
  - apply Forall_forall. intros t. unfold Series.rmul, Series.sqr.
    rewrite <- list_fmap_compose. intros (u' & -> & _)%list_elem_of_fmap r Hr.
    unfold compose in Hr.
    destruct (mul_sqr_values (1 / (4 * ln 2)) u') as [Hn|[Hn|(r' & Hn & ?)]];
      [|rewrite Hn in Hr; congruence..].
    pose proof ln2_pos. apply Rlt_le, Rdiv_lt_0_compat; lra.
Qed.

Lemma parkinson_vol_values_witness :
  Fin (sqrt (Rsum [parkinson_term 2 1])) = NaN ∨
  ∃ r, Fin (sqrt (Rsum [parkinson_term 2 1])) = Fin r ∧ (0 <= r)%R.
Proof.
  apply (parkinson_vol_values (Fin <$> [2]%R) (Fin <$> [1]%R) 1).
  apply (list_elem_of_lookup_2 _ 0).
  unfold parkinson_vol, Series.pow_half. cbv zeta.
  rewrite parkinson_coef, parkinson_terms_Fin; [|done|repeat constructor; lra..].
  rewrite list_lookup_fmap, rolling_sum_Fin by (simpl; lia). simpl.
  f_equal. apply pow_half_Fin.
  assert (0 <= parkinson_term 2 1)%R; [|lra].
  unfold parkinson_term. pose proof ln2_pos.
  apply Rmult_le_pos; [|apply pow2_ge_0]. apply Rlt_le, Rdiv_lt_0_compat; lra.
Defined.

(** ** The unit of the prices *)
Lemma div_scale k x y :
  (0 < k)%R → F.div (Fin (k * x)) (Fin (k * y)) = F.div (Fin x) (Fin y).
Proof.
  intros Hk. unfold F.div.
  destruct (Req_dec_T y 0) as [->|Hy].
  - rewrite Rmult_0_r. destruct (Req_dec_T 0 0) as [_|?]; [|done].
    destruct (Rlt_dec 0 x), (Rlt_dec 0 (k * x)); try nra.
    + done.
    + destruct (Rlt_dec x 0), (Rlt_dec (k * x) 0); try nra; done.
  - destruct (Req_dec_T (k * y) 0) as [?|_]; [nra|].
    f_equal. field. split; first [done|lra].
Qed.

Lemma log_scale k x :
  (0 < k)%R →
  np.log (Fin (k * x)) =
    match np.log (Fin x) with Fin l => Fin (ln k + l) | v => v end.
Proof.
  intros Hk. unfold np.log.
  destruct (Rlt_dec 0 x), (Rlt_dec 0 (k * x)); try nra.
  - by rewrite ln_mult.
  - destruct (Req_dec_T x 0), (Req_dec_T (k * x) 0); try nra; done.
Qed.

Lemma sub_log_scale k a b :
  (0 < k)%R →
  F.sub (np.log (Fin (k * b))) (np.log (Fin (k * a))) =
  F.sub (np.log (Fin b)) (np.log (Fin a)).
Proof.
  intros Hk. rewrite !log_scale by done.
  destruct (np.log (Fin b)), (np.log (Fin a)); simpl; try done.
  f_equal. lra.
Qed.

Lemma align_div_scale k (xs ys : list R) :
  (0 < k)%R →
  Series.div ((λ x, Fin (k * x)) <$> xs) ((λ x, Fin (k * x)) <$> ys) =
  Series.div (Fin <$> xs) (Fin <$> ys).
Proof.
  intros Hk. unfold Series.div. revert ys.
  induction xs as [|x xs IH]; intros ys; csimpl.
  - by rewrite <- !list_fmap_compose.
  - destruct ys as [|y ys]; csimpl.
    + f_equal. apply (IH []).
    + f_equal; [by apply div_scale|apply IH].
Qed.

Lemma diff_log_scale k (xs : list R) :
  (0 < k)%R →
  Series.diff (np.log <$> ((λ x, Fin (k * x)) <$> xs)) =
  Series.diff (np.log <$> (Fin <$> xs)).
Proof.
  intros Hk. destruct xs as [|x xs]; [done|]. csimpl. f_equal.
  revert x. induction xs as [|y xs IH]; intros x; csimpl; [done|].
  f_equal; [by apply sub_log_scale|apply IH].
Qed.

(** X12.  The three estimators do not depend on the unit of the prices:
    multiplying every price by the same positive factor changes no value, on
    finite prices of any sign. *)
Theorem scale_invariant (k : R) (open_ high low close : list R) (window : nat) :
  (0 < k)%R →
  let scaled := fmap (M := list) (λ x, Fin (k * x)) in
  log_returns (scaled close) = log_returns (Fin <$> close) ∧
  parkinson_vol (scaled high) (scaled low) window =
    parkinson_vol (Fin <$> high) (Fin <$> low) window ∧
  garman_klass_vol (scaled open_) (scaled high) (scaled low) (scaled close) window =
    garman_klass_vol (Fin <$> open_) (Fin <$> high) (Fin <$> low) (Fin <$> close)
                     window.
Proof.
  intros Hk scaled. unfold scaled. split_and!.
  - unfold log_returns, Series.apply. by apply diff_log_scale.
  - unfold parkinson_vol. cbv zeta. by rewrite align_div_scale.
  - unfold garman_klass_vol. cbv zeta. by rewrite !align_div_scale.
Qed.

Lemma scale_invariant_witness :
  log_returns [Fin (2 * 100); Fin (2 * 110)] = log_returns [Fin 100; Fin 110].
Proof.
  refine (proj1 (scale_invariant 2 [] [] [] [100; 110]%R 0 _)). lra.
Defined.

(** ** The sum of the log returns *)
Lemma Rsum_app l1 l2 : Rsum (l1 ++ l2) = (Rsum l1 + Rsum l2)%R.
Proof. induction l1 as [|x l1 IH]; simpl; [lra|]. rewrite IH. lra. Qed.

(** X13.  On positive closes the log returns up to day [n], summed as
    [Series.sum] does (NaN skipped), are the log of the ratio of the close of
    day [n] to the first close. *)
Theorem log_returns_telescope (close : list R) n c0 cn :
  positive close → close !! 0 = Some c0 → close !! n = Some cn →
  Rsum (omap finite_val (take (S n) (log_returns (Fin <$> close)))) =
    (ln cn - ln c0)%R.
Proof.
  intros Hpos H0. revert cn. induction n as [|n IH]; intros cn Hn.
  - destruct close as [|c close]; simplify_eq/=. lra.
  - destruct (lookup_lt_is_Some_2 close n) as [a Ha].
    { apply lookup_lt_Some in Hn. lia. }
    erewrite take_S_r; cycle 1.
    { apply log_returns_S; rewrite list_lookup_fmap; by erewrite ?Ha, ?Hn. }
    rewrite omap_app, Rsum_app, (IH a Ha).
    rewrite !log_Fin by eauto using positive_lookup. simpl. lra.
Qed.

Lemma log_returns_telescope_witness :
  Rsum (omap finite_val (take 3 (log_returns (Fin <$> [100; 110; 121]%R)))) =
    (ln 121 - ln 100)%R.
Proof.
  refine (log_returns_telescope [100; 110; 121]%R 2 100 121 _ eq_refl eq_refl).
  repeat constructor; lra.
Defined.

(** ** Full windows on positive prices *)

Lemma parkinson_term_nonneg h l : (0 <= parkinson_term h l)%R.
Proof.
  unfold parkinson_term. pose proof ln2_pos.
  apply Rmult_le_pos; [|apply pow2_ge_0].
  apply Rlt_le, Rdiv_lt_0_compat; lra.
Qed.

Lemma parkinson_vol_lookup (high low : list R) (window : nat) i :
  length high = length low → positive high → positive low → i < length high →
  parkinson_vol (Fin <$> high) (Fin <$> low) window !! i =
    Some (if decide (window ≤ i + 1)
          then Fin (sqrt (Rsum (take window (drop (i + 1 - window)
                                 (zip_with parkinson_term high low)))))
          else NaN).
Proof.
  intros Hlen Hh Hl Hi. unfold parkinson_vol. cbv zeta.
  rewrite parkinson_coef, parkinson_terms_Fin by done.
  unfold Series.pow_half.
  rewrite list_lookup_fmap, rolling_sum_Fin by (rewrite length_zip_with; lia).
  simpl. case_decide; [|done]. f_equal. apply pow_half_Fin, Rsum_nonneg.
  apply Forall_take, Forall_drop, Forall_forall.
  intros t (h & l & -> & _ & _)%elem_of_zip_with. apply parkinson_term_nonneg.
Qed.

Lemma garman_klass_terms_length open_ high low close :
  length high = length open_ → length low = length open_ →
  length close = length open_ →
  length (garman_klass_terms open_ high low close) = length open_.
Proof. intros. unfold garman_klass_terms. rewrite !length_zip_with. lia. Qed.

Lemma garman_klass_vol_lookup (open_ high low close : list R) (window : nat) i :
  length high = length open_ → length low = length open_ →
  length close = length open_ →
  positive open_ → positive high → positive low → positive close →
  i < length open_ →
  garman_klass_vol (Fin <$> open_) (Fin <$> high) (Fin <$> low) (Fin <$> close)
                   window !! i =
    Some (if decide (window ≤ i + 1)
          then Fin (sqrt (Rmax (Rsum (take window (drop (i + 1 - window)
                           (garman_klass_terms open_ high low close)))) 0))
          else NaN).
Proof.
  intros Hh Hl Hc Po Ph Pl Pc Hi. unfold garman_klass_vol. cbv zeta.
  rewrite garman_klass_coef, garman_klass_terms_Fin by done.
  unfold Series.pow_half, Series.clip.
  rewrite !list_lookup_fmap, rolling_sum_Fin
    by by rewrite garman_klass_terms_length.
  simpl. case_decide; [|done].
  by rewrite clip_lower_Fin, pow_half_Fin by apply Rmax_r.
Qed.

Lemma Rsum_zero l : Forall (λ x, x = 0%R) l → Rsum l = 0%R.
Proof. induction 1 as [|x l -> _ IH]; simpl; [done|]. rewrite IH. lra. Qed.

Lemma Forall_window {A} (P : A → Prop) w i (xs : list A) :
  w ≤ i + 1 →
  (∀ j x, i + 1 - w ≤ j ≤ i → xs !! j = Some x → P x) →
  Forall P (take w (drop (i + 1 - w) xs)).
Proof.
  intros Hw HP. apply Forall_lookup. intros k x Hk.
  apply lookup_take_Some in Hk as [Hk Hkw]. rewrite lookup_drop in Hk.
  apply (HP (i + 1 - w + k)); [lia|done].
Qed.

Lemma parkinson_term_flat h : (0 < h)%R → parkinson_term h h = 0%R.
Proof.
  intros Hh. unfold parkinson_term.
  replace (h / h)%R with 1%R by (field; lra). rewrite ln_1. lra.
Qed.

Lemma garman_klass_term_flat o h : (0 < o)%R → (0 < h)%R → garman_klass_term o h h o = 0%R.
Proof.
  intros Ho Hh. unfold garman_klass_term.
  replace (h / h)%R with 1%R by (field; lra).
  replace (o / o)%R with 1%R by (field; lra). rewrite ln_1. lra.
Qed.

Lemma garman_klass_terms_lookup open_ high low close j t :
  garman_klass_terms open_ high low close !! j = Some t →
  ∃ o h l c, open_ !! j = Some o ∧ high !! j = Some h ∧ low !! j = Some l ∧
             close !! j = Some c ∧ t = garman_klass_term o h l c.
Proof.
  unfold garman_klass_terms.
  intros ([o h] & [l c] & -> & Hoh & Hlc)%lookup_zip_with_Some.
  apply lookup_zip_with_Some in Hoh as (? & ? & [= <- <-] & ? & ?).
  apply lookup_zip_with_Some in Hlc as (? & ? & [= <- <-] & ? & ?).
  exists o, h, l, c. done.
Qed.

(** X14.  On positive prices, when high equals low on every day of a full
    window [parkinson_vol] is 0 at its end, and when moreover close equals
    open on these days [garman_klass_vol] is 0 there too. *)
Theorem flat_window_zero (open_ high low close : list R) (window : nat) i :
  length high = length open_ → length low = length open_ →
  length close = length open_ →
  positive open_ → positive high → positive low → positive close →
  0 < window ≤ i + 1 → i < length open_ →
  (∀ j, i + 1 - window ≤ j ≤ i → high !! j = low !! j) →
  parkinson_vol (Fin <$> high) (Fin <$> low) window !! i = Some (Fin 0) ∧
  ((∀ j, i + 1 - window ≤ j ≤ i → close !! j = open_ !! j) →
   garman_klass_vol (Fin <$> open_) (Fin <$> high) (Fin <$> low) (Fin <$> close)
                    window !! i = Some (Fin 0)).
Proof.
  intros Hh Hl Hc Po Ph Pl Pc Hw Hi Hflat. split.
  - rewrite parkinson_vol_lookup; [|lia|done|done|lia].
    rewrite decide_True by lia. rewrite Rsum_zero; [by rewrite sqrt_0|].
    apply Forall_window; [lia|]. intros j t Hj Ht.
    apply lookup_zip_with_Some in Ht as (h & l & -> & Hhj & Hlj).
    rewrite (Hflat j Hj), Hlj in Hhj. simplify_eq.
    apply parkinson_term_flat. by apply (positive_lookup low j).
  - intros Hbody. rewrite garman_klass_vol_lookup by done.
    rewrite decide_True by lia. rewrite Rsum_zero.
    { rewrite Rmax_left by lra. by rewrite sqrt_0. }
    apply Forall_window; [lia|]. intros j t Hj Ht.
    apply garman_klass_terms_lookup in Ht as (o & h & l & c & Ho & Hhj & Hlj & Hcj & ->).
    rewrite (Hflat j Hj), Hlj in Hhj. rewrite (Hbody j Hj), Ho in Hcj. simplify_eq.
    apply garman_klass_term_flat;
      [by apply (positive_lookup open_ j)|by apply (positive_lookup low j)].
Qed.

Lemma flat_window_zero_witness :
  parkinson_vol (Fin <$> [3; 5; 7]%R) (Fin <$> [2; 5; 7]%R) 2 !! 2 = Some (Fin 0).
Proof.
  assert (∀ a b c : R, (0 < a)%R → (0 < b)%R → (0 < c)%R → positive [a; b; c]) as Hpos
    by (intros; by repeat constructor).
  refine (proj1 (flat_window_zero [2; 5; 7]%R [3; 5; 7]%R [2; 5; 7]%R [2; 5; 7]%R 2 2
            eq_refl eq_refl eq_refl _ _ _ _ _ _ _)); try (apply Hpos; lra).
  - lia.
  - simpl. lia.
  - intros [|[|[|j]]] Hj; simpl in *; try done; lia.
Defined.





(** ** The days of a window *)





(** ** Missing prices *)

(** X11.  A missing price (NaN) on day [j] gives NaN in [ret_log_1d] on day
    [j] and on day [j + 1] (missing Close), NaN in [parkinson_vol] on the days
    [j .. j + window - 1] (missing High or Low) and NaN in [garman_klass_vol]
    on the same days (any of the four prices missing). *)
Theorem missing_price_propagates open_ high low close window i j o h l c :
  open_ !! j = Some o → high !! j = Some h → low !! j = Some l →
  close !! j = Some c →
  (c = NaN →
   log_returns close !! j = Some NaN ∧
   (S j < length close → log_returns close !! S j = Some NaN)) ∧
  (j ≤ i < j + window → i < length high `max` length low →
   h = NaN ∨ l = NaN → parkinson_vol high low window !! i = Some NaN) ∧
  (j ≤ i < j + window →
   i < (length high `max` length low) `max` (length close `max` length open_) →
   o = NaN ∨ h = NaN ∨ l = NaN ∨ c = NaN →
   garman_klass_vol open_ high low close window !! i = Some NaN).
Proof.
  intros Ho Hh Hl Hc.
  assert (∀ a b, a = NaN ∨ b = NaN → finite_val (np.log (F.div a b)) = None) as Hbad.
  { intros a b [-> | ->]; [done|by destruct a]. }
  split_and!.
  - intros ->. split.
    + destruct j as [|k].
      * apply log_returns_0. by destruct close.
      * destruct (lookup_lt_is_Some_2 close k) as [p Hp].
        { apply lookup_lt_Some in Hc. lia. }
        by rewrite (log_returns_S _ _ p NaN).
    + intros Hlen. destruct (lookup_lt_is_Some_2 close (S j)) as [y Hy]; [done|].
      rewrite (log_returns_S _ _ NaN y) by done. simpl. by destruct (np.log y).
  - intros Hij Hi Hnan.
    eapply parkinson_vol_not_finite; [done..|by apply Hbad|done|done].
  - intros Hij Hi Hnan.
    eapply garman_klass_vol_not_finite; [done..| |done|done].
    destruct Hnan as [?|[?|[?|?]]]; [right|left|left|right]; apply Hbad; auto.
Qed.

Lemma missing_price_propagates_witness :
  parkinson_vol [Fin 2; NaN; Fin 2] [Fin 1; Fin 1; Fin 1] 2 !! 2 = Some NaN.
Proof.
  refine (proj1 (proj2 (missing_price_propagates
            [Fin 1; Fin 1; Fin 1] [Fin 2; NaN; Fin 2] [Fin 1; Fin 1; Fin 1]
            [Fin 1; Fin 1; Fin 1] 2 2 1 (Fin 1) NaN (Fin 1) (Fin 1)
            eq_refl eq_refl eq_refl eq_refl)) _ _ _).
  - lia.
  - simpl. lia.
  - by left.
Defined.

(** * Further properties of [add_range_vol_features] *)

(** ** Two runs to instantiate the properties on *)

Lemma unsorted_returns (A : Argsort) :
  @add_range_vol_features A unsorted 20 = Ok (@features_result A 20 unsorted).
Proof.
  apply features_total; [apply well_typed_check; vm_compute; reflexivity|].
  vm_compute. set_solver.
Qed.

Lemma unsorted_labels : NoDup (pd.index unsorted).
Proof. vm_compute. repeat constructor; set_solver. Qed.

Lemma two_instruments_returns (A : Argsort) :
  @add_range_vol_features A two_instruments 20 =
    Ok (@features_result A 20 two_instruments).
Proof.
  apply features_total; [apply well_typed_check; vm_compute; reflexivity|].
  vm_compute. set_solver.
Qed.

Lemma two_instruments_labels : NoDup (pd.index two_instruments).
Proof. vm_compute. repeat constructor; set_solver. Qed.

(** ** The derived columns *)

Lemma price_cell c (rs : list pd.Row) :
  price c <$> rs = (λ v, match v with VNum x => x | _ => NaN end) <$> (pd.cell c <$> rs).
Proof. by rewrite <- list_fmap_compose. Qed.

Lemma setitem_price_ne df c xs c' :
  c ≠ c' → price c' <$> pd.rows (pd.setitem df c xs) = price c' <$> pd.rows df.
Proof. intros Hne. by rewrite !price_cell, setitem_cell_ne. Qed.

Lemma setitem_price_eq df c xs :
  length xs = length (pd.rows df) → price c <$> pd.rows (pd.setitem df c xs) = xs.
Proof.
  intros Hlen. apply list_eq. intros i. simpl.
  rewrite list_lookup_fmap, list_lookup_imap.
  destruct (pd.rows df !! i) as [r|] eqn:Hr; simpl.
  - unfold price, pd.cell. simpl. rewrite lookup_insert_eq. simpl.
    destruct (lookup_lt_is_Some_2 xs i) as [x Hx].
    { rewrite Hlen. by eapply lookup_lt_Some. }
    by rewrite Hx.
  - symmetry. apply lookup_ge_None. rewrite Hlen. by apply lookup_ge_None.
Qed.

Section by_ticker_values.
Context `{Argsort}.

Lemma same_upto_price c rs rs' :
  c ∉ derived → same_upto derived rs rs' → price c <$> rs' = price c <$> rs.
Proof. intros Hc Hs. rewrite !price_cell. f_equal. by eapply same_upto_cell. Qed.

Lemma by_ticker_result_length window x :
  length (pd.rows (by_ticker_result window x)) = length (pd.rows (sorted_by_date x)).
Proof. unfold by_ticker_result. cbv zeta. by rewrite !setitem_length. Qed.

(** The derived columns of what [_by_ticker] returns are the three estimators
    of its own price columns. *)
Lemma by_ticker_result_values window x :
  let rs := pd.rows (by_ticker_result window x) in
  price "ret_log_1d" <$> rs = log_returns (price "Close" <$> rs) ∧
  price "vol_pk" <$> rs =
    parkinson_vol (price "High" <$> rs) (price "Low" <$> rs) window ∧
  price "vol_gk" <$> rs =
    garman_klass_vol (price "Open" <$> rs) (price "High" <$> rs) (price "Low" <$> rs)
                     (price "Close" <$> rs) window.
Proof.
  intros rs. unfold rs.
  assert (∀ c, c ∈ ["Open"; "High"; "Low"; "Close"] →
            price c <$> pd.rows (by_ticker_result window x) =
            price c <$> pd.rows (sorted_by_date x)) as Hsame.
  { intros c Hc. apply same_upto_price; [|apply by_ticker_result_rows].
    repeat (apply elem_of_cons in Hc as [->|Hc]; [compute_done|]).
    by apply elem_of_nil in Hc. }
  rewrite (Hsame "Open"), (Hsame "High"), (Hsame "Low"), (Hsame "Close")
    by compute_done.
  clear Hsame.
  unfold by_ticker_result. cbv zeta.
  set (s := sorted_by_date x). split_and!.
  - rewrite !setitem_price_ne by done. apply setitem_price_eq.
    by rewrite log_returns_length, length_fmap.
  - rewrite !setitem_price_ne by done. apply setitem_price_eq.
    rewrite parkinson_vol_length, !length_fmap, setitem_length. lia.
  - apply setitem_price_eq.
    rewrite garman_klass_vol_length, !length_fmap, !setitem_length. lia.
Qed.

Lemma features_partition window df out t :
  NoDup (pd.index df) → add_range_vol_features df window = Ok out →
  partition t (pd.rows out) =
    if decide (t ∈ group_keys df)
    then pd.rows (by_ticker_result window (group df t)) else [].
Proof.
  intros Hnd [_ ->]%features_Ok. case_decide.
  - by apply features_result_partition.
  - by apply features_result_partition_none.
Qed.
End by_ticker_values.

(** X1.  On a table with unique row labels, the derived columns of the rows
    of an instrument in the output are the three estimators of the price
    columns of these same rows, in their output order: [ret_log_1d] is
    [log_returns] of their Close, [vol_pk] is [parkinson_vol] of their High
    and Low, [vol_gk] is [garman_klass_vol] of their Open, High, Low and
    Close.  The rows of the other instruments play no part. *)
Theorem derived_columns `{Argsort} df window out t :
  NoDup (pd.index df) → add_range_vol_features df window = Ok out →
  let rs := partition t (pd.rows out) in
  price "ret_log_1d" <$> rs = log_returns (price "Close" <$> rs) ∧
  price "vol_pk" <$> rs =
    parkinson_vol (price "High" <$> rs) (price "Low" <$> rs) window ∧
  price "vol_gk" <$> rs =
    garman_klass_vol (price "Open" <$> rs) (price "High" <$> rs) (price "Low" <$> rs)
                     (price "Close" <$> rs) window.
Proof.
  intros Hnd Hout rs. unfold rs. rewrite (features_partition _ _ _ _ Hnd Hout).
  case_decide; [apply by_ticker_result_values|done].
Qed.

Lemma derived_columns_witness :
  let rs := partition "BBB" (pd.rows (@features_result stable_sort 20 unsorted)) in
  price "ret_log_1d" <$> rs = log_returns (price "Close" <$> rs).
Proof.
  exact (proj1 (@derived_columns stable_sort unsorted 20 _ "BBB" unsorted_labels
                  (unsorted_returns stable_sort))).
Defined.

(** X6.  The warm-up is per instrument: in the output for a table with
    unique row labels, the first row of every instrument has NaN in
    [ret_log_1d], and each of its first [window - 1] rows has NaN in [vol_pk]
    and [vol_gk], wherever the rows of the instrument are in the table. *)
Theorem warm_up_per_instrument `{Argsort} df window out t i r :
  NoDup (pd.index df) → add_range_vol_features df window = Ok out →
  partition t (pd.rows out) !! i = Some r →
  (i = 0 → price "ret_log_1d" r = NaN) ∧
  (i + 1 < window → price "vol_pk" r = NaN ∧ price "vol_gk" r = NaN).
Proof.
  intros Hnd Hout Hr. rewrite (features_partition _ _ _ _ Hnd Hout) in Hr.
  case_decide; [|done].
  destruct (by_ticker_result_values window (group df t)) as (Hret & Hpk & Hgk).
  set (rs := pd.rows (by_ticker_result window (group df t))) in *.
  assert (∀ c xs, price c <$> rs = xs → xs !! i = Some (price c r)) as Hcol.
  { intros c xs <-. by rewrite list_lookup_fmap, Hr. }
  assert (i < length rs) as Hi by by eapply lookup_lt_Some.
  split.
  - intros ->. apply Hcol in Hret. rewrite log_returns_0 in Hret; [congruence|].
    by destruct rs.
  - intros Hw. apply Hcol in Hpk, Hgk.
    rewrite parkinson_vol_early in Hpk by (rewrite ?length_fmap; lia).
    rewrite garman_klass_vol_early in Hgk by (rewrite ?length_fmap; lia).
    split; congruence.
Qed.

Lemma unsorted_first_row :
  ∃ r, partition "AAA" (pd.rows (@features_result stable_sort 20 unsorted)) !! 0 = Some r.
Proof. eexists. vm_compute. reflexivity. Qed.

Lemma warm_up_per_instrument_witness :
  ∃ r, partition "AAA" (pd.rows (@features_result stable_sort 20 unsorted)) !! 0 = Some r ∧
       price "ret_log_1d" r = NaN ∧ price "vol_pk" r = NaN ∧ price "vol_gk" r = NaN.
Proof.
  destruct unsorted_first_row as [r Hr]. exists r. split; [exact Hr|].
  destruct (@warm_up_per_instrument stable_sort unsorted 20 _ "AAA" 0 r unsorted_labels
              (unsorted_returns stable_sort) Hr) as [H0 Hw].
  split; [by apply H0|apply Hw; lia].
Defined.

(** ** Columns of the output *)

Section columns.
Context `{Argsort}.

Lemma add_column_step (cols l : list string) d :
  d ∉ l →
  (if decide (d ∈ cols ++ l) then cols ++ l else (cols ++ l) ++ [d]) =
    cols ++ (l ++ filter (λ c, c ∉ cols) [d]).
Proof.
  intros Hl. rewrite filter_cons, filter_nil.
  destruct (decide (d ∈ cols)) as [Hd|Hd].
  - rewrite decide_True by (apply elem_of_app; by left).
    rewrite decide_False by (by intros ?). by rewrite app_nil_r.
  - rewrite decide_False by (rewrite elem_of_app; naive_solver).
    rewrite decide_True by done. by rewrite app_assoc.
Qed.

Lemma by_ticker_result_columns_eq window x :
  pd.columns (by_ticker_result window x) =
    pd.columns x ++ filter (λ c, c ∉ pd.columns x) derived.
Proof.
  unfold by_ticker_result, derived. cbv zeta. cbn [pd.setitem pd.columns].
  change (pd.columns (sorted_by_date x)) with (pd.columns x).
  set (cols := pd.columns x). set (new := filter (λ c, c ∉ cols)).
  assert (∀ a b : string, a ≠ b → a ∉ new [b]) as Hnew.
  { intros a b Hab [_ Hin]%list_elem_of_filter. by apply list_elem_of_singleton in Hin. }
  assert ((if decide ("ret_log_1d" ∈ cols) then cols else cols ++ ["ret_log_1d"]) =
          cols ++ new ["ret_log_1d"]) as ->.
  { pose proof (add_column_step cols [] "ret_log_1d") as Hstep.
    rewrite !app_nil_r in Hstep. apply Hstep, not_elem_of_nil. }
  rewrite (add_column_step cols _ "vol_pk") by by apply Hnew.
  rewrite (add_column_step cols _ "vol_gk")
    by (rewrite elem_of_app; intros [Hc|Hc]; revert Hc; by apply Hnew).
  fold new. f_equal.
  change ["ret_log_1d"; "vol_pk"; "vol_gk"] with (["ret_log_1d"] ++ ["vol_pk"] ++ ["vol_gk"]).
  unfold new. by rewrite !filter_app, app_assoc.
Qed.

Lemma group_keys_nil df : group_keys df = [] ↔ with_ticker (pd.rows df) = [].
Proof.
  split; [apply no_groups|]. intros Hw.
  destruct (group_keys df) as [|t ts] eqn:Hks; [done|].
  assert (t ∈ group_keys df) as (r & Hr & Ht)%group_keys_elem by (rewrite Hks; by left).
  assert (r ∈ with_ticker (pd.rows df)) as Hin.
  { apply list_elem_of_filter. split; [by rewrite Ht|done]. }
  rewrite Hw in Hin. by apply elem_of_nil in Hin.
Qed.

Lemma features_result_columns_eq window df :
  pd.columns (features_result window df) =
    match group_keys df with
    | [] => pd.columns df
    | _ => pd.columns df ++ filter (λ c, c ∉ pd.columns df) derived
    end.
Proof.
  unfold features_result, pd.wrap_applied_output, results.
  destruct (group_keys df) as [|t ts]; [done|]. csimpl.
  assert (pd.columns (pd.concat
            (by_ticker_result window (group df t)
             :: ((λ t, by_ticker_result window (group df t)) <$> ts))) =
          pd.columns df ++ filter (λ c, c ∉ pd.columns df) derived) as Hres.
  { exact (by_ticker_result_columns_eq window (group df t)). }
  destruct (mutated window df); [done|].
  case_bool_decide; [done|]. unfold pd.reindex. by case_decide.
Qed.
End columns.

(** X2.  The columns of the output: the columns of the input when no row
    has a Ticker; otherwise the columns of the input followed by those of
    [ret_log_1d], [vol_pk], [vol_gk], in this order, that the input does not
    have already. *)
Theorem output_columns `{Argsort} df window out :
  add_range_vol_features df window = Ok out →
  pd.columns out =
    match with_ticker (pd.rows df) with
    | [] => pd.columns df
    | _ => pd.columns df ++ filter (λ c, c ∉ pd.columns df) derived
    end.
Proof.
  intros [_ ->]%features_Ok. rewrite features_result_columns_eq.
  pose proof (group_keys_nil df) as Hnil.
  destruct (group_keys df), (with_ticker (pd.rows df)); naive_solver.
Qed.

Lemma output_columns_witness :
  pd.columns (@features_result stable_sort 20 unsorted) =
    match with_ticker (pd.rows unsorted) with
    | [] => pd.columns unsorted
    | _ => pd.columns unsorted ++ filter (λ c, c ∉ pd.columns unsorted) derived
    end.
Proof. exact (@output_columns stable_sort unsorted 20 _ (unsorted_returns stable_sort)). Defined.

(** ** When the call returns *)

Lemma first_missing_None df :
  first_missing df = None ↔ ["date"; "Close"; "High"; "Low"; "Open"] ⊆ pd.columns df.
Proof.
  unfold first_missing. split.
  - intros Hnone c Hc. apply list_elem_of_In in Hc.
    pose proof (find_none _ _ Hnone c Hc) as Hf.
    apply bool_decide_eq_false in Hf. by apply dec_stable.
  - intros Hsub. cbn [List.find].
    rewrite !bool_decide_eq_false_2; [done|..]; intros Hc; apply Hc, Hsub; set_solver.
Qed.

(** X3.  On a well-typed table the call returns a table exactly when the
    table has the Ticker column and either no row has a Ticker or all the
    required columns are there. *)
Theorem returns_iff `{Argsort} df window :
  well_typed df →
  (∃ out, add_range_vol_features df window = Ok out) ↔
  "Ticker" ∈ pd.columns df ∧
  (with_ticker (pd.rows df) = [] ∨ required ⊆ pd.columns df).
Proof.
  intros Hty. rewrite features_run by done.
  pose proof (group_keys_nil df) as Hnil.
  pose proof (first_missing_None df) as Hfm.
  case_decide as Ht; [|naive_solver].
  destruct (group_keys df) as [|t ts].
  { split; [|by eauto]. intros _. split; [done|]. left. by apply Hnil. }
  destruct (first_missing df) as [c|].
  - split; [by intros [? ?]|]. intros [_ [Hw|Hreq]].
    + by apply Hnil in Hw.
    + assert (@None string = Some c) as Habs; [|done].
      symmetry. apply Hfm. intros c' Hc'. apply Hreq.
      unfold required. set_solver.
  - split; [|by eauto]. intros _. split; [done|]. right.
    destruct Hfm as [Hfm _]. specialize (Hfm eq_refl).
    unfold required. intros c [->|Hc]%elem_of_cons; [done|]. apply Hfm. set_solver.
Qed.

Lemma returns_iff_witness :
  (∃ out, @add_range_vol_features stable_sort unsorted 20 = Ok out) ↔
  "Ticker" ∈ pd.columns unsorted ∧
  (with_ticker (pd.rows unsorted) = [] ∨ required ⊆ pd.columns unsorted).
Proof.
  apply (@returns_iff stable_sort unsorted 20).
  apply well_typed_check. vm_compute. reflexivity.
Defined.

(** ** Keys that are in order already *)

Lemma date_lt_split keys :
  Sorted date_lt keys →
  ∃ zs m, keys = (Some <$> zs) ++ replicate m None ∧ Sorted Z.lt zs.
Proof.
  induction 1 as [|k ks _ (zs & m & -> & Hzs) Hhd].
  { exists [], 0. split; [done|constructor]. }
  destruct k as [z|].
  - exists (z :: zs), m. split; [done|]. constructor; [done|].
    destruct zs as [|z0 zs]; [constructor|]. constructor.
    by apply HdRel_inv in Hhd.
  - destruct zs as [|z0 zs]; [|by apply HdRel_inv in Hhd].
    exists [], (S m). split; [done|constructor].
Qed.

Lemma present_split (zs : list Z) m :
  pd.present ((Some <$> zs) ++ replicate m None) = zs.
Proof.
  unfold pd.present. rewrite omap_app.
  assert (omap (λ k : option Z, k) (replicate m None) = []) as ->.
  { induction m; [done|]. by csimpl. }
  rewrite app_nil_r. induction zs; csimpl; [done|]. by f_equal.
Qed.

Lemma positions_split (zs : list Z) m :
  pd.positions (λ k, k ≠ None) ((Some <$> zs) ++ replicate m None) = seq 0 (length zs) ∧
  pd.positions (λ k, k = None) ((Some <$> zs) ++ replicate m None) =
    seq (length zs) m.
Proof.
  unfold pd.positions.
  rewrite length_app, length_fmap, length_replicate, seq_app, !filter_app. simpl.
  assert (∀ i, i ∈ seq 0 (length zs) →
            ∃ z, ((Some <$> zs) ++ replicate m None) !! i = Some (Some z)) as Hl.
  { intros i Hi%elem_of_seq.
    destruct (lookup_lt_is_Some_2 zs i) as [z Hz]; [lia|]. exists z.
    rewrite lookup_app_l by (rewrite length_fmap; lia).
    by rewrite list_lookup_fmap, Hz. }
  assert (∀ i, i ∈ seq (length zs) m →
            ((Some <$> zs) ++ replicate m None) !! i = Some None) as Hr.
  { intros i Hi%elem_of_seq.
    rewrite lookup_app_r by (rewrite length_fmap; lia).
    apply lookup_replicate_2. rewrite length_fmap. lia. }
  split.
  - rewrite (filter_all _ (seq 0 _)), (filter_none _ (seq (length zs) _)).
    + by rewrite app_nil_r.
    + intros i Hi. rewrite (Hr i Hi). simpl. naive_solver.
    + intros i Hi. destruct (Hl i Hi) as [z ->]. done.
  - rewrite (filter_none _ (seq 0 _)), (filter_all _ (seq (length zs) _)).
    + done.
    + intros i Hi. by rewrite (Hr i Hi).
    + intros i Hi. destruct (Hl i Hi) as [z ->]. done.
Qed.

Lemma omap_lookup_Forall2 {A} (l : list A) (idx : list nat) :
  Forall (λ i, i < length l) idx →
  Forall2 (λ i x, l !! i = Some x) idx (omap (l !!.) idx).
Proof.
  induction 1 as [|i idx Hi _ IH]; csimpl; [constructor|].
  destruct (lookup_lt_is_Some_2 l i Hi) as [x Hx]. rewrite Hx. simpl.
  by constructor.
Qed.

Lemma Sorted_lt_le zs : Sorted Z.lt zs → Sorted Z.le zs ∧ NoDup zs.
Proof.
  intros Hs%Sorted_StronglySorted; [|apply _].
  induction Hs as [|z zs _ [IHs IHn] Hz]; [split; constructor|]. split.
  - constructor; [done|]. destruct Hz as [|z0 zs' Hz0 _]; constructor. lia.
  - constructor; [|done]. intros Hin. eapply Forall_forall in Hz; [|done]. lia.
Qed.

Section sorted_keys.
Context `{Argsort}.

Lemma argsort_sorted_id zs : Sorted Z.lt zs → argsort zs = seq 0 (length zs).
Proof.
  intros [Hle Hnd]%Sorted_lt_le.
  pose proof (argsort_perm zs) as Hperm.
  assert (Forall (λ i, i < length zs) (argsort zs)) as Hrange.
  { rewrite Hperm. apply Forall_forall. intros i Hi%elem_of_seq. lia. }
  pose proof (omap_lookup_Forall2 zs _ Hrange) as HF.
  assert (omap (zs !!.) (argsort zs) = zs) as Heq.
  { apply (Sorted_unique Z.le); [apply argsort_sorted|done|].
    by apply omap_lookup_perm. }
  rewrite Heq in HF.
  apply list_eq. intros j.
  destruct (decide (j < length zs)) as [Hj|Hj].
  - rewrite lookup_seq_lt by done. simpl.
    destruct (lookup_lt_is_Some_2 zs j Hj) as [z Hz].
    destruct (Forall2_lookup_r _ _ _ _ _ HF Hz) as (i & Hi & Hiz).
    rewrite Hi. f_equal. by eapply NoDup_lookup.
  - rewrite !lookup_ge_None_2; [done|rewrite length_seq; lia|].
    rewrite (Forall2_length _ _ _ HF). lia.
Qed.

Lemma nargsort_sorted_id keys :
  Sorted date_lt keys → pd.nargsort keys = seq 0 (length keys).
Proof.
  intros (zs & m & -> & Hzs)%date_lt_split.
  unfold pd.nargsort. cbv zeta.
  destruct (positions_split zs m) as [-> ->].
  rewrite present_split, argsort_sorted_id by done.
  assert (omap (seq 0 (length zs) !!.) (seq 0 (length zs)) = seq 0 (length zs)) as ->.
  { pose proof (omap_lookup_seq (seq 0 (length zs))) as Hs. by rewrite length_seq in Hs. }
  by rewrite length_app, length_fmap, length_replicate, seq_app.
Qed.

Lemma sorted_by_date_id x :
  Sorted date_lt (date_key <$> pd.rows x) → sorted_by_date x = x.
Proof.
  intros Hs. unfold sorted_by_date, pd.take.
  rewrite nargsort_sorted_id, length_fmap, omap_lookup_seq by done.
  by destruct x.
Qed.

(** Rows in date order already are not moved. *)
Lemma sorted_groups_not_mutated window df :
  (∀ t, Sorted date_lt (date_key <$> partition t (pd.rows df))) →
  mutated window df = false.
Proof.
  intros Hs. unfold mutated, results. apply bool_decide_eq_false_2.
  intros Hne. apply Hne. rewrite <- !list_fmap_compose.
  apply list_fmap_ext. intros _ t _. simpl.
  rewrite by_ticker_result_index, sorted_by_date_id; [done|]. apply Hs.
Qed.

Lemma not_mutated_rows window df :
  NoDup (pd.index df) → mutated window df = false →
  same_upto derived (with_ticker (pd.rows df)) (pd.rows (features_result window df)).
Proof.
  intros Hnd Hm. pose proof (not_mutated_index window df Hm Hnd) as Hidx.
  apply Forall2_same_length_lookup. split.
  { by rewrite features_result_length. }
  intros i r o Hr Ho.
  assert (pd.label o = pd.label r) as Hl.
  { apply (f_equal (.!! i)) in Hidx. unfold pd.index in Hidx.
    rewrite !list_lookup_fmap, Hr, Ho in Hidx. by simplify_eq/=. }
  split; [done|].
  destruct (features_result_origin window df o) as (r0 & Hr0 & Hl0 & _ & _ & Hc).
  { by eapply list_elem_of_lookup_2. }
  assert (r0 = r) as ->; [|done].
  eapply (label_inj (pd.rows df)); [done..| |congruence].
  apply list_elem_of_lookup_2 in Hr. by apply list_elem_of_filter in Hr as [_ ?].
Qed.
End sorted_keys.

(** X4.  On a table with unique row labels in which the rows of every
    instrument are in strictly ascending date order already (missing dates
    last), the output has the rows of the input that have a Ticker, in the
    order of the input, each with its label and its cells outside the three
    derived columns.  This holds for every sorting algorithm. *)
Theorem sorted_input_keeps_order `{Argsort} df window out :
  NoDup (pd.index df) →
  (∀ t, Sorted date_lt (date_key <$> partition t (pd.rows df))) →
  add_range_vol_features df window = Ok out →
  same_upto derived (with_ticker (pd.rows df)) (pd.rows out).
Proof.
  intros Hnd Hs [_ ->]%features_Ok.
  apply not_mutated_rows; [done|]. by apply sorted_groups_not_mutated.
Qed.

Lemma sorted_input_keeps_order_witness :
  same_upto derived (with_ticker (pd.rows two_instruments))
            (pd.rows (@features_result unstable_sort 20 two_instruments)).
Proof.
  refine (@sorted_input_keeps_order unstable_sort two_instruments 20 _
            two_instruments_labels _ (two_instruments_returns unstable_sort)).
  intros t. unfold partition, two_instruments. cbn [pd.rows].
  rewrite !filter_cons, filter_nil.
  repeat match goal with
         | |- context [decide (ticker ?r = Some t)] =>
             let Ht := fresh "Ht" in
             destruct (decide (ticker r = Some t)) as [Ht|_];
             [vm_compute in Ht|]
         end; try congruence; repeat constructor.
Defined.

(** ** What a call that returns says about its input *)

Lemma traverse_fmap_Ok_inv {A B C} (k : B → result C) (g : A → B) (h : A → C) l cs :
  (∀ a c, k (g a) = Ok c → c = h a) →
  traverse k (g <$> l) = Ok cs → Forall (λ a, k (g a) = Ok (h a)) l.
Proof.
  intros Hk. revert cs. induction l as [|a l IH]; intros cs; csimpl; [constructor|].
  unfold mbind, result_bind.
  destruct (k (g a)) as [c|] eqn:Ha; [|done].
  destruct (traverse k (g <$> l)) as [cs'|] eqn:Hl; [|done].
  intros _. constructor; [|by eapply IH].
  by rewrite (Hk a c Ha) in Ha.
Qed.

Section returns.
Context `{Argsort}.

Local Ltac step H :=
  match type of H with
  | (match ?m with Ok _ => _ | Err _ => _ end) = Ok _ =>
      let E := fresh "E" in destruct m eqn:E; [|discriminate H]
  end.

Lemma by_ticker_Ok_typed window x y :
  _by_ticker window x = Ok y →
  ["date"; "Close"; "High"; "Low"; "Open"] ⊆ pd.columns x ∧
  Forall typed_prices (pd.rows x).
Proof.
  unfold _by_ticker, mbind, result_bind, fmap, result_fmap. intros Hy.
  destruct (pd.sort_values x "date") as [s|] eqn:Hs; [|done].
  assert ("date" ∈ pd.columns x ∧
          Forall (λ r, pd.to_time (pd.cell "date" r) = Ok (date_key r)) (pd.rows x))
    as [Hdate Hdates].
  { unfold pd.sort_values, mbind, result_bind in Hs.
    destruct (pd.getitem x "date") as [k|] eqn:Hk; [|done].
    apply getitem_Ok in Hk as [? ->].
    destruct (traverse _ _) as [keys|] eqn:Hkeys; [|done].
    split; [done|]. eapply traverse_fmap_Ok_inv; [|done].
    intros r k. apply to_time_Ok. }
  apply sort_values_Ok in Hs as ->. unfold pd.copy in Hy.
  repeat first [rewrite getitem_setitem_ne in Hy by done | step Hy].
  repeat match goal with
         | E : pd.getitem _ _ = Ok _ |- _ => apply getitem_Ok in E as [? ->]
         end.
  assert (∀ c xs, pd.as_float (pd.cell c <$> pd.rows (sorted_by_date x)) = Ok xs →
            Forall (λ r, pd.to_f64 (pd.cell c r) = Ok (price c r)) (pd.rows x)) as Hcol.
  { intros c xs Hxs. rewrite <- sorted_by_date_perm.
    eapply traverse_fmap_Ok_inv; [|done]. intros r v. apply to_f64_Ok. }
  repeat match goal with
         | E : pd.as_float _ = Ok _ |- _ => apply Hcol in E
         end.
  split.
  - change (pd.columns (sorted_by_date x)) with (pd.columns x) in *. set_solver.
  - apply Forall_forall. intros r Hr. split.
    + by eapply (proj1 (Forall_forall _ _) Hdates).
    + intros c Hc.
      repeat (apply elem_of_cons in Hc as [->|Hc];
              [match goal with
               | E : Forall (λ r, pd.to_f64 (pd.cell ?c r) = _) _ |- pd.to_f64 (pd.cell ?c _) = _ =>
                   by eapply (proj1 (Forall_forall _ _) E)
               end|]).
      by apply elem_of_nil in Hc.
Qed.

Lemma traverse_Ok_elem {A B} (k : A → result B) l bs a :
  traverse k l = Ok bs → a ∈ l → ∃ b, k a = Ok b.
Proof.
  intros HF%traverse_Ok (i & Hi)%list_elem_of_lookup.
  destruct (Forall2_lookup_l _ _ _ _ _ HF Hi) as (b & _ & Hb). eauto.
Qed.

(** When the call returns, the rows that have an instrument are rows of the
    data model, and if there is one the table has the required columns. *)
Lemma features_Ok_typed df window out :
  add_range_vol_features df window = Ok out →
  Forall typed_row (with_ticker (pd.rows df)) ∧
  (with_ticker (pd.rows df) ≠ [] → required ⊆ pd.columns df).
Proof.
  unfold add_range_vol_features. rewrite groupby_apply_ticker.
  case_decide as Hticker; [|done]. unfold mbind, result_bind.
  destruct (traverse pd.to_str _) as [keys|] eqn:Hkeys; [|done].
  destruct (traverse (_by_ticker window) _) as [vs|] eqn:Hvs; [|done]. intros _.
  assert (∀ t, t ∈ group_keys df →
            ["date"; "Close"; "High"; "Low"; "Open"] ⊆ pd.columns df ∧
            Forall typed_prices (partition t (pd.rows df))) as Hgroup.
  { intros t Ht.
    destruct (traverse_Ok_elem _ _ _ (group df t) Hvs) as [v Hv].
    { by apply list_elem_of_fmap_2. }
    by apply by_ticker_Ok_typed in Hv. }
  split.
  - apply Forall_forall. intros r [Hrt Hr]%list_elem_of_filter.
    destruct (ticker r) as [t|] eqn:Ht; [|done].
    destruct (Hgroup t) as [_ Hrows].
    { apply group_keys_elem. eauto. }
    assert (typed_prices r) as [Hd Hp].
    { eapply (proj1 (Forall_forall _ _) Hrows). by apply list_elem_of_filter. }
    split_and!; [done| |done]. rewrite Ht.
    eapply traverse_fmap_Ok_inv in Hkeys; [|intros r' k'; apply to_str_Ok].
    rewrite <- Ht. by eapply (proj1 (Forall_forall _ _) Hkeys).
  - intros Hne. destruct (group_keys df) as [|t ts] eqn:Hks.
    { by apply group_keys_nil in Hks. }
    destruct (Hgroup t) as [Hcols _]; [by left|].
    unfold required. set_solver.
Qed.

Lemma typed_row_ext r r' :
  (∀ c, c ∉ derived → pd.cells r' !! c = pd.cells r !! c) →
  typed_row r → typed_row r'.
Proof.
  intros Hc. unfold typed_row, date_key, ticker, price, pd.cell.
  intros (Hd & Ht & Hp). split_and!.
  - rewrite Hc by (unfold derived; set_solver). done.
  - rewrite Hc by (unfold derived; set_solver). done.
  - intros c Hin. rewrite Hc by (unfold derived; set_solver). by apply Hp.
Qed.

Lemma features_result_typed df window :
  Forall typed_row (with_ticker (pd.rows df)) → well_typed (features_result window df).
Proof.
  intros Hty. apply Forall_forall.
  intros r' (r & Hr & _ & _ & Hrt & Hc)%features_result_origin.
  apply (typed_row_ext r r' Hc).
  eapply (proj1 (Forall_forall _ _) Hty). by apply list_elem_of_filter.
Qed.
End returns.

(** ** The call on its own output *)

Lemma frame_eq (a b : pd.DataFrame) :
  pd.columns a = pd.columns b → pd.rows a = pd.rows b → a = b.
Proof. destruct a, b. simpl. by intros -> ->. Qed.

Lemma setitem_id df c xs :
  c ∈ pd.columns df →
  Forall (λ r, ∃ x, pd.cells r !! c = Some (VNum x)) (pd.rows df) →
  price c <$> pd.rows df = xs →
  pd.setitem df c xs = df.
Proof.
  intros Hc Hcells <-. apply frame_eq; simpl.
  - by rewrite decide_True.
  - apply list_eq. intros i. rewrite list_lookup_imap.
    destruct (pd.rows df !! i) as [r|] eqn:Hr; [|done]. simpl. f_equal.
    rewrite list_lookup_fmap, Hr. simpl.
    destruct (Forall_lookup_1 _ _ _ _ Hcells Hr) as [x Hx].
    unfold price, pd.cell. rewrite Hx. simpl.
    rewrite insert_id by done. by destruct r.
Qed.

Lemma setitem_derived_cell df c xs c' :
  Forall (λ r, ∃ x, pd.cells r !! c' = Some (VNum x)) (pd.rows df) ∨ c' = c →
  Forall (λ r, ∃ x, pd.cells r !! c' = Some (VNum x)) (pd.rows (pd.setitem df c xs)).
Proof.
  intros Hc. apply Forall_lookup. intros i r' Hr'. simpl in Hr'.
  rewrite list_lookup_imap in Hr'.
  destruct (pd.rows df !! i) as [r|] eqn:Hr; simplify_eq/=.
  destruct (decide (c' = c)) as [->|Hne].
  - rewrite lookup_insert_eq. eauto.
  - rewrite lookup_insert_ne by done. destruct Hc as [Hc|?]; [|done].
    by eapply (Forall_lookup_1 _ _ _ _ Hc).
Qed.

Lemma Sorted_le_lt zs : Sorted Z.le zs → NoDup zs → Sorted Z.lt zs.
Proof.
  intros Hs%Sorted_StronglySorted; [|apply _].
  induction Hs as [|z zs _ IH Hz]; intros Hnd; [constructor|].
  apply NoDup_cons in Hnd as [Hz' Hnd]. constructor; [by apply IH|].
  destruct Hz as [|z0 zs' Hz0 _]; constructor.
  assert (z ≠ z0) by (intros ->; apply Hz'; by left). lia.
Qed.

Lemma sorted_lt_then_missing (zs : list Z) n :
  Sorted Z.lt zs → Sorted date_lt ((Some <$> zs) ++ replicate n None).
Proof.
  induction 1 as [|z zs _ IH Hhd]; csimpl.
  - induction n as [|n IHn]; simpl; constructor; [done|].
    destruct n; constructor; done.
  - constructor; [done|].
    destruct Hhd; csimpl; [destruct n|]; constructor; done.
Qed.

Lemma fmap_omap_lookup {A B} (f : A → B) (l : list A) (idx : list nat) :
  f <$> omap (l !!.) idx = omap ((f <$> l) !!.) idx.
Proof.
  induction idx as [|i idx IH]; csimpl; [done|].
  rewrite list_lookup_fmap. destruct (l !! i); csimpl; by rewrite IH.
Qed.

Lemma present_date_keys (rs : list pd.Row) :
  pd.present (date_key <$> rs) = omap date_key rs.
Proof.
  unfold pd.present. induction rs as [|r rs IH]; csimpl; [done|].
  destruct (date_key r); csimpl; by rewrite IH.
Qed.

Section rerun.
Context `{Argsort}.

Lemma sorted_by_date_strictly x :
  NoDup (omap date_key (pd.rows x)) →
  Sorted date_lt (date_key <$> pd.rows (sorted_by_date x)).
Proof.
  intros Hnd. unfold sorted_by_date, pd.take. simpl.
  rewrite fmap_omap_lookup, nargsort_keys. apply sorted_lt_then_missing.
  rewrite present_date_keys. apply Sorted_le_lt; [apply argsort_sorted|].
  rewrite omap_lookup_perm; [done|]. apply argsort_perm.
Qed.
End rerun.

Lemma reindex_self (d : list pd.Row) (ls : list pd.Row) :
  NoDup (pd.label <$> d) → ls ⊆ d →
  (λ l, default {| pd.label := l; pd.cells := ∅ |}
          (List.find (λ r, bool_decide (pd.label r = l)) d)) <$> (pd.label <$> ls) = ls.
Proof.
  intros Hnd. induction ls as [|r ls IH]; intros Hsub; [done|]. csimpl.
  rewrite find_label_self by (done || apply Hsub; by left). simpl. f_equal.
  apply IH. intros r' ?. apply Hsub. by right.
Qed.

Section rerun.
Context `{Argsort}.

Lemma by_ticker_result_derived_cells window x c :
  c ∈ derived →
  Forall (λ r, ∃ v, pd.cells r !! c = Some (VNum v))
         (pd.rows (by_ticker_result window x)).
Proof.
  intros Hc. unfold by_ticker_result. cbv zeta. unfold derived in Hc.
  apply elem_of_cons in Hc as [->|Hc].
  { do 2 (apply setitem_derived_cell; left). apply setitem_derived_cell. by right. }
  apply elem_of_cons in Hc as [->|Hc].
  { apply setitem_derived_cell; left. apply setitem_derived_cell. by right. }
  apply list_elem_of_singleton in Hc as ->. apply setitem_derived_cell. by right.
Qed.

Lemma by_ticker_result_derived_columns window x c :
  c ∈ derived → c ∈ pd.columns (by_ticker_result window x).
Proof.
  intros Hc. rewrite by_ticker_result_columns_eq, elem_of_app, list_elem_of_filter.
  destruct (decide (c ∈ pd.columns x)); [by left|by right].
Qed.

(** A frame in date order whose derived columns hold the estimators of its
    own prices is what [_by_ticker] returns for it. *)
Lemma by_ticker_result_fixed window y :
  sorted_by_date y = y →
  (∀ c, c ∈ derived → c ∈ pd.columns y) →
  (∀ c, c ∈ derived → Forall (λ r, ∃ v, pd.cells r !! c = Some (VNum v)) (pd.rows y)) →
  price "ret_log_1d" <$> pd.rows y = log_returns (price "Close" <$> pd.rows y) →
  price "vol_pk" <$> pd.rows y =
    parkinson_vol (price "High" <$> pd.rows y) (price "Low" <$> pd.rows y) window →
  price "vol_gk" <$> pd.rows y =
    garman_klass_vol (price "Open" <$> pd.rows y) (price "High" <$> pd.rows y)
      (price "Low" <$> pd.rows y) (price "Close" <$> pd.rows y) window →
  by_ticker_result window y = y.
Proof.
  intros Hs Hcols Hcells Hret Hpk Hgk.
  assert (∀ c, c ∈ derived → ∀ xs, price c <$> pd.rows y = xs → pd.setitem y c xs = y)
    as Hid.
  { intros c Hc xs Hxs. apply setitem_id; auto. }
  unfold by_ticker_result. cbv zeta. rewrite Hs.
  rewrite (Hid "ret_log_1d") by (done || unfold derived; set_solver).
  rewrite (Hid "vol_pk") by (done || unfold derived; set_solver).
  apply Hid; [unfold derived; set_solver|done].
Qed.

(** What [_by_ticker] returned it returns again. *)
Lemma by_ticker_result_idem window x :
  NoDup (omap date_key (pd.rows x)) →
  by_ticker_result window (by_ticker_result window x) = by_ticker_result window x.
Proof.
  intros Hnd.
  destruct (by_ticker_result_values window x) as (Hret & Hpk & Hgk).
  apply by_ticker_result_fixed; try done.
  - apply sorted_by_date_id.
    rewrite (same_upto_date_key _ _ (by_ticker_result_rows window x)).
    by apply sorted_by_date_strictly.
  - intros c. apply by_ticker_result_derived_columns.
  - intros c. apply by_ticker_result_derived_cells.
Qed.

Section output.
Context (window : nat) (df : pd.DataFrame).
Hypothesis Hnd : NoDup (pd.index df).
Let out := features_result window df.

Lemma output_index_perm : pd.index out ≡ₚ pd.label <$> with_ticker (pd.rows df).
Proof.
  unfold out, pd.index. rewrite features_result_rows_perm.
  apply results_index_perm.
Qed.

Lemma output_index_NoDup : NoDup (pd.index out).
Proof. rewrite output_index_perm. by apply with_ticker_NoDup. Qed.

Lemma output_with_ticker : with_ticker (pd.rows out) = pd.rows out.
Proof.
  apply filter_all. intros r (r0 & _ & _ & -> & ? & _)%features_result_origin. done.
Qed.

Lemma output_group_keys : group_keys out = group_keys df.
Proof.
  apply (StronglySorted_unique String.le); [apply group_keys_sorted..|].
  apply NoDup_Permutation; [apply group_keys_NoDup..|].
  intros t. rewrite !group_keys_elem. split.
  - intros (r & (r0 & Hr0 & _ & Ht & _)%features_result_origin & Hrt).
    exists r0. split; [done|congruence].
  - intros Ht. assert (t ∈ group_keys df) as Hin by by apply group_keys_elem.
    pose proof (features_result_partition window df t Hnd Hin) as Hp.
    destruct Ht as (r & Hr & Hrt).
    assert (length (partition t (pd.rows out)) ≠ 0) as Hlen.
    { unfold out. rewrite Hp, by_ticker_result_length.
      rewrite (Permutation_length (sorted_by_date_perm _)). simpl.
      assert (r ∈ partition t (pd.rows df)) as Hin' by by apply list_elem_of_filter.
      destruct (partition t (pd.rows df)); [by apply elem_of_nil in Hin'|done]. }
    destruct (partition t (pd.rows out)) as [|r' rs] eqn:Hpo; [done|].
    assert (r' ∈ partition t (pd.rows out)) as [? ?]%list_elem_of_filter
      by (rewrite Hpo; by left).
    eauto.
Qed.

Lemma output_group t :
  t ∈ group_keys df → group out t = by_ticker_result window (group df t).
Proof.
  intros Ht. apply frame_eq.
  - unfold group at 1. cbn [pd.columns]. unfold out.
    rewrite features_result_columns_eq, by_ticker_result_columns_eq.
    destruct (group_keys df); [by apply elem_of_nil in Ht|done].
  - by apply features_result_partition.
Qed.
End output.
End rerun.

Section rerun_output.
Context `{Argsort}.

Section again.
Context (window : nat) (df : pd.DataFrame).
Hypothesis Hnd : NoDup (pd.index df).
Hypothesis Hties : ∀ t, NoDup (omap date_key (partition t (pd.rows df))).
Let out := features_result window df.

Lemma output_results : results window out = results window df.
Proof.
  unfold results. unfold out at 2. rewrite output_group_keys by done.
  apply list_fmap_ext. intros i t Ht%list_elem_of_lookup_2.
  unfold out. rewrite output_group by done.
  apply by_ticker_result_idem, Hties.
Qed.

Lemma output_not_mutated : mutated window out = false.
Proof.
  unfold mutated. rewrite output_results. apply bool_decide_eq_false_2.
  intros Hne. apply Hne. unfold out. rewrite output_group_keys by done.
  unfold results. rewrite <- !list_fmap_compose.
  apply list_fmap_ext. intros i t Ht%list_elem_of_lookup_2. simpl.
  by rewrite output_group.
Qed.

Lemma output_columns_concat :
  results window df ≠ [] →
  pd.columns out = pd.columns (pd.concat (results window df)).
Proof.
  intros Hne. unfold out, features_result, pd.wrap_applied_output.
  destruct (results window df) as [|v vs]; [done|].
  destruct (mutated window df); [done|].
  case_bool_decide; [done|]. unfold pd.reindex. by case_decide.
Qed.

Lemma features_result_idem : features_result window out = out.
Proof.
  unfold features_result at 1.
  rewrite output_results, output_not_mutated.
  unfold out at 2. rewrite output_with_ticker. fold out. fold (pd.index out).
  unfold pd.wrap_applied_output.
  destruct (results window df) as [|v vs] eqn:HV.
  { unfold out, features_result. by rewrite HV. }
  rewrite <- HV.
  assert (NoDup (pd.index out)) as Hout by by apply output_index_NoDup.
  rewrite bool_decide_eq_false_2 by (intros [Hdup _]; by apply Hdup).
  assert (pd.index (pd.concat (results window df)) ≡ₚ pd.index out) as Hperm.
  { unfold out, pd.index. by rewrite features_result_rows_perm. }
  apply frame_eq.
  - rewrite output_columns_concat by by rewrite HV.
    unfold pd.reindex. by case_decide.
  - destruct (reindex_rows _ _ Hout Hperm) as [-> _].
    apply reindex_self.
    + fold (pd.index (pd.concat (results window df))). by rewrite Hperm.
    + intros r Hr. unfold out in Hr. by rewrite features_result_rows_perm in Hr.
Qed.
End again.
End rerun_output.

(** X5.  On a table with unique row labels in which no instrument has two
    rows with the same date, a table the call returned is returned unchanged
    when the call is applied to it again. *)
Theorem rerun_changes_nothing `{Argsort} df window out :
  NoDup (pd.index df) →
  (∀ t, NoDup (omap date_key (partition t (pd.rows df)))) →
  add_range_vol_features df window = Ok out →
  add_range_vol_features out window = Ok out.
Proof.
  intros Hnd Hties Hout.
  destruct (features_Ok_typed df window out Hout) as [Hty Hreq].
  apply features_Ok in Hout as [Hticker ->].
  rewrite features_run by by apply features_result_typed.
  rewrite decide_True by by apply features_result_columns.
  rewrite output_group_keys by done.
  rewrite features_result_idem by done.
  destruct (group_keys df) as [|t ts] eqn:Hks; [done|].
  assert (first_missing (features_result window df) = None) as ->; [|done].
  apply first_missing_None. intros c Hc. apply features_result_columns, Hreq.
  - intros Hnil%group_keys_nil. congruence.
  - unfold required. set_solver.
Qed.

Lemma rerun_changes_nothing_witness :
  @add_range_vol_features unstable_sort
     (@features_result unstable_sort 20 unsorted) 20 =
    Ok (@features_result unstable_sort 20 unsorted).
Proof.
  refine (@rerun_changes_nothing unstable_sort unsorted 20 _ unsorted_labels _
            (unsorted_returns unstable_sort)).
  intros t. unfold partition, unsorted. cbn [pd.rows].
  rewrite !filter_cons, filter_nil.
  repeat match goal with
         | |- context [decide (ticker ?r = Some t)] =>
             let Ht := fresh "Ht" in
             destruct (decide (ticker r = Some t)) as [Ht|_];
             [vm_compute in Ht|]
         end; try congruence; vm_compute; repeat constructor; set_solver.
Defined.

(** ** The labels of the output *)

(** X22.  Whenever the call returns, the row labels of the output are the
    row labels of the input rows that have a Ticker, each as often as there,
    in some order: no row is lost, doubled or relabelled, also when labels
    repeat in the input. *)
Theorem labels_preserved `{Argsort} df window out :
  add_range_vol_features df window = Ok out →
  pd.index out ≡ₚ pd.label <$> with_ticker (pd.rows df).
Proof.
  intros [_ ->]%features_Ok. unfold pd.index at 1.
  rewrite features_result_rows_perm. apply results_index_perm.
Qed.

Lemma labels_preserved_witness :
  pd.index (@features_result unstable_sort 20 tied) ≡ₚ
    pd.label <$> with_ticker (pd.rows tied).
Proof.
  refine (@labels_preserved unstable_sort tied 20 _ _).
  apply features_total; [apply well_typed_check; vm_compute; reflexivity|].
  vm_compute. set_solver.
Defined.

(** * The ingestion step *)

(** ** Stripping and replacing *)

Lemma rstrip_idem s : py.rstrip (py.rstrip s) = py.rstrip s.
Proof.
  induction s as [|c s IH]; [done|]. simpl.
  destruct (py.rstrip s) as [|d t] eqn:Hs.
  - destruct (py.isspace c) eqn:Hc; simpl; [done|]. by rewrite Hc.
  - simpl in *. by rewrite IH.
Qed.

Lemma lstrip_head s :
  py.lstrip s = "" ∨ ∃ c u, py.lstrip s = String c u ∧ py.isspace c = false.
Proof.
  induction s as [|c s IH]; [by left|]. simpl.
  destruct (py.isspace c) eqn:Hc; [done|]. right. eauto.
Qed.

Lemma rstrip_head c u :
  py.isspace c = false → ∃ t, py.rstrip (String c u) = String c t.
Proof.
  intros Hc. simpl. destruct (py.rstrip u); [|by eauto]. rewrite Hc. eauto.
Qed.

Lemma strip_idem s : py.strip (py.strip s) = py.strip s.
Proof.
  unfold py.strip.
  assert (py.lstrip (py.rstrip (py.lstrip s)) = py.rstrip (py.lstrip s)) as ->;
    [|apply rstrip_idem].
  destruct (lstrip_head s) as [->|(c & u & -> & Hc)]; [done|].
  destruct (rstrip_head c u Hc) as [t ->]. simpl. by rewrite Hc.
Qed.

Lemma lstrip_chars s : chars (py.lstrip s) ⊆ chars s.
Proof.
  induction s as [|c s IH]; [done|]. simpl.
  destruct (py.isspace c); [|done]. intros x Hx. right. by apply IH.
Qed.

Lemma rstrip_chars s : chars (py.rstrip s) ⊆ chars s.
Proof.
  induction s as [|c s IH]; [done|]. simpl.
  destruct (py.rstrip s) as [|d t].
  - destruct (py.isspace c); [apply list_subseteq_nil|].
    intros x [->|[]%elem_of_nil]%elem_of_cons. by left.
  - intros x [->|Hx]%elem_of_cons; [by left|]. right. by apply IH.
Qed.

Lemma strip_chars s : chars (py.strip s) ⊆ chars s.
Proof. unfold py.strip. etrans; [apply rstrip_chars|apply lstrip_chars]. Qed.

Lemma sub_dot_chars s : dot ∉ chars (py.sub_dot s).
Proof.
  induction s as [|c s IH]; simpl; [apply not_elem_of_nil|].
  apply not_elem_of_cons. split; [|done].
  case_decide as Hc; [done|]. intros Heq. apply Hc. by rewrite <- Heq.
Qed.

(** A cleaned symbol has no dot and no white space at either end. *)
Lemma cleaned s :
  let t := py.strip (py.sub_dot s) in dot ∉ chars t ∧ py.strip t = t.
Proof.
  split; [|apply strip_idem].
  intros Hin%strip_chars. by apply sub_dot_chars in Hin.
Qed.

(** ** The universe of tickers *)

Section universe.
Context `{Repr}.

Lemma cleaned_column (symbol : list value) t :
  t ∈ pandas.str_strip (pandas.str_replace_dot (pandas.astype_str symbol)) →
  dot ∉ chars t ∧ py.strip t = t.
Proof.
  unfold pandas.str_strip, pandas.str_replace_dot.
  intros (u & -> & (s & -> & _)%list_elem_of_fmap)%list_elem_of_fmap.
  apply cleaned.
Qed.

Lemma slickcharts_Return tables ts :
  get_nasdaq100_tickers_from_slickcharts tables = Return ts →
  ∃ df rest symbol,
    tables = df :: rest ∧ pd.getitem df "Symbol" = Ok symbol ∧
    ts = filter kept (unique (pandas.str_strip (pandas.str_replace_dot
                                (pandas.astype_str symbol)))).
Proof.
  unfold get_nasdaq100_tickers_from_slickcharts.
  destruct tables as [|df rest]; [done|].
  destruct (pd.getitem df "Symbol") as [symbol|] eqn:Hs; [|done].
  intros [= <-]. by exists df, rest, symbol.
Qed.
End universe.

Lemma unique_NoDup `{EqDecision A} (l : list A) : NoDup l → unique l = l.
Proof.
  induction 1 as [|x l Hx _ IH]; simpl; [done|]. rewrite IH. f_equal.
  apply filter_all. intros y Hy ->. done.
Qed.

Lemma sub_dot_id s : dot ∉ chars s → py.sub_dot s = s.
Proof.
  induction s as [|c s IH]; simpl; [done|].
  intros [Hc Hs]%not_elem_of_cons. rewrite IH by done.
  rewrite decide_False; [done|]. intros ->. by apply Hc.
Qed.

Lemma symbols_table_column `{Repr} col symbols :
  pd.getitem (symbols_table col symbols) col = Ok symbols.
Proof.
  unfold pd.getitem, symbols_table. cbn [pd.columns pd.rows].
  rewrite decide_True by by left. f_equal.
  rewrite fmap_imap. apply list_eq. intros i. rewrite list_lookup_imap.
  destruct (symbols !! i) as [v|]; [|done]. simpl. f_equal.
  unfold pd.cell. simpl. by rewrite lookup_singleton_eq.
Qed.

(** X16.  The universe [get_nasdaq100_tickers_from_slickcharts] returns has
    no ticker twice, no empty ticker and no ticker that reads "N/A" in upper
    case; no ticker in it has a dot, or white space at either end; and a
    ticker is in it exactly when it is kept and is the cleaned text of a cell
    of the Symbol column of the first table. *)
Theorem slickcharts_universe `{Repr} tables ts :
  get_nasdaq100_tickers_from_slickcharts tables = Return ts →
  NoDup ts ∧
  (∀ t, t ∈ ts →
        t ≠ "" ∧ py.upper t ≠ "N/A" ∧ dot ∉ chars t ∧ py.strip t = t) ∧
  (∀ t, t ∈ ts ↔
        kept t ∧ ∃ df rest symbol s,
          tables = df :: rest ∧ pd.getitem df "Symbol" = Ok symbol ∧
          s ∈ pandas.astype_str symbol ∧ t = py.strip (py.sub_dot s)).
Proof.
  intros (df & rest & symbol & -> & Hsym & ->)%slickcharts_Return. split_and!.
  - apply NoDup_filter, NoDup_unique.
  - intros t [[Hne Hna] Ht]%list_elem_of_filter.
    apply (proj1 (elem_of_unique _ _)) in Ht.
    destruct (cleaned_column symbol t Ht). done.
  - intros t. rewrite list_elem_of_filter, elem_of_unique.
    unfold pandas.str_strip, pandas.str_replace_dot. rewrite <- list_fmap_compose.
    rewrite list_elem_of_fmap. split.
    + intros [Hk (s & -> & Hs)]. split; [done|]. by exists df, rest, symbol, s.
    + intros [Hk (df' & rest' & symbol' & s & [= <- <-] & Hsym' & Hs & ->)].
      split; [done|]. exists s. split; [done|]. congruence.
Qed.

Lemma slickcharts_universe_witness :
  @get_nasdaq100_tickers_from_slickcharts plain
    [symbols_table "Symbol" [VStr " BRK.B"; VStr "AAPL"; VStr "n/a"; VStr "BRK-B "]] =
    Return ["BRK-B"; "AAPL"] ∧
  NoDup ["BRK-B"; "AAPL"].
Proof.
  assert (@get_nasdaq100_tickers_from_slickcharts plain
            [symbols_table "Symbol" [VStr " BRK.B"; VStr "AAPL"; VStr "n/a"; VStr "BRK-B "]] =
          Return ["BRK-B"; "AAPL"]) as Hrun by (vm_compute; reflexivity).
  split; [exact Hrun|]. exact (proj1 (@slickcharts_universe plain _ _ Hrun)).
Defined.



(** X18.  A missing cell in the Symbol column is not dropped: its text is
    "nan", which [get_nasdaq100_tickers_from_slickcharts] returns as a ticker
    of the universe. *)
Theorem missing_symbol_is_nan `{Repr} df rest symbol :
  pd.getitem df "Symbol" = Ok symbol → VNone ∈ symbol →
  ∃ ts, get_nasdaq100_tickers_from_slickcharts (df :: rest) = Return ts ∧ "nan" ∈ ts.
Proof.
  intros Hsym Hnone. unfold get_nasdaq100_tickers_from_slickcharts. rewrite Hsym.
  eexists. split; [done|]. cbv zeta.
  apply list_elem_of_filter. split; [by split|].
  apply elem_of_unique.
  unfold pandas.str_strip, pandas.str_replace_dot, pandas.astype_str.
  rewrite <- !list_fmap_compose. apply list_elem_of_fmap. by exists VNone.
Qed.

Lemma missing_symbol_is_nan_witness :
  ∃ ts, @get_nasdaq100_tickers_from_slickcharts plain
          [symbols_table "Symbol" [VStr "AAPL"; VNone]] = Return ts ∧ "nan" ∈ ts.
Proof.
  refine (@missing_symbol_is_nan plain
            (symbols_table "Symbol" [VStr "AAPL"; VNone]) [] [VStr "AAPL"; VNone] _ _).
  - vm_compute. reflexivity.
  - set_solver.
Defined.

(** X23.  A universe [get_nasdaq100_tickers_from_slickcharts] returned is
    returned as it is when it is read again as a Symbol column: nothing is
    left to clean, to drop or to merge. *)
Theorem universe_is_fixed `{Repr} tables ts :
  get_nasdaq100_tickers_from_slickcharts tables = Return ts →
  get_nasdaq100_tickers_from_slickcharts [symbols_table "Symbol" (VStr <$> ts)] =
    Return ts.
Proof.
  intros (df & rest & symbol & -> & Hsym & Hts)%slickcharts_Return.
  assert (NoDup ts) as Hnd by (rewrite Hts; apply NoDup_filter, NoDup_unique).
  assert (∀ t, t ∈ ts → kept t ∧ dot ∉ chars t ∧ py.strip t = t) as Hclean.
  { intros t. rewrite Hts. intros [Hk Ht]%list_elem_of_filter.
    apply (proj1 (elem_of_unique _ _)) in Ht.
    destruct (cleaned_column symbol t Ht). done. }
  clear Hts. unfold get_nasdaq100_tickers_from_slickcharts.
  rewrite symbols_table_column. cbv zeta. f_equal.
  assert (pandas.str_strip (pandas.str_replace_dot (pandas.astype_str (VStr <$> ts))) = ts)
    as ->.
  { unfold pandas.str_strip, pandas.str_replace_dot, pandas.astype_str.
    rewrite <- !list_fmap_compose. rewrite <- (list_fmap_id ts) at 2.
    apply list_fmap_ext. intros i t Ht%list_elem_of_lookup_2. simpl.
    destruct (Hclean t Ht) as (_ & Hdot & Hstrip). by rewrite sub_dot_id. }
  unfold py.fromkeys. rewrite unique_NoDup by done.
  apply filter_all. intros t Ht. by destruct (Hclean t Ht).
Qed.

Lemma universe_is_fixed_witness :
  @get_nasdaq100_tickers_from_slickcharts plain
    [symbols_table "Symbol" (VStr <$> ["BRK-B"; "AAPL"])] = Return ["BRK-B"; "AAPL"].
Proof.
  refine (@universe_is_fixed plain
            [symbols_table "Symbol" [VStr " BRK.B"; VStr "AAPL"; VStr "n/a"; VStr "BRK-B "]]
            ["BRK-B"; "AAPL"] _).
  vm_compute. reflexivity.
Defined.

(** ** The order of the keys *)

Section na_last.
Context {K : Type} (le : K → K → bool).
Hypothesis le_total : ∀ a b, le a b = false → le b a = true.
Hypothesis le_trans : ∀ a b c, le a b = true → le b c = true → le a c = true.

Lemma na_last_total a b :
  pandas.na_last le a b = false → pandas.na_last le b a = true.
Proof. destruct a, b; simpl; auto. Qed.

Lemma na_last_trans a b c :
  pandas.na_last le a b = true → pandas.na_last le b c = true →
  pandas.na_last le a c = true.
Proof. destruct a, b, c; simpl; eauto; done. Qed.
End na_last.

Lemma string_leb_total a b : String.leb a b = false → String.leb b a = true.
Proof.
  intros Hab. destruct (total String.le a b) as [Hle|Hle]; unfold String.le in Hle.
  - rewrite Hab in Hle. done.
  - by apply Is_true_true.
Qed.

Lemma string_leb_trans a b c :
  String.leb a b = true → String.leb b c = true → String.leb a c = true.
Proof.
  intros Hab%Is_true_true Hbc%Is_true_true. apply Is_true_true.
  exact (transitivity (R := String.le) Hab Hbc).
Qed.

Lemma string_leb_antisym a b :
  String.leb a b = true → String.leb b a = true → a = b.
Proof.
  intros Hab%Is_true_true Hba%Is_true_true.
  exact (anti_symm String.le a b Hab Hba).
Qed.

Lemma na_last_string_antisym a b :
  pandas.na_last String.leb a b = true → pandas.na_last String.leb b a = true → a = b.
Proof.
  destruct a, b; simpl; try done. intros ??. f_equal. by apply string_leb_antisym.
Qed.

Lemma key_le_total a b : pandas.key_le a b = false → pandas.key_le b a = true.
Proof.
  unfold pandas.key_le. destruct (decide (a.1 = b.1)) as [Heq|Hne].
  - rewrite decide_True by done. apply na_last_total.
    intros x y Hxy. apply Z.leb_le. apply Z.leb_gt in Hxy. lia.
  - rewrite decide_False by done. apply na_last_total, string_leb_total.
Qed.

Lemma key_le_trans a b c :
  pandas.key_le a b = true → pandas.key_le b c = true → pandas.key_le a c = true.
Proof.
  assert (∀ x y z, Z.leb x y = true → Z.leb y z = true → Z.leb x z = true) as HZ.
  { intros x y z ?%Z.leb_le ?%Z.leb_le. apply Z.leb_le. lia. }
  unfold pandas.key_le.
  destruct (decide (a.1 = b.1)) as [Hab|Hab], (decide (b.1 = c.1)) as [Hbc|Hbc].
  - rewrite decide_True by congruence. by apply na_last_trans.
  - rewrite decide_False by congruence. by rewrite Hab.
  - rewrite decide_False by congruence. by rewrite <- Hbc.
  - intros H1 H2. destruct (decide (a.1 = c.1)) as [Hac|Hac].
    + exfalso. apply Hab. rewrite <- Hac in H2. by apply na_last_string_antisym.
    + eapply na_last_trans; [apply string_leb_trans|done..].
Qed.

(** ** A stable sort by a key *)

Section insert_stable.
Context {K : Type} (le : K → K → bool).
Hypothesis le_total : ∀ a b, le a b = false → le b a = true.
Hypothesis le_trans : ∀ a b c, le a b = true → le b c = true → le a c = true.

Lemma insert_stable_perm x l : pandas.insert_stable le x l ≡ₚ x :: l.
Proof.
  induction l as [|y l IH]; simpl; [done|].
  destruct (le x.1 y.1); [done|]. rewrite IH. apply perm_swap.
Qed.

Lemma sort_stable_perm l : foldr (pandas.insert_stable le) [] l ≡ₚ l.
Proof.
  induction l as [|x l IH]; simpl; [done|]. by rewrite insert_stable_perm, IH.
Qed.

Lemma insert_stable_sorted x l :
  StronglySorted (λ a b, le a b = true) l.*1 →
  StronglySorted (λ a b, le a b = true) (pandas.insert_stable le x l).*1.
Proof.
  induction l as [|y l IH]; simpl; intros Hs.
  - repeat constructor.
  - apply StronglySorted_inv in Hs as [Hs Hy].
    destruct (le x.1 y.1) eqn:Hxy; simpl.
    + constructor; [by constructor|]. constructor; [done|].
      eapply Forall_impl; [done|]. intros z Hz. simpl in Hz. by eapply le_trans.
    + constructor; [by apply IH|].
      rewrite insert_stable_perm. simpl. constructor; [by apply le_total|done].
Qed.

Lemma sort_stable_sorted l :
  StronglySorted (λ a b, le a b = true) (foldr (pandas.insert_stable le) [] l).*1.
Proof.
  induction l as [|x l IH]; simpl; [constructor|]. by apply insert_stable_sorted.
Qed.
End insert_stable.

Lemma lookup_keys_pairs {K} (l : list K) (ps : list (K * nat)) :
  Forall (λ p, l !! p.2 = Some p.1) ps → omap (l !!.) ps.*2 = ps.*1.
Proof.
  induction 1 as [|p ps Hp _ IH]; csimpl; [done|]. by rewrite Hp, IH.
Qed.

Lemma zip_seq_pairs {K} (l : list K) :
  Forall (λ p, l !! p.2 = Some p.1) (zip l (seq 0 (length l))).
Proof.
  apply Forall_forall. intros [k i] Hin.
  apply list_elem_of_lookup in Hin as [j Hj].
  apply lookup_zip_with_Some in Hj as (k' & i' & [= <- <-] & Hk & Hi).
  apply lookup_seq in Hi as [-> _]. done.
Qed.

Lemma lexsort_indexer_perm keys :
  pandas.lexsort_indexer keys ≡ₚ seq 0 (length keys).
Proof.
  unfold pandas.lexsort_indexer. rewrite sort_stable_perm.
  rewrite snd_zip; [done|]. by rewrite length_seq.
Qed.

Lemma lexsort_indexer_sorted keys :
  StronglySorted (λ a b, pandas.key_le a b = true)
                 (omap (keys !!.) (pandas.lexsort_indexer keys)).
Proof.
  unfold pandas.lexsort_indexer. rewrite lookup_keys_pairs.
  - apply sort_stable_sorted; [apply key_le_total|apply key_le_trans].
  - rewrite sort_stable_perm. apply zip_seq_pairs.
Qed.

(** ** The end of [download_ohlcv] *)

Lemma sort_key_zip (rs : list pd.Row) :
  zip (ticker <$> rs) (date_key <$> rs) = sort_key <$> rs.
Proof. induction rs as [|r rs IH]; csimpl; [done|]. by rewrite IH. Qed.

Lemma sort_values_by_Ok g s :
  pandas.sort_values_by g "Ticker" "date" = Ok s →
  "Ticker" ∈ pd.columns g ∧ "date" ∈ pd.columns g ∧
  s = pd.take (pandas.lexsort_indexer (sort_key <$> pd.rows g)) g.
Proof.
  unfold pandas.sort_values_by, mbind, result_bind.
  destruct (pd.getitem g "Ticker") as [k1|] eqn:H1; [|done].
  destruct (pd.getitem g "date") as [k2|] eqn:H2; [|done].
  apply getitem_Ok in H1 as [? ->]. apply getitem_Ok in H2 as [? ->].
  destruct (traverse pd.to_str _) as [t|] eqn:Ht; [|done].
  destruct (traverse pd.to_time _) as [d|] eqn:Hd; [|done].
  apply tickers_Ok in Ht as ->. apply date_keys_Ok in Hd as ->.
  rewrite sort_key_zip. by intros [= <-].
Qed.

Lemma download_ohlcv_Ok df out :
  download_ohlcv df = Ok out →
  let g := pandas.getitem_list df (filter (λ c, c ∈ pd.columns df) keep) in
  "Ticker" ∈ pd.columns df ∧ "date" ∈ pd.columns df ∧
  out = pandas.reset_index
          (pd.take (pandas.lexsort_indexer (sort_key <$> pd.rows g)) g).
Proof.
  unfold download_ohlcv, mbind, result_bind. cbv zeta.
  destruct (pandas.sort_values_by _ _ _) as [s|] eqn:Hs; [|done].
  apply sort_values_by_Ok in Hs as (Ht & Hd & ->). intros [= <-].
  simpl in Ht, Hd. apply list_elem_of_filter in Ht as [? _].
  apply list_elem_of_filter in Hd as [? _]. done.
Qed.

Lemma reset_index_index df :
  pd.index (pandas.reset_index df) = seq 0 (length (pd.rows df)).
Proof.
  unfold pd.index, pandas.reset_index. simpl.
  apply list_eq. intros i. rewrite list_lookup_fmap, list_lookup_imap.
  destruct (pd.rows df !! i) as [r|] eqn:Hr; simpl.
  - symmetry. apply lookup_seq. split; [done|]. by eapply lookup_lt_Some.
  - symmetry. apply lookup_ge_None. rewrite length_seq. by apply lookup_ge_None.
Qed.

Lemma reset_index_cells df :
  pd.cells <$> pd.rows (pandas.reset_index df) = pd.cells <$> pd.rows df.
Proof.
  unfold pandas.reset_index. simpl. rewrite fmap_imap.
  rewrite (imap_ext _ (λ _, pd.cells)); [apply imap_const|done].
Qed.

(** What is read of a row through its cells. *)
Lemma cells_sort_key (rs rs' : list pd.Row) :
  pd.cells <$> rs = pd.cells <$> rs' → sort_key <$> rs = sort_key <$> rs'.
Proof.
  intros Heq.
  change (sort_key <$> rs) with
    ((λ m : gmap string value, sort_key {| pd.label := 0; pd.cells := m |}) ∘ pd.cells <$> rs).
  change (sort_key <$> rs') with
    ((λ m : gmap string value, sort_key {| pd.label := 0; pd.cells := m |}) ∘ pd.cells <$> rs').
  by rewrite !list_fmap_compose, Heq.
Qed.

Lemma take_perm idx df :
  idx ≡ₚ seq 0 (length (pd.rows df)) → pd.rows (pd.take idx df) ≡ₚ pd.rows df.
Proof. intros Hidx. simpl. by apply omap_lookup_perm. Qed.

Section download.
Variables (df out : pd.DataFrame).
Hypothesis Hout : download_ohlcv df = Ok out.
Let g := pandas.getitem_list df (filter (λ c, c ∈ pd.columns df) keep).
Let s := pd.take (pandas.lexsort_indexer (sort_key <$> pd.rows g)) g.

Lemma download_ohlcv_out : out = pandas.reset_index s.
Proof. by apply download_ohlcv_Ok in Hout as (_ & _ & ->). Qed.

Lemma download_ohlcv_columns :
  pd.columns out = filter (λ c, c ∈ pd.columns df) keep.
Proof. by rewrite download_ohlcv_out. Qed.

Lemma download_ohlcv_sorted_rows : pd.rows s ≡ₚ pd.rows g.
Proof.
  apply take_perm. rewrite lexsort_indexer_perm. by rewrite length_fmap.
Qed.

Lemma download_ohlcv_index : pd.index out = seq 0 (length (pd.rows df)).
Proof.
  rewrite download_ohlcv_out, reset_index_index.
  rewrite (Permutation_length download_ohlcv_sorted_rows).
  unfold g. simpl. by rewrite length_fmap.
Qed.

Lemma download_ohlcv_cells :
  pd.cells <$> pd.rows out ≡ₚ
    (λ r, filter (λ kv, kv.1 ∈ pd.columns out) (pd.cells r)) <$> pd.rows df.
Proof.
  rewrite download_ohlcv_columns, download_ohlcv_out, reset_index_cells.
  rewrite download_ohlcv_sorted_rows. unfold g. simpl.
  by rewrite <- list_fmap_compose.
Qed.

Lemma download_ohlcv_keys :
  StronglySorted (λ a b, pandas.key_le a b = true) (sort_key <$> pd.rows out).
Proof.
  rewrite download_ohlcv_out.
  rewrite (cells_sort_key _ (pd.rows s)) by apply reset_index_cells.
  unfold s, pd.take. cbn [pd.rows]. rewrite fmap_omap_lookup.
  apply lexsort_indexer_sorted.
Qed.
End download.

Lemma na_last_date_le a b : pandas.na_last Z.leb a b = true → date_le a b.
Proof. destruct a, b; simpl; try done. by intros ?%Z.leb_le. Qed.

Lemma na_last_string_refl a : pandas.na_last String.leb a a = true.
Proof.
  destruct a as [x|]; simpl; [|done].
  destruct (String.leb x x) eqn:Hx; [done|]. by rewrite (string_leb_total x x Hx) in Hx.
Qed.

Lemma key_le_ticker a b :
  pandas.key_le a b = true → pandas.na_last String.leb a.1 b.1 = true.
Proof.
  unfold pandas.key_le. case_decide as Heq; [|done]. intros _. rewrite Heq.
  apply na_last_string_refl.
Qed.

Lemma sorted_keys_tickers (rs : list pd.Row) :
  StronglySorted (λ a b, pandas.key_le a b = true) (sort_key <$> rs) →
  StronglySorted (λ a b, pandas.na_last String.leb a b = true) (ticker <$> rs).
Proof.
  induction rs as [|r rs IH]; csimpl; [constructor|].
  intros [Hs Hr]%StronglySorted_inv. constructor; [by apply IH|].
  rewrite Forall_fmap in Hr. rewrite Forall_fmap.
  eapply Forall_impl; [done|]. intros r' Hr'. by apply key_le_ticker in Hr'.
Qed.

Lemma sorted_keys_partition t (rs : list pd.Row) :
  StronglySorted (λ a b, pandas.key_le a b = true) (sort_key <$> rs) →
  StronglySorted date_le (date_key <$> partition t rs).
Proof.
  unfold partition. induction rs as [|r rs IH]; csimpl; [constructor|].
  intros [Hs Hr]%StronglySorted_inv. rewrite filter_cons.
  case_decide as Ht; [|by apply IH]. csimpl. constructor; [by apply IH|].
  rewrite Forall_fmap in Hr. rewrite Forall_fmap.
  apply Forall_forall. intros r' [Ht' Hin]%list_elem_of_filter.
  eapply (proj1 (Forall_forall _ _)) in Hr; [|done].
  unfold pandas.key_le, sort_key in Hr. simpl in Hr.
  rewrite decide_True in Hr by congruence. by apply na_last_date_le.
Qed.

Lemma sorted_le_distinct (ks : list (option Z)) :
  StronglySorted date_le ks → NoDup (pd.present ks) → Sorted date_lt ks.
Proof.
  unfold pd.present.
  induction 1 as [|k ks _ IH Hk]; intros Hnd; [constructor|].
  assert (NoDup (omap (λ k : option Z, k) ks)) as Hnd'.
  { csimpl in Hnd. destruct k; [by apply NoDup_cons in Hnd as [_ ?]|done]. }
  constructor; [by apply IH|].
  destruct ks as [|k' ks']; constructor.
  apply Forall_cons in Hk as [Hkk' _].
  destruct k as [z|], k' as [z'|]; simpl in *; try done.
  apply NoDup_cons in Hnd as [Hz _].
  assert (z ≠ z') by (intros ->; apply Hz; by left). lia.
Qed.

(** X19.  The table [download_ohlcv] returns has the columns of the list
    [keep] that the downloaded frame has, in the order of [keep]; its row
    labels are 0, 1, ..., one for every row of the frame; and its rows are
    the rows of the frame, cut down to these columns, in some order. *)
Theorem download_ohlcv_shape df out :
  download_ohlcv df = Ok out →
  pd.columns out = filter (λ c, c ∈ pd.columns df) keep ∧
  pd.index out = seq 0 (length (pd.rows df)) ∧
  pd.cells <$> pd.rows out ≡ₚ
    (λ r, filter (λ kv, kv.1 ∈ pd.columns out) (pd.cells r)) <$> pd.rows df.
Proof.
  intros Hout. split_and!.
  - by apply download_ohlcv_columns.
  - by apply download_ohlcv_index.
  - by apply download_ohlcv_cells.
Qed.

(** X20.  The rows of the table [download_ohlcv] returns are in ascending
    order of Ticker, a missing Ticker last, and within every Ticker in
    ascending order of date, a missing date last. *)
Theorem download_ohlcv_sorted df out :
  download_ohlcv df = Ok out →
  StronglySorted (λ a b, pandas.na_last String.leb a b = true)
                 (ticker <$> pd.rows out) ∧
  ∀ t, Sorted date_le (date_key <$> partition t (pd.rows out)).
Proof.
  intros Hout%download_ohlcv_keys. split.
  - by apply sorted_keys_tickers.
  - intros t. by apply StronglySorted_Sorted, sorted_keys_partition.
Qed.

(** X21.  The two steps together, as [main] runs them: when the table
    [download_ohlcv] returns has no two rows with the same Ticker and date,
    the table [add_range_vol_features] makes of it has its rows (those that
    have a Ticker) in the same order and with the same labels, and differs
    from it in the three derived columns only.  This holds for every sorting
    algorithm. *)
Theorem features_follow_download `{Argsort} df ohlcv window feats :
  download_ohlcv df = Ok ohlcv →
  (∀ t, NoDup (omap date_key (partition t (pd.rows ohlcv)))) →
  add_range_vol_features ohlcv window = Ok feats →
  NoDup (pd.index ohlcv) ∧
  same_upto derived (with_ticker (pd.rows ohlcv)) (pd.rows feats).
Proof.
  intros Hdl Hties [_ ->]%features_Ok.
  assert (NoDup (pd.index ohlcv)) as Hnd.
  { rewrite (download_ohlcv_index _ _ Hdl). apply NoDup_seq. }
  split; [done|]. apply not_mutated_rows; [done|].
  apply sorted_groups_not_mutated. intros t.
  apply sorted_le_distinct.
  - by apply sorted_keys_partition, (download_ohlcv_keys df).
  - rewrite present_date_keys. apply Hties.
Qed.

Lemma unsorted_downloaded : download_ohlcv unsorted = Ok ingested.
Proof. vm_compute. reflexivity. Qed.

Lemma ingested_returns (A : Argsort) :
  @add_range_vol_features A ingested 20 = Ok (@features_result A 20 ingested).
Proof.
  apply features_total; [apply well_typed_check; vm_compute; reflexivity|].
  vm_compute. set_solver.
Qed.

Lemma ingested_no_ties t : NoDup (omap date_key (partition t (pd.rows ingested))).
Proof.
  unfold partition, ingested. cbn [pd.rows].
  rewrite !filter_cons, filter_nil.
  repeat match goal with
         | |- context [decide (ticker ?r = Some t)] =>
             let Ht := fresh "Ht" in
             destruct (decide (ticker r = Some t)) as [Ht|_];
             [vm_compute in Ht|]
         end; try congruence; vm_compute; repeat constructor; set_solver.
Qed.

Lemma download_ohlcv_shape_witness :
  pd.columns ingested = filter (λ c, c ∈ pd.columns unsorted) keep ∧
  pd.index ingested = seq 0 (length (pd.rows unsorted)) ∧
  pd.cells <$> pd.rows ingested ≡ₚ
    (λ r, filter (λ kv, kv.1 ∈ pd.columns ingested) (pd.cells r)) <$> pd.rows unsorted.
Proof. exact (download_ohlcv_shape unsorted ingested unsorted_downloaded). Defined.

Lemma download_ohlcv_sorted_witness :
  StronglySorted (λ a b, pandas.na_last String.leb a b = true)
                 (ticker <$> pd.rows ingested) ∧
  ∀ t, Sorted date_le (date_key <$> partition t (pd.rows ingested)).
Proof. exact (download_ohlcv_sorted unsorted ingested unsorted_downloaded). Defined.

Lemma features_follow_download_witness :
  NoDup (pd.index ingested) ∧
  same_upto derived (with_ticker (pd.rows ingested))
            (pd.rows (@features_result unstable_sort 20 ingested)).
Proof.
  exact (@features_follow_download unstable_sort unsorted ingested 20 _
           unsorted_downloaded ingested_no_ties (ingested_returns unstable_sort)).
Defined.
